(** * The RBAC project migration of the Lagoon API

    A shallow embedding of
    [services/api/src/migrations/1-rbac/projects.ts].  The script is an
    [async] function that talks to three collaborators: the relational
    store, the Keycloak models ([Group], [User]) and the ssh key helpers.
    Every [await] either yields a value or throws, and every call may
    change the outside world, so the script is embedded in a monad that
    threads the world, collects the calls and log lines it issues, and
    propagates thrown errors until a [try]/[catch] intercepts them.

    The entrypoint script of the Elasticsearch image,
    [images/elasticsearch/docker-entrypoint.sh.6], is embedded as a
    function on the text of the configuration file. *)

From Stdlib Require Import Ascii.
From stdpp Require Import base strings list gmap.

Local Open Scope string_scope.
Local Open Scope list_scope.
Local Open Scope Z_scope.

(** ** Data as the script sees it *)

(** Values found in a Keycloak attribute list: the script stores string
    literals and the numeric project id. *)
Inductive AttrValue :=
| AStr (s : string)
| ANum (n : Z).

#[global] Instance AttrValue_eq_dec : EqDecision AttrValue.
Proof. solve_decision. Defined.

Abbreviation Attributes := (gmap string (list AttrValue)).

(** A row of [SELECT * FROM project], with the fields the script reads:
    [project.id], [project.name] and [R.prop('privateKey', project)].  The
    last one is the field the script tests and parses; the query helper
    that builds the row from the [private_key] column is a collaborator. *)
Record Project := mkProject {
  project_id : Z;
  project_name : string;
  project_privateKey : option string
}.

(** A row of the project-user query; [email] comes from a LEFT JOIN and
    can be NULL. *)
Record ProjectUser := mkProjectUser { email : option string }.

Record Group := mkGroup {
  group_id : string;
  group_name : string;
  group_attributes : Attributes
}.

Record User := mkUser {
  user_id : string;
  user_username : string;
  user_email : string;
  user_comment : string
}.

Record UserInput := mkUserInput {
  ui_email : string;
  ui_username : string;
  ui_comment : string
}.

Record KeyPair := mkKeyPair { private : string; public : string }.

Record SshKeyInput := mkSshKeyInput {
  sk_name : string;
  keyValue : option string;
  keyType : option string;
  keyFingerprint : string
}.

(** A row of the fingerprint query. *)
Record UserIdRow := mkUserIdRow { usid : string }.

Record AuthConfig := mkAuthConfig {
  auth_username : string;
  auth_password : string;
  grantType : string;
  clientId : string
}.

(** Thrown values.  The script only ever tests [instanceof
    GroupNotFoundError] and reads [message]. *)
Inductive ErrorClass := GroupNotFoundError | TypeError | OtherError.

Record JsError := mkError { err_class : ErrorClass; message : string }.

Definition instanceof_GroupNotFoundError (err : JsError) : bool :=
  match err_class err with GroupNotFoundError => true | _ => false end.

Inductive Result (A : Type) :=
| Ok (a : A)
| Throw (e : JsError).
Arguments Ok {A} a.
Arguments Throw {A} e.

Definition map_result {A B} (f : A → B) (r : Result A) : Result B :=
  match r with
  | Ok a => Ok (f a)
  | Throw e => Throw e
  end.

Inductive Level := Debug | Info | Error.

(** What the script does to the outside: one constructor per call site. *)
Inductive Event :=
| Log (lvl : Level) (msg : string)
| KcSetConfig (realm : string)
| KcAuth (cfg : AuthConfig)
| SqlBackfillKeys
| SqlSelectProjects
| LoadGroupByName (gname : string)
| UpdateGroup (g : Group)
| AddGroup (gname : string) (attrs : Attributes)
| SqlProjectUsers (pid : Z)
| LoadUserByUsername (uname : option string)
| AddUserToGroup (u : option User) (g : option Group) (role : string)
| GeneratePrivateKey (alg : string) (extra : option string)
| SqlUpdateProjectKey (pkey : string) (pid : Z)
| SqlSelectUserIdsBySshKeyFingerprint (fp : string)
| AddUser (input : UserInput)
| SqlInsertSshKey (input : SshKeyInput)
| SqlAddSshKeyToUser (sshKeyId : Z) (userId : string)
| LoadUserById (uid : string)
| SqlDestroy.

#[global] Instance Level_eq_dec : EqDecision Level.
Proof. solve_decision. Defined.
#[global] Instance Group_eq_dec : EqDecision Group.
Proof. solve_decision. Defined.
#[global] Instance User_eq_dec : EqDecision User.
Proof. solve_decision. Defined.
#[global] Instance UserInput_eq_dec : EqDecision UserInput.
Proof. solve_decision. Defined.
#[global] Instance SshKeyInput_eq_dec : EqDecision SshKeyInput.
Proof. solve_decision. Defined.
#[global] Instance AuthConfig_eq_dec : EqDecision AuthConfig.
Proof. solve_decision. Defined.
#[global] Instance Event_eq_dec : EqDecision Event.
Proof. solve_decision. Defined.

(** ** The monad of the script *)

Record Run (W A : Type) := mkRun {
  events : list Event;
  world : W;
  result : Result A
}.
Arguments mkRun {W A} events world result.
Arguments events {W A} r.
Arguments world {W A} r.
Arguments result {W A} r.

Definition M (W A : Type) : Type := W → Run W A.

(** A collaborator's operation: a result and the world it leaves. *)
Definition Op (W A : Type) : Type := W → Result A * W.

Section Monad.
Context {W : Type}.

Definition ret {A} (a : A) : M W A := λ w, mkRun [] w (Ok a).

Definition throw {A} (e : JsError) : M W A := λ w, mkRun [] w (Throw e).

Definition bind {A B} (m : M W A) (k : A → M W B) : M W B :=
  λ w,
    let r := m w in
    match result r with
    | Ok a =>
        let r' := k a (world r) in
        mkRun (events r ++ events r') (world r') (result r')
    | Throw e => mkRun (events r) (world r) (Throw e)
    end.

(** [try { m } catch (err) { h err }] *)
Definition try_catch {A} (m : M W A) (h : JsError → M W A) : M W A :=
  λ w,
    let r := m w in
    match result r with
    | Ok a => r
    | Throw e =>
        let r' := h e (world r) in
        mkRun (events r ++ events r') (world r') (result r')
    end.

(** A collaborator call: the call is recorded, then performed. *)
Definition call {A} (ev : Event) (op : Op W A) : M W A :=
  λ w, let '(r, w') := op w in mkRun [ev] w' r.

Definition log (lvl : Level) (msg : string) : M W unit :=
  λ w, mkRun [Log lvl msg] w (Ok tt).

(** [for (const x of xs) { body x }]: an error leaving the body leaves
    the loop. *)
Fixpoint for_of {A} (xs : list A) (body : A → M W unit) : M W unit :=
  match xs with
  | [] => ret tt
  | x :: rest => bind (body x) (λ _, for_of rest body)
  end.
End Monad.

#[global] Instance M_ret {W} : MRet (M W) := λ A, @ret W A.
#[global] Instance M_bind {W} : MBind (M W) := λ A B k m, @bind W A B m k.

(** ** Ramda and string helpers used by the script *)

(** [R.cond]: the transformer of the first pair whose predicate holds;
    [undefined] when none does. *)
Fixpoint R_cond {A B} (pairs : list ((A → bool) * (A → B))) (x : A)
  : option B :=
  match pairs with
  | [] => None
  | (p, f) :: rest => if p x then Some (f x) else R_cond rest x
  end.

Definition R_isNil {A} (x : option A) : bool :=
  match x with None => true | Some _ => false end.

(** [R.isEmpty] on a nullable string: only the empty string is empty
    ([null] and [undefined] are not). *)
Definition R_isEmpty (x : option string) : bool :=
  match x with Some "" => true | _ => false end.

Definition R_T {A} (_ : A) : bool := true.

(** [R.partial(f, [a])]: the remaining argument is appended. *)
Definition R_partial {A B C} (f : A → B → C) (a : A) : B → C := f a.

(** JavaScript truthiness of a nullable string. *)
Definition truthy (x : option string) : bool :=
  match x with
  | None => false
  | Some "" => false
  | Some _ => true
  end.

(** [R.replace(/c/g, by, s)] for a one-character pattern. *)
Fixpoint R_replace_all (c : ascii) (by_ : string) (s : string) : string :=
  match s with
  | EmptyString => EmptyString
  | String a rest =>
      if Ascii.eqb a c then by_ +:+ R_replace_all c by_ rest
      else String a (R_replace_all c by_ rest)
  end.

Definition LF : ascii := "010"%char.
Definition CR : ascii := "013"%char.

(** [s.split(sep)] for a one-character separator. *)
Fixpoint split_go (sep : ascii) (cur : string) (s : string) : list string :=
  match s with
  | EmptyString => [String.rev cur]
  | String a rest =>
      if Ascii.eqb a sep then String.rev cur :: split_go sep EmptyString rest
      else split_go sep (String a cur) rest
  end.

Definition split (sep : ascii) (s : string) : list string :=
  split_go sep EmptyString s.

(** Whether the character [c] occurs in [s]. *)
Fixpoint occurs (c : ascii) (s : string) : bool :=
  match s with
  | EmptyString => false
  | String a rest => if Ascii.eqb a c then true else occurs c rest
  end.

(** How a template literal prints a nullable string. *)
Definition show_nullable (x : option string) : string :=
  match x with Some s => s | None => "null" end.

(** ** The collaborators *)

(** The [sshpk] key objects and the fingerprint helper.  Parsing throws on
    text that is not a key; the other functions are total. *)
Class KeyLib := {
  PrivateKey : Type;
  PublicKey : Type;
  parsePrivateKey : option string → Result PrivateKey;
  toPublic : PrivateKey → PublicKey;
  privateToString : PrivateKey → string → string;
  publicToString : PublicKey → string;
  getSshKeyFingerprint : string → string
}.

(** The relational store, the Keycloak client and models, the key
    generator and the process environment, over a world [W]. *)
Class Services (W : Type) `{KeyLib} := {
  process_env : string → option string;
  kc_setConfig : string → Op W unit;
  kc_auth : AuthConfig → Op W unit;
  sql_backfillKeys : Op W unit;
  sql_selectProjects : Op W (list Project);
  loadGroupByName : string → Op W Group;
  updateGroup : Group → Op W Group;
  addGroup : string → Attributes → Op W Group;
  sql_projectUsers : Z → Op W (list ProjectUser);
  loadUserByUsername : option string → Op W User;
  addUserToGroup : option User → option Group → string → Op W unit;
  generatePrivateKey : string → option string → Op W PrivateKey;
  sql_updateProjectKey : string → Z → Op W unit;
  sql_selectUserIdsBySshKeyFingerprint : string → Op W (list UserIdRow);
  addUser : UserInput → Op W User;
  sql_insertSshKey : SshKeyInput → Op W Z;
  sql_addSshKeyToUser : Z → string → Op W unit;
  loadUserById : string → Op W User;
  sql_destroy : Op W unit
}.

(** What a block hands to the rest of the loop body: a value, or
    [continue]. *)
Inductive Flow (A : Type) :=
| Next (a : A)
| Continue.
Arguments Next {A} a.
Arguments Continue {A}.

(** ** The script *)

Section Script.
Context {W : Type} `{Services W}.

Definition generatePrivateKeyEd25519 (x : option string) : M W PrivateKey :=
  call (GeneratePrivateKey "ed25519" x)
       (R_partial generatePrivateKey "ed25519" x).

Definition keycloakAuth : AuthConfig :=
  {| auth_username := "admin";
     auth_password :=
       default "<password not set>" (process_env "KEYCLOAK_ADMIN_PASSWORD");
     grantType := "password";
     clientId := "admin-cli" |}.

(** [{ ...existing, type: [...], 'lagoon-projects': [project.id] }] *)
Definition projectGroupAttributes (project : Project) (existing : Attributes)
  : Attributes :=
  <["lagoon-projects" := [ANum (project_id project)]]>
    (<["type" := [AStr "project-default-group"]]> existing).

(** Lines 58-91: add or update the group.  [Next None] is the case where
    [keycloakGroup] was never assigned. *)
Definition upsertGroup (project : Project) (projectGroupName : string)
  : M W (Flow (option Group)) :=
  try_catch
    (existingGroup ← call (LoadGroupByName projectGroupName)
                          (loadGroupByName projectGroupName);
     let input :=
       {| group_id := group_id existingGroup;
          group_name := group_name existingGroup;
          group_attributes :=
            projectGroupAttributes project (group_attributes existingGroup) |} in
     keycloakGroup ← call (UpdateGroup input) (updateGroup input);
     mret (Next (Some keycloakGroup)))
    (λ err,
       if instanceof_GroupNotFoundError err then
         try_catch
           (let attrs := projectGroupAttributes project ∅ in
            keycloakGroup ← call (AddGroup projectGroupName attrs)
                                 (addGroup projectGroupName attrs);
            mret (Next (Some keycloakGroup)))
           (λ err,
              log Error ("Could not add group " +:+ projectGroupName +:+ ": "
                         +:+ message err);;
              mret Continue)
       else
         log Error ("Could not update group " +:+ projectGroupName +:+ ": "
                    +:+ message err);;
         mret (Next None)).

(** [keycloakGroup.name] *)
Definition prop_name (keycloakGroup : option Group) : M W string :=
  match keycloakGroup with
  | Some g => mret (group_name g)
  | None => throw (mkError TypeError "Cannot read property 'name' of undefined")
  end.

(** Lines 105-116: one pass of the project-user loop. *)
Definition addProjectUser (keycloakGroup : option Group)
    (projectUser : ProjectUser) : M W unit :=
  try_catch
    (user ← call (LoadUserByUsername (email projectUser))
                 (loadUserByUsername (email projectUser));
     call (AddUserToGroup (Some user) keycloakGroup "owner")
          (addUserToGroup (Some user) keycloakGroup "owner"))
    (λ err,
       gname ← prop_name keycloakGroup;
       log Error ("Could not add user (" +:+ show_nullable (email projectUser)
                  +:+ ") to group (" +:+ gname +:+ "): " +:+ message err)).

(** Lines 93-116. *)
Definition addProjectUsers (project : Project) (keycloakGroup : option Group)
  : M W unit :=
  projectUserRecords ← call (SqlProjectUsers (project_id project))
                            (sql_projectUsers (project_id project));
  for_of projectUserRecords (addProjectUser keycloakGroup).

Definition lift_result {A} (r : Result A) : M W A := λ w, mkRun [] w r.

(** Lines 120-124: the private key, generated or parsed. *)
Definition resolvePrivateKey (project : Project) : M W PrivateKey :=
  match R_cond [ (R_isNil, generatePrivateKeyEd25519);
                 (R_isEmpty, generatePrivateKeyEd25519);
                 (R_T, λ x, lift_result (parsePrivateKey x)) ]
               (project_privateKey project) with
  | Some m => m
  | None => throw (mkError TypeError
                     "Cannot read property 'toPublic' of undefined")
  end.

(** Lines 126-132: the pair of texts of a private key. *)
Definition keyPairOf (privateKey : PrivateKey) : KeyPair :=
  let publicKey := toPublic privateKey in
  {| private :=
       R_replace_all LF (String LF "") (privateToString privateKey "openssh");
     public := publicToString publicKey |}.

(** Lines 120-132: the body of the [try]. *)
Definition resolveKeyPair (project : Project) : M W KeyPair :=
  privateKey ← resolvePrivateKey project;
  mret (keyPairOf privateKey).

(** Lines 118-145. *)
Definition keyPairStep (project : Project) : M W (Flow KeyPair) :=
  try_catch
    (keyPair ← resolveKeyPair project; mret (Next keyPair))
    (λ err,
       log Error ("There was an error with the project ("
                  +:+ project_name project +:+ ") privateKey: "
                  +:+ message err);;
       log Error ("Skipping adding default user with associated project "
                  +:+ "public key for project " +:+ project_name project);;
       mret Continue).

(** Lines 147-160: save the newly generated key. *)
Definition saveGeneratedKey (project : Project) (keyPair : KeyPair)
  : M W unit :=
  if negb (truthy (project_privateKey project)) then
    call (SqlUpdateProjectKey (private keyPair) (project_id project))
         (sql_updateProjectKey (private keyPair) (project_id project))
  else mret tt.

(** [R.path([0, 'usid'], userRows)] *)
Definition first_usid (userRows : list UserIdRow) : option string :=
  usid <$> userRows !! 0%nat.

Definition defaultUserInput (project : Project) : UserInput :=
  {| ui_email := "default-user@" +:+ project_name project;
     ui_username := "default-user@" +:+ project_name project;
     ui_comment := "autogenerated user for project " +:+ project_name project |}.

Definition sshKeyInput (keyPair : KeyPair) : SshKeyInput :=
  let keyParts := split " "%char (public keyPair) in
  {| sk_name := "auto-add via migration";
     keyValue := keyParts !! 1%nat;
     keyType := keyParts !! 0%nat;
     keyFingerprint := getSshKeyFingerprint (public keyPair) |}.

(** Lines 171-202.  [user] is assigned as soon as [addUser] returns, so
    an error raised afterwards leaves it assigned. *)
Definition createDefaultUser (project : Project) (keyPair : KeyPair)
  : M W (option User) :=
  let handler (user : option User) (err : JsError) : M W (option User) :=
    log Error ("Could not create default project user for "
               +:+ project_name project +:+ ": " +:+ message err);;
    mret user in
  try_catch
    (user ← call (AddUser (defaultUserInput project))
                 (addUser (defaultUserInput project));
     try_catch
       (insertId ← call (SqlInsertSshKey (sshKeyInput keyPair))
                        (sql_insertSshKey (sshKeyInput keyPair));
        call (SqlAddSshKeyToUser insertId (user_id user))
             (sql_addSshKeyToUser insertId (user_id user));;
        mret (Some user))
       (handler (Some user)))
    (handler None).

(** Lines 162-206: find or create a user that has the public key linked. *)
Definition findOrCreateUser (project : Project) (keyPair : KeyPair)
  : M W (option User) :=
  let fp := getSshKeyFingerprint (public keyPair) in
  userRows ← call (SqlSelectUserIdsBySshKeyFingerprint fp)
                  (sql_selectUserIdsBySshKeyFingerprint fp);
  let userId := first_usid userRows in
  if negb (truthy userId) then createDefaultUser project keyPair
  else
    user ← call (LoadUserById (default "" userId))
                (loadUserById (default "" userId));
    mret (Some user).

(** Lines 208-217. *)
Definition addGuest (project : Project) (user : option User)
    (keycloakGroup : option Group) : M W unit :=
  try_catch
    (call (AddUserToGroup user keycloakGroup "guest")
          (addUserToGroup user keycloakGroup "guest"))
    (λ err,
       log Error ("Could not link user to default projet group for "
                  +:+ project_name project +:+ ": " +:+ message err)).

(** Lines 162-217: the default user and its guest membership. *)
Definition identitySteps (project : Project) (keyPair : KeyPair)
    (keycloakGroup : option Group) : M W unit :=
  user ← findOrCreateUser project keyPair;
  addGuest project user keycloakGroup.

(** Lines 118-217: what follows the project-user loop. *)
Definition keyAndIdentitySteps (project : Project)
    (keycloakGroup : option Group) : M W unit :=
  flow ← keyPairStep project;
  match flow with
  | Continue => mret tt
  | Next keyPair =>
      saveGeneratedKey project keyPair;;
      identitySteps project keyPair keycloakGroup
  end.

(** Lines 54-116: the group and its project users. *)
Definition groupAndUsersSteps (project : Project)
  : M W (Flow (option Group)) :=
  log Debug ("Processing " +:+ project_name project);;
  let projectGroupName := "project-" +:+ project_name project in
  flow ← upsertGroup project projectGroupName;
  match flow with
  | Continue => mret Continue
  | Next keycloakGroup =>
      addProjectUsers project keycloakGroup;;
      mret (Next keycloakGroup)
  end.

(** Lines 54-217: the body of the loop over the project records. *)
Definition processProject (project : Project) : M W unit :=
  flow ← groupAndUsersSteps project;
  match flow with
  | Continue => mret tt
  | Next keycloakGroup => keyAndIdentitySteps project keycloakGroup
  end.

(** Lines 32-223. *)
Definition migration : M W unit :=
  call (KcSetConfig "master") (kc_setConfig "master");;
  call (KcAuth keycloakAuth) (kc_auth keycloakAuth);;
  call (KcSetConfig "lagoon") (kc_setConfig "lagoon");;
  call SqlBackfillKeys sql_backfillKeys;;
  projectRecords ← call SqlSelectProjects sql_selectProjects;
  for_of projectRecords processProject;;
  log Info "Migration completed";;
  call SqlDestroy sql_destroy.

End Script.

(** ** The collaborators as the specification describes them

    The Keycloak models, the relational store and the key generator are
    not part of the migration script.  Their behaviour is taken from the
    interface contracts of the specification. *)

Module SpecWorld.

(** Modelled from the spec: the table [project(id, name, customer,
    private_key)]. *)
Record ProjectRow := mkProjectRow {
  row_project : Project;
  row_customer : Z
}.

(** Modelled from the spec: the table [customer(id, private_key)]. *)
Record Customer := mkCustomer {
  customer_id : Z;
  customer_private_key : option string
}.

(** Modelled from the spec: the relational store and the identity
    provider.  [project_user] holds the legacy project-user rows already
    joined with the legacy user table (project id, email); [ssh_key] and
    [user_ssh_key] are the key table and its link to identities;
    [memberships] is the relation (identity id, group id, role). *)
Record World := mkWorld {
  project : list ProjectRow;
  customer : list Customer;
  project_user : list (Z * option string);
  ssh_key : list (Z * SshKeyInput);
  user_ssh_key : list (string * Z);
  groups : list Group;
  users : list User;
  memberships : gset (string * string * string);
  keygen : nat
}.

Definition set_project (f : list ProjectRow → list ProjectRow) (w : World)
  : World :=
  mkWorld (f (project w)) (customer w) (project_user w) (ssh_key w)
          (user_ssh_key w) (groups w) (users w) (memberships w) (keygen w).

Definition set_ssh_key (f : list (Z * SshKeyInput) → list (Z * SshKeyInput))
    (w : World) : World :=
  mkWorld (project w) (customer w) (project_user w) (f (ssh_key w))
          (user_ssh_key w) (groups w) (users w) (memberships w) (keygen w).

Definition set_user_ssh_key (f : list (string * Z) → list (string * Z))
    (w : World) : World :=
  mkWorld (project w) (customer w) (project_user w) (ssh_key w)
          (f (user_ssh_key w)) (groups w) (users w) (memberships w) (keygen w).

Definition set_groups (f : list Group → list Group) (w : World) : World :=
  mkWorld (project w) (customer w) (project_user w) (ssh_key w)
          (user_ssh_key w) (f (groups w)) (users w) (memberships w) (keygen w).

Definition set_users (f : list User → list User) (w : World) : World :=
  mkWorld (project w) (customer w) (project_user w) (ssh_key w)
          (user_ssh_key w) (groups w) (f (users w)) (memberships w) (keygen w).

Definition set_memberships
    (f : gset (string * string * string) → gset (string * string * string))
    (w : World) : World :=
  mkWorld (project w) (customer w) (project_user w) (ssh_key w)
          (user_ssh_key w) (groups w) (users w) (f (memberships w)) (keygen w).

Definition set_keygen (f : nat → nat) (w : World) : World :=
  mkWorld (project w) (customer w) (project_user w) (ssh_key w)
          (user_ssh_key w) (groups w) (users w) (memberships w) (f (keygen w)).

(** Modelled from the spec: provider-assigned ids are new.  The id chosen
    is longer than every id in use; group ids start with [g] and identity
    ids with [u]. *)
Definition longest (ids : list string) : string :=
  foldr (λ a b, if (String.length b <? String.length a)%nat then a else b)
        "" ids.

Definition fresh_id (prefix : ascii) (ids : list string) : string :=
  String prefix (longest ids).

(** Modelled from the spec: the key table hands out a row id that is not
    in use, neither in the table nor in the link table. *)
Definition next_key_id (w : World) : Z :=
  1 + foldr Z.max 0 (map fst (ssh_key w) ++ map snd (user_ssh_key w)).

Definition find_group_by_name (gname : string) (w : World) : option Group :=
  find (λ g, String.eqb (group_name g) gname) (groups w).

Definition find_user_by_username (uname : string) (w : World) : option User :=
  find (λ u, String.eqb (user_username u) uname) (users w).

Definition find_user_by_id (uid : string) (w : World) : option User :=
  find (λ u, String.eqb (user_id u) uid) (users w).

Definition not_found (what : string) : JsError :=
  mkError OtherError (what +:+ " not found").

Section Collaborators.
Context `{KeyLib} (key_of_seed : nat → PrivateKey).

(** Modelled from the spec: the bulk update that copies the customer's
    key into every project whose key is NULL. *)
Definition backfill_row (cs : list Customer) (r : ProjectRow) : ProjectRow :=
  match project_privateKey (row_project r) with
  | Some _ => r
  | None =>
      match find (λ c, customer_id c =? row_customer r) cs with
      | Some c =>
          mkProjectRow
            (mkProject (project_id (row_project r))
                       (project_name (row_project r))
                       (customer_private_key c))
            (row_customer r)
      | None => r
      end
  end.

Definition spec_backfillKeys : Op World unit :=
  λ w, (Ok tt, set_project (map (backfill_row (customer w))) w).

Definition spec_selectProjects : Op World (list Project) :=
  λ w, (Ok (map row_project (project w)), w).

(** Modelled from the spec: [loadByName(name) -> Group | NotFoundError]. *)
Definition spec_loadGroupByName (gname : string) : Op World Group :=
  λ w,
    match find_group_by_name gname w with
    | Some g => (Ok g, w)
    | None =>
        (Throw (mkError GroupNotFoundError ("Group not found: " +:+ gname)), w)
    end.

(** Modelled from the spec: [update(id, spec) -> Group]; the group with
    that id takes the name and attributes given and is returned. *)
Definition spec_updateGroup (input : Group) : Op World Group :=
  λ w,
    if existsb (λ g, String.eqb (group_id g) (group_id input)) (groups w) then
      (Ok input,
       set_groups
         (map (λ g, if String.eqb (group_id g) (group_id input)
                    then input else g)) w)
    else (Throw (not_found "Group"), w).

(** Modelled from the spec: [create(spec) -> Group]; one group per name. *)
Definition spec_addGroup (gname : string) (attrs : Attributes) : Op World Group :=
  λ w,
    match find_group_by_name gname w with
    | Some _ => (Throw (mkError OtherError "Group name already exists"), w)
    | None =>
        let g := mkGroup (fresh_id "g" (map group_id (groups w))) gname attrs in
        (Ok g, set_groups (λ gs, gs ++ [g]) w)
    end.

(** Modelled from the spec: the legacy project-user rows of a project. *)
Definition spec_projectUsers (pid : Z) : Op World (list ProjectUser) :=
  λ w,
    (Ok (map (λ r, mkProjectUser r.2)
             (filter (λ r, r.1 = pid) (project_user w))), w).

(** Modelled from the spec: [loadByUsername(name) -> User | NotFoundError]. *)
Definition spec_loadUserByUsername (uname : option string) : Op World User :=
  λ w,
    match uname with
    | None => (Throw (not_found "User"), w)
    | Some n =>
        match find_user_by_username n w with
        | Some u => (Ok u, w)
        | None => (Throw (not_found "User"), w)
        end
    end.

(** Modelled from the spec: [addUserToGroup(user, group, role)]; adding a
    member twice is a no-op.  An undefined user or group makes the call
    throw. *)
Definition spec_addUserToGroup (u : option User) (g : option Group)
    (role : string) : Op World unit :=
  λ w,
    match u, g with
    | Some u, Some g =>
        (Ok tt, set_memberships (λ m, {[ (user_id u, group_id g, role) ]} ∪ m) w)
    | _, _ =>
        (Throw (mkError TypeError "Cannot read property 'id' of undefined"), w)
    end.

(** Modelled from the spec: [generatePrivateKey(algorithm) -> PrivateKey];
    each call draws the next key of the generator. *)
Definition spec_generatePrivateKey (alg : string) (extra : option string)
  : Op World PrivateKey :=
  λ w, (Ok (key_of_seed (keygen w)), set_keygen S w).

(** Modelled from the spec: the update of [private_key] keyed by the
    project id. *)
Definition spec_updateProjectKey (pkey : string) (pid : Z) : Op World unit :=
  λ w,
    (Ok tt,
     set_project
       (map (λ r, if project_id (row_project r) =? pid
                  then mkProjectRow
                         (mkProject (project_id (row_project r))
                                    (project_name (row_project r))
                                    (Some pkey))
                         (row_customer r)
                  else r)) w).

Definition key_has_fingerprint (w : World) (fp : string) (skid : Z) : bool :=
  existsb (λ k, (k.1 =? skid) && String.eqb (keyFingerprint k.2) fp) (ssh_key w).

(** Modelled from the spec: [selectByFingerprint]; the identities linked
    to a key with that fingerprint, in link order. *)
Definition spec_selectUserIds (fp : string) : Op World (list UserIdRow) :=
  λ w,
    (Ok (map (λ l, mkUserIdRow l.1)
             (List.filter (λ l, key_has_fingerprint w fp l.2) (user_ssh_key w))),
     w).

(** Modelled from the spec: user [create(spec) -> User]; a username can be
    taken only once. *)
Definition spec_addUser (input : UserInput) : Op World User :=
  λ w,
    match find_user_by_username (ui_username input) w with
    | Some _ => (Throw (mkError OtherError "User exists with same username"), w)
    | None =>
        let u := mkUser (fresh_id "u" (map user_id (users w)))
                        (ui_username input) (ui_email input) (ui_comment input) in
        (Ok u, set_users (λ us, us ++ [u]) w)
    end.

(** Modelled from the spec: key table [insert], returning the row id. *)
Definition spec_insertSshKey (input : SshKeyInput) : Op World Z :=
  λ w, (Ok (next_key_id w), set_ssh_key (λ ks, ks ++ [(next_key_id w, input)]) w).

(** Modelled from the spec: key table [linkToUser]. *)
Definition spec_addSshKeyToUser (skid : Z) (uid : string) : Op World unit :=
  λ w, (Ok tt, set_user_ssh_key (λ ls, ls ++ [(uid, skid)]) w).

(** Modelled from the spec: [loadById(id) -> User]. *)
Definition spec_loadUserById (uid : string) : Op World User :=
  λ w,
    match find_user_by_id uid w with
    | Some u => (Ok u, w)
    | None => (Throw (not_found "User"), w)
    end.

Definition spec_noop : Op World unit := λ w, (Ok tt, w).

#[local] Instance spec_services : Services World := {|
  process_env := λ _, None;
  kc_setConfig := λ _, spec_noop;
  kc_auth := λ _, spec_noop;
  sql_backfillKeys := spec_backfillKeys;
  sql_selectProjects := spec_selectProjects;
  loadGroupByName := spec_loadGroupByName;
  updateGroup := spec_updateGroup;
  addGroup := spec_addGroup;
  sql_projectUsers := spec_projectUsers;
  loadUserByUsername := spec_loadUserByUsername;
  addUserToGroup := spec_addUserToGroup;
  generatePrivateKey := spec_generatePrivateKey;
  sql_updateProjectKey := spec_updateProjectKey;
  sql_selectUserIdsBySshKeyFingerprint := spec_selectUserIds;
  addUser := spec_addUser;
  sql_insertSshKey := spec_insertSshKey;
  sql_addSshKeyToUser := spec_addSshKeyToUser;
  loadUserById := spec_loadUserById;
  sql_destroy := spec_noop
|}.

End Collaborators.
End SpecWorld.

(** ** One pass of the loop over the collaborators of the specification

    The effect of the script on the world of the specification, stage by
    stage, written as functions; they are proved below to be what the
    script computes. *)

Module SpecPass.
Import SpecWorld.

Section Pass.
Context `{KeyLib} (key_of_seed : nat → PrivateKey).

Definition gname (p : Project) : string := "project-" +:+ project_name p.

Definition default_name (p : Project) : string :=
  "default-user@" +:+ project_name p.

Definition replace_group (input : Group) (g : Group) : Group :=
  if String.eqb (group_id g) (group_id input) then input else g.

(** Lines 58-91 *)
Definition upsert (p : Project) (w : World) : Group * World :=
  match find_group_by_name (gname p) w with
  | Some g =>
      let input := mkGroup (group_id g) (group_name g)
                           (projectGroupAttributes p (group_attributes g)) in
      (input, set_groups (map (replace_group input)) w)
  | None =>
      let new := mkGroup (fresh_id "g" (map group_id (groups w))) (gname p)
                         (projectGroupAttributes p ∅) in
      (new, set_groups (λ gs, gs ++ [new]) w)
  end.

Definition add_member (u : User) (g : Group) (role : string) (w : World)
  : World :=
  set_memberships (λ m, {[ (user_id u, group_id g, role) ]} ∪ m) w.

(** Lines 105-116, with the group assigned *)
Definition add_owner (g : Group) (w : World) (pu : ProjectUser) : World :=
  match email pu with
  | Some n =>
      match find_user_by_username n w with
      | Some u => add_member u g "owner" w
      | None => w
      end
  | None => w
  end.

Definition owners_of (p : Project) (w : World) : list ProjectUser :=
  map (λ r, mkProjectUser r.2)
      (filter (λ r, r.1 = project_id p) (project_user w)).

(** Lines 118-145 *)
Definition key_step (p : Project) (w : World) : option KeyPair * World :=
  if truthy (project_privateKey p) then
    (match parsePrivateKey (project_privateKey p) with
     | Ok k => Some (keyPairOf k)
     | Throw _ => None
     end, w)
  else (Some (keyPairOf (key_of_seed (keygen w))), set_keygen S w).

Definition write_key (pkey : string) (pid : Z) (r : ProjectRow) : ProjectRow :=
  if project_id (row_project r) =? pid
  then mkProjectRow (mkProject (project_id (row_project r))
                               (project_name (row_project r)) (Some pkey))
                    (row_customer r)
  else r.

(** Lines 147-160 *)
Definition save_key (p : Project) (kp : KeyPair) (w : World) : World :=
  if truthy (project_privateKey p) then w
  else set_project (map (write_key (private kp) (project_id p))) w.

Definition rows_for (w : World) (fp : string) : list UserIdRow :=
  map (λ l, mkUserIdRow l.1)
      (List.filter (λ l, key_has_fingerprint w fp l.2) (user_ssh_key w)).

Definition new_user (p : Project) (w : World) : User :=
  mkUser (fresh_id "u" (map user_id (users w)))
         (default_name p) (default_name p)
         ("autogenerated user for project " +:+ project_name p).

Definition link_new_user (p : Project) (kp : KeyPair) (w : World) : World :=
  set_user_ssh_key
    (λ ls, ls ++ [(user_id (new_user p w), next_key_id w)])
    (set_ssh_key (λ ks, ks ++ [(next_key_id w, sshKeyInput kp)])
                 (set_users (λ us, us ++ [new_user p w]) w)).

(** Lines 162-206 *)
Definition resolve_identity (p : Project) (kp : KeyPair) (w : World)
  : Result (option User) * World :=
  let userId := first_usid (rows_for w (getSshKeyFingerprint (public kp))) in
  if truthy userId then
    match find_user_by_id (default "" userId) w with
    | Some u => (Ok (Some u), w)
    | None => (Throw (not_found "User"), w)
    end
  else
    match find_user_by_username (default_name p) w with
    | Some _ => (Ok None, w)
    | None => (Ok (Some (new_user p w)), link_new_user p kp w)
    end.

(** Lines 208-217, with the group assigned *)
Definition add_guest (user : option User) (g : Group) (w : World) : World :=
  match user with
  | Some u => add_member u g "guest" w
  | None => w
  end.

(** Lines 118-217 over the collaborators of the specification, with the
    group assigned: the result and the world left. *)
Definition key_and_identity (p : Project) (g : Group) (w : World)
  : Result unit * World :=
  match key_step p w with
  | (None, w3) => (Ok tt, w3)
  | (Some kp, w3) =>
      match resolve_identity p kp (save_key p kp w3) with
      | (Throw e, w5) => (Throw e, w5)
      | (Ok user, w5) => (Ok tt, add_guest user g w5)
      end
  end.

(** One pass of the loop body over the collaborators of the
    specification: its result and the world it leaves. *)
Definition step (p : Project) (w : World) : Result unit * World :=
  let '(g, w1) := upsert p w in
  key_and_identity p g (foldl (add_owner g) w1 (owners_of p w1)).

(** The loop over the project records. *)
Fixpoint run_loop (ps : list Project) (w : World) : Result unit * World :=
  match ps with
  | [] => (Ok tt, w)
  | p :: rest =>
      match step p w with
      | (Ok _, w') => run_loop rest w'
      | (Throw e, w') => (Throw e, w')
      end
  end.

(** The project record as the next run reads it: the generated key, if
    one was generated, has been written back. *)
Definition persisted (p : Project) (w : World) : Project :=
  if truthy (project_privateKey p) then p
  else mkProject (project_id p) (project_name p)
                 (Some (private (keyPairOf (key_of_seed (keygen w))))).

(** The bulk copy of customer keys, as a function on worlds. *)
Definition backfill (w : World) : World :=
  set_project (map (backfill_row (customer w))) w.

End Pass.
End SpecPass.

(** ** What the first run establishes *)

Module SpecInv.
Import SpecWorld SpecPass.

Section Inv.
Context `{KeyLib}.

(** The data model of the identity provider and of the key index: group
    ids are distinct, and no key is linked to an empty identity id. *)
Definition wf (w : World) : Prop :=
  NoDup (map group_id (groups w))
  ∧ Forall (λ l, l.1 ≠ "") (user_ssh_key w).

(** How the key step of a project ends on a second pass. *)
Inductive KeyState :=
| Unparseable
| Bound
| Dangling.

Definition owner_ok (g : Group) (w : World) (pu : ProjectUser) : Prop :=
  match email pu with
  | Some n =>
      match find_user_by_username n w with
      | Some u => (user_id u, group_id g, "owner") ∈ memberships w
      | None => True
      end
  | None => True
  end.

Definition key_ok (st : KeyState) (p : Project) (g : Group) (w : World)
  : Prop :=
  match st with
  | Unparseable => ∃ e, parsePrivateKey (project_privateKey p) = Throw e
  | Bound =>
      ∃ k uid u,
        parsePrivateKey (project_privateKey p) = Ok k
        ∧ first_usid (rows_for w (getSshKeyFingerprint
                                    (publicToString (toPublic k)))) = Some uid
        ∧ uid ≠ ""
        ∧ find_user_by_id uid w = Some u
        ∧ (user_id u, group_id g, "guest") ∈ memberships w
  | Dangling =>
      ∃ k uid,
        parsePrivateKey (project_privateKey p) = Ok k
        ∧ first_usid (rows_for w (getSshKeyFingerprint
                                    (publicToString (toPublic k)))) = Some uid
        ∧ uid ≠ ""
        ∧ find_user_by_id uid w = None
  end.

(** A project that a pass of the loop body leaves as it finds it. *)
Definition settled_as (st : KeyState) (p : Project) (w : World) : Prop :=
  ∃ g,
    find_group_by_name (gname p) w = Some g
    ∧ projectGroupAttributes p (group_attributes g) = group_attributes g
    ∧ Forall (owner_ok g w) (owners_of p w)
    ∧ truthy (project_privateKey p) = true
    ∧ key_ok st p g w.

Definition outcome (st : KeyState) : Result unit :=
  match st with
  | Dangling => Throw (not_found "User")
  | _ => Ok tt
  end.

(** A project that a second pass of the loop leaves alone and does not
    stop at. *)
Definition quiet (w : World) (p : Project) : Prop :=
  ∃ st, st ≠ Dangling ∧ settled_as st p w.

(** What the later stages of a pass for project [q] may change: members
    are added, default users of [q] are added, the key index grows. *)
Definition extends (q : Project) (w w' : World) : Prop :=
  project_user w' = project_user w
  ∧ customer w' = customer w
  ∧ memberships w ⊆ memberships w'
  ∧ (∃ us, users w' = users w ++ us
           ∧ Forall (λ u, user_username u = default_name q) us)
  ∧ (∀ fp, ∃ extra, rows_for w' fp = rows_for w fp ++ extra).

Definition grows (q : Project) (w w' : World) : Prop :=
  groups w' = groups w ∧ extends q w w'.

Definition changes (q : Project) (w w' : World) : Prop :=
  (∀ n, n ≠ gname q → find_group_by_name n w' = find_group_by_name n w)
  ∧ extends q w w'.

(** A world reached from [w] by steps of the script: identities and key
    links are only ever added, after the existing ones. *)
Definition later (w w' : World) : Prop :=
  (∃ us, users w' = users w ++ us)
  ∧ (∀ fp, ∃ extra, rows_for w' fp = rows_for w fp ++ extra).

(** No identity of the provider carries the default name of one of the
    projects. *)
Definition names_fresh (names : list string) (w : World) : Prop :=
  Forall (λ n, find_user_by_username ("default-user@" +:+ n) w = None) names.

(** No legacy project user has the default name of one of the projects
    as email. *)
Definition emails_clear (names : list string) (w : World) : Prop :=
  ∀ r n, r ∈ project_user w → n ∈ names →
         r.2 ≠ Some ("default-user@" +:+ n).

(** Every project whose key is NULL has no customer key to copy. *)
Definition backfilled (w : World) : Prop :=
  Forall (λ r, backfill_row (customer w) r = r) (project w).

(** The data model of the relational store and of the identity
    provider: project ids and names are distinct, group ids are distinct,
    no key is linked to an empty identity id. *)
Definition data_model (w : World) : Prop :=
  wf w
  ∧ NoDup (map project_id (map row_project (project w)))
  ∧ NoDup (map project_name (map row_project (project w))).

(** The names [default-user@<project.name>] are not in use. *)
Definition default_names_unused (w : World) : Prop :=
  names_fresh (map project_name (map row_project (project w))) w
  ∧ emails_clear (map project_name (map row_project (project w))) w.

End Inv.
End SpecInv.

(** ** Collaborators that fail on chosen calls

    Any collaborator call can throw (the network, the database, Keycloak).
    A plan names the calls that do; every other call is forwarded. *)

Module Faults.

Definition Plan : Type := Event → option JsError.

Section Faults.
Context {W : Type} `{Services W}.

Definition inject {A} (ev : Event) (op : Op W A) : Op (W * Plan) A :=
  λ s,
    match s.2 ev with
    | Some e => (Throw e, s)
    | None => let '(r, w') := op s.1 in (r, (w', s.2))
    end.

#[local] Instance faulty_services : Services (W * Plan) := {|
  process_env := process_env;
  kc_setConfig := λ r, inject (KcSetConfig r) (kc_setConfig r);
  kc_auth := λ c, inject (KcAuth c) (kc_auth c);
  sql_backfillKeys := inject SqlBackfillKeys sql_backfillKeys;
  sql_selectProjects := inject SqlSelectProjects sql_selectProjects;
  loadGroupByName := λ n, inject (LoadGroupByName n) (loadGroupByName n);
  updateGroup := λ g, inject (UpdateGroup g) (updateGroup g);
  addGroup := λ n a, inject (AddGroup n a) (addGroup n a);
  sql_projectUsers := λ p, inject (SqlProjectUsers p) (sql_projectUsers p);
  loadUserByUsername :=
    λ n, inject (LoadUserByUsername n) (loadUserByUsername n);
  addUserToGroup :=
    λ u g r, inject (AddUserToGroup u g r) (addUserToGroup u g r);
  generatePrivateKey :=
    λ a x, inject (GeneratePrivateKey a x) (generatePrivateKey a x);
  sql_updateProjectKey :=
    λ k p, inject (SqlUpdateProjectKey k p) (sql_updateProjectKey k p);
  sql_selectUserIdsBySshKeyFingerprint :=
    λ fp, inject (SqlSelectUserIdsBySshKeyFingerprint fp)
                 (sql_selectUserIdsBySshKeyFingerprint fp);
  addUser := λ i, inject (AddUser i) (addUser i);
  sql_insertSshKey := λ i, inject (SqlInsertSshKey i) (sql_insertSshKey i);
  sql_addSshKeyToUser :=
    λ k u, inject (SqlAddSshKeyToUser k u) (sql_addSshKeyToUser k u);
  loadUserById := λ u, inject (LoadUserById u) (loadUserById u);
  sql_destroy := inject SqlDestroy sql_destroy
|}.

End Faults.
End Faults.

(** ** Keys shared by projects *)

Module SpecKeys.
Import SpecWorld SpecPass.

Section Keys.
Context `{KeyLib}.

(** Modelled from the spec: the fingerprint index yields the identity
    [u]: the first identity linked to a key with the fingerprint is [u],
    and the provider knows it. *)
Definition bound_to (w : World) (fp : string) (u : User) : Prop :=
  ∃ uid, first_usid (rows_for w fp) = Some uid
         ∧ uid ≠ ""
         ∧ find_user_by_id uid w = Some u.

(** A later world, reached under the same plan of failing calls. *)
Definition later_under (s s' : World * Faults.Plan) : Prop :=
  SpecInv.later s.1 s'.1 ∧ s'.2 = s.2.

End Keys.
End SpecKeys.

(** ** A small key library for concrete runs

    A private key is a payload; its text is the payload behind a marker,
    and a text parses when it carries the marker. *)

Module ToyKeys.

Fixpoint strip_prefix (p s : string) : option string :=
  match p, s with
  | EmptyString, _ => Some s
  | String a p', String b s' =>
      if Ascii.eqb a b then strip_prefix p' s' else None
  | String _ _, EmptyString => None
  end.

Definition marker : string := "KEY:".

Definition parse (x : option string) : Result string :=
  match x with
  | Some s =>
      match strip_prefix marker s with
      | Some k => Ok k
      | None => Throw (mkError OtherError "Failed to parse the key")
      end
  | None => Throw (mkError TypeError "data must be a string")
  end.

#[local] Instance toy_keys : KeyLib := {|
  PrivateKey := string;
  PublicKey := string;
  parsePrivateKey := parse;
  toPublic := λ k, k;
  privateToString := λ k _, marker +:+ k;
  publicToString := λ k, "ssh-ed25519 " +:+ k;
  getSshKeyFingerprint := λ s, "SHA256:" +:+ s
|}.

Fixpoint unary (n : nat) : string :=
  match n with
  | O => EmptyString
  | S k => String "I" (unary k)
  end.

Definition key_of_seed (n : nat) : string := "generated" +:+ unary n.

End ToyKeys.

(** ** Events of interest *)

(** The calls of the loop body that no [try] encloses. *)
Definition unguarded (ev : Event) : bool :=
  match ev with
  | SqlProjectUsers _ | SqlUpdateProjectKey _ _
  | SqlSelectUserIdsBySshKeyFingerprint _ | LoadUserById _ => true
  | _ => false
  end.

(** The calls of the project-user loop. *)
Definition owner_call (ev : Event) : bool :=
  match ev with
  | LoadUserByUsername _ | AddUserToGroup _ _ "owner" => true
  | _ => false
  end.

Definition is_key_write (ev : Event) : bool :=
  match ev with SqlUpdateProjectKey _ _ => true | _ => false end.

(** The calls that follow the key step: write-back, identity resolution
    and creation, guest membership. *)
Definition after_key_step (ev : Event) : bool :=
  match ev with
  | SqlUpdateProjectKey _ _ | SqlSelectUserIdsBySshKeyFingerprint _
  | AddUser _ | SqlInsertSshKey _ | SqlAddSshKeyToUser _ _ | LoadUserById _
  | AddUserToGroup _ _ "guest" => true
  | _ => false
  end.

(** The log lines at debug level. *)
Definition is_debug (ev : Event) : bool :=
  match ev with Log Debug _ => true | _ => false end.

(** The lookups of the project-user loop. *)
Definition is_user_lookup (ev : Event) : bool :=
  match ev with LoadUserByUsername _ => true | _ => false end.

(** The completion line and the release of the connection (lines
    220-222). *)
Definition closes_run (ev : Event) : bool :=
  match ev with
  | Log Info "Migration completed" | SqlDestroy => true
  | _ => false
  end.

(** The calls that come before the loop (lines 33-51). *)
Definition is_startup (ev : Event) : bool :=
  match ev with
  | KcSetConfig _ | KcAuth _ | SqlBackfillKeys | SqlSelectProjects => true
  | _ => false
  end.

(** A run that throws stopped right after an event satisfying [P]. *)
Definition throws_at {W A} (P : Event → Prop) (r : Run W A) : Prop :=
  ∀ e, result r = Throw e → ∃ evs ev, events r = evs ++ [ev] ∧ P ev.

Definition never_throws {W A} (r : Run W A) : Prop :=
  ∀ e, result r ≠ Throw e.

(** Every event of a run satisfies [P]. *)
Definition emits {W A} (P : Event → Prop) (r : Run W A) : Prop :=
  Forall P (events r).

(** The log lines. *)
Definition is_log (ev : Event) : bool :=
  match ev with Log _ _ => true | _ => false end.

(** Every run of [m] leads to a world related to the one it started
    from. *)
Definition keeps {W A} (R : W → W → Prop) (m : M W A) : Prop :=
  ∀ w, R w (world (m w)).

(** Every collaborator call that the loop makes keeps [R]. *)
Definition services_keep {W} `{Services W} (R : W → W → Prop) : Prop :=
  (∀ n w, R w (loadGroupByName n w).2)
  ∧ (∀ g w, R w (updateGroup g w).2)
  ∧ (∀ n a w, R w (addGroup n a w).2)
  ∧ (∀ pid w, R w (sql_projectUsers pid w).2)
  ∧ (∀ n w, R w (loadUserByUsername n w).2)
  ∧ (∀ u g r w, R w (addUserToGroup u g r w).2)
  ∧ (∀ a x w, R w (generatePrivateKey a x w).2)
  ∧ (∀ k pid w, R w (sql_updateProjectKey k pid w).2)
  ∧ (∀ fp w, R w (sql_selectUserIdsBySshKeyFingerprint fp w).2)
  ∧ (∀ i w, R w (addUser i w).2)
  ∧ (∀ i w, R w (sql_insertSshKey i w).2)
  ∧ (∀ k u w, R w (sql_addSshKeyToUser k u w).2)
  ∧ (∀ u w, R w (loadUserById u w).2).

(** ** The lines the script logs when it catches an error *)

Definition keyErrorLines (project : Project) (err : JsError) : list Event :=
  [ Log Error ("There was an error with the project ("
               +:+ project_name project +:+ ") privateKey: " +:+ message err);
    Log Error ("Skipping adding default user with associated project "
               +:+ "public key for project " +:+ project_name project) ].

Definition createErrorLine (project : Project) (err : JsError) : Event :=
  Log Error ("Could not create default project user for "
             +:+ project_name project +:+ ": " +:+ message err).

Definition guestErrorLine (project : Project) (err : JsError) : Event :=
  Log Error ("Could not link user to default projet group for "
             +:+ project_name project +:+ ": " +:+ message err).

Definition ownerErrorLine (projectUser : ProjectUser) (grp : Group)
    (err : JsError) : Event :=
  Log Error ("Could not add user (" +:+ show_nullable (email projectUser)
             +:+ ") to group (" +:+ group_name grp +:+ "): " +:+ message err).

Definition unassignedGroupError : JsError :=
  mkError TypeError "Cannot read property 'name' of undefined".

(** ** Further lines and values of the script *)

(** Line 54. *)
Definition processingLine (project : Project) : Event :=
  Log Debug ("Processing " +:+ project_name project).

(** Lines 81-83. *)
Definition addGroupErrorLine (projectGroupName : string) (err : JsError)
  : Event :=
  Log Error ("Could not add group " +:+ projectGroupName +:+ ": "
             +:+ message err).

(** Lines 87-89. *)
Definition updateGroupErrorLine (projectGroupName : string) (err : JsError)
  : Event :=
  Log Error ("Could not update group " +:+ projectGroupName +:+ ": "
             +:+ message err).

(** The attributes of a group the script creates (lines 75-78). *)
Definition newGroupAttributes (project : Project) : Attributes :=
  {[ "type" := [AStr "project-default-group"];
     "lagoon-projects" := [ANum (project_id project)] ]}.

(** Lines 33-51, in the order of the script. *)
Section ScriptEvents.
Context {W : Type} `{Services W}.

Definition startupCalls : list Event :=
  [ KcSetConfig "master"; KcAuth keycloakAuth; KcSetConfig "lagoon";
    SqlBackfillKeys; SqlSelectProjects ].

End ScriptEvents.

(** What an iteration may name: the group of the project, the default
    user of the project, the id of the project. *)
Definition names_only (project : Project) (ev : Event) : Prop :=
  (∀ n, ev = LoadGroupByName n → n = "project-" +:+ project_name project)
  ∧ (∀ n a, ev = AddGroup n a →
       n = "project-" +:+ project_name project
       ∧ a = newGroupAttributes project)
  ∧ (∀ input, ev = AddUser input → input = defaultUserInput project)
  ∧ (∀ pid, ev = SqlProjectUsers pid → pid = project_id project)
  ∧ (∀ pkey pid, ev = SqlUpdateProjectKey pkey pid → pid = project_id project).

(** ** The entrypoint of the Elasticsearch image

    A shallow embedding of [images/elasticsearch/docker-entrypoint.sh.6]:
    the script runs under [set -eo pipefail], appends settings to
    [elasticsearch.yml] and reports on its standard output. *)

Module Entrypoint.

(** The two environment variables the script reads; [None] is unset. *)
Record Env := mkEnv {
  EXTRA_OPTS : option string;
  POD_NAMESPACE : option string
}.

(** What the script can change: the text of [elasticsearch.yml] and its
    standard output; [writable] tells whether the file can be appended
    to. *)
Record State := mkState {
  config : string;
  writable : bool;
  stdout : list string
}.

Inductive Exit := Success | Failure.

(** ["$VAR"]: an unset variable expands to the empty string. *)
Definition expand (v : option string) : string := default "" v.

(** [[ -z s ]] *)
Definition test_z (s : string) : bool := String.eqb s "".

(** [... >> elasticsearch.yml]: under [set -e] a failed redirection ends
    the script. *)
Definition append_config (text : string) (s : State) : option State :=
  if writable s then Some (mkState (config s +:+ text) (writable s) (stdout s))
  else None.

(** [echo line] *)
Definition echo (line : string) (s : State) : State :=
  mkState (config s) (writable s) (stdout s ++ [line]).

(** [cut -d"." -f2] on one line: a line without the delimiter is printed
    whole. *)
Definition cut_d_dot_f2 (line : string) : string :=
  match split "."%char line with
  | _ :: field :: _ => field
  | _ => line
  end.

(** Whether [p] is an initial segment of [s]. *)
Fixpoint is_prefix (p s : string) : bool :=
  match p, s with
  | EmptyString, _ => true
  | String a p', String b s' => Ascii.eqb a b && is_prefix p' s'
  | String _ _, EmptyString => false
  end.

Section Script.
(** What [echo -e] writes for its argument, escapes expanded. *)
Variable echo_e : string → string.

(** The script, for the result of [hostname -f]: the one line it prints,
    or [None] when the command fails, which [set -o pipefail] turns into
    the failure of the pipeline. *)
Definition entrypoint (env : Env) (hostname_f : option string) (s : State)
  : Exit * State :=
  let extra :=
    if negb (test_z (expand (EXTRA_OPTS env)))
    then append_config (echo_e (expand (EXTRA_OPTS env))) s
    else Some s in
  match extra with
  | None => (Failure, s)
  | Some s1 =>
      if test_z (expand (POD_NAMESPACE env)) then
        (Success, echo "POD_NAMESPACE not set, spin up single node" s1)
      else
        let s2 :=
          echo "Elasticsearch: Running in Kubernetes, setting up for clustering"
               s1 in
        match hostname_f with
        | None => (Failure, s2)
        | Some fqdn =>
            let K8S_SVC_NAME := cut_d_dot_f2 fqdn in
            let s3 := echo ("Using service name: " +:+ K8S_SVC_NAME) s2 in
            match append_config ("discovery.zen.ping.unicast.hosts: "
                                 +:+ K8S_SVC_NAME +:+ String LF "") s3 with
            | None => (Failure, s3)
            | Some s4 => (Success, s4)
            end
        end
  end.

End Script.
End Entrypoint.

(** ** Concrete worlds *)

Module Examples.
Import SpecWorld.

#[local] Existing Instance ToyKeys.toy_keys.

Definition services : Services World := spec_services ToyKeys.key_of_seed.

Definition faulty : Services (World * Faults.Plan) :=
  Faults.faulty_services (H0 := services).

Definition alice : User :=
  mkUser "u-alice" "alice@example.com" "alice@example.com" "".

Definition acme : Project := mkProject 7 "acme" None.
Definition beta : Project := mkProject 8 "beta" None.

Definition empty_world : World :=
  {| project := []; customer := []; project_user := [];
     ssh_key := []; user_ssh_key := [];
     groups := []; users := []; memberships := ∅; keygen := 0 |}.

(** The end-to-end scenario of the specification: one project without a
    key, one legacy project user known to the identity provider. *)
Definition acme_world : World :=
  {| project := [mkProjectRow acme 1];
     customer := [mkCustomer 1 None];
     project_user := [(7, Some "alice@example.com")];
     ssh_key := []; user_ssh_key := [];
     groups := []; users := [alice]; memberships := ∅; keygen := 0 |}.

(** Two projects, no legacy users. *)
Definition two_projects : World :=
  {| project := [mkProjectRow acme 1; mkProjectRow beta 1];
     customer := [mkCustomer 1 None];
     project_user := [];
     ssh_key := []; user_ssh_key := [];
     groups := []; users := []; memberships := ∅; keygen := 0 |}.

(** A legacy project user whose email is the default name of the
    project, and who is not known to the identity provider. *)
Definition namesake_world : World :=
  {| project := [mkProjectRow acme 1];
     customer := [];
     project_user := [(7, Some "default-user@acme")];
     ssh_key := []; user_ssh_key := [];
     groups := []; users := []; memberships := ∅; keygen := 0 |}.

(** Two projects that hold the same key text, and an identity that
    already carries the default name of the first. *)
Definition taken_name_world : World :=
  {| project := [mkProjectRow (mkProject 7 "acme" (Some "KEY:shared")) 1;
                 mkProjectRow (mkProject 8 "beta" (Some "KEY:shared")) 1];
     customer := [];
     project_user := [];
     ssh_key := []; user_ssh_key := [];
     groups := [];
     users := [mkUser "u-old" "default-user@acme" "default-user@acme" ""];
     memberships := ∅; keygen := 0 |}.

(** The group of the project exists and carries an unrelated attribute. *)
Definition foo_group : Group :=
  mkGroup "g-1" "project-acme" {[ "foo" := [AStr "bar"] ]}.

Definition foo_world : World :=
  {| project := [mkProjectRow acme 1];
     customer := [];
     project_user := [];
     ssh_key := []; user_ssh_key := [];
     groups := [foo_group]; users := []; memberships := ∅; keygen := 0 |}.

(** A project whose stored key text is not a key. *)
Definition garbled : Project := mkProject 9 "garbled" (Some "not a key").

(** A key whose serialization uses CR LF line ends. *)
Definition crlf_text : string :=
  "KEY:line1" +:+ String CR (String LF "line2").

Definition crlf_project : Project := mkProject 10 "crlf" (Some crlf_text).

Definition deadlock : JsError := mkError OtherError "ER_LOCK_DEADLOCK".
Definition reset : JsError := mkError OtherError "ECONNRESET".

Definition write_back_fails : Faults.Plan :=
  λ ev, match ev with SqlUpdateProjectKey _ _ => Some deadlock | _ => None end.

Definition group_lookup_fails : Faults.Plan :=
  λ ev, match ev with LoadGroupByName _ => Some reset | _ => None end.

Definition key_insert_fails : Faults.Plan :=
  λ ev, match ev with SqlInsertSshKey _ => Some deadlock | _ => None end.

Definition add_user_fails : Faults.Plan :=
  λ ev, match ev with AddUser _ => Some reset | _ => None end.

Definition acme_attributes : Attributes :=
  {[ "type" := [AStr "project-default-group"];
     "lagoon-projects" := [ANum 7] ]}.

Definition acme_group : Group := mkGroup "g" "project-acme" acme_attributes.

Definition acme_default_user : User :=
  mkUser "u" "default-user@acme" "default-user@acme"
         "autogenerated user for project acme".

Definition acme_keyPair : KeyPair :=
  {| private := "KEY:generated"; public := "ssh-ed25519 generated" |}.

Definition acme_sshKey : SshKeyInput :=
  {| sk_name := "auto-add via migration";
     keyValue := Some "generated";
     keyType := Some "ssh-ed25519";
     keyFingerprint := "SHA256:ssh-ed25519 generated" |}.

Definition shared_keyPair : KeyPair :=
  {| private := "KEY:shared"; public := "ssh-ed25519 shared" |}.

Definition add_group_fails : Faults.Plan :=
  λ ev, match ev with AddGroup _ _ => Some reset | _ => None end.

Definition group_vanished : JsError :=
  mkError GroupNotFoundError "Group not found: project-acme".

Definition update_not_found : Faults.Plan :=
  λ ev, match ev with UpdateGroup _ => Some group_vanished | _ => None end.

Definition keygen_fails : Faults.Plan :=
  λ ev, match ev with GeneratePrivateKey _ _ => Some reset | _ => None end.

(** A project whose key is linked to an identity. *)
Definition bound : Project := mkProject 11 "bound" (Some "KEY:shared").

Definition bound_user : User :=
  mkUser "u-1" "default-user@bound" "default-user@bound"
         "autogenerated user for project bound".

Definition bound_world : World :=
  {| project := [mkProjectRow bound 1];
     customer := [];
     project_user := [];
     ssh_key := [(1, {| sk_name := "auto-add via migration";
                        keyValue := Some "shared";
                        keyType := Some "ssh-ed25519";
                        keyFingerprint := "SHA256:ssh-ed25519 shared" |})];
     user_ssh_key := [("u-1", 1)];
     groups := []; users := [bound_user]; memberships := ∅; keygen := 0 |}.

(** The link of the first key record to its user fails. *)
Definition link_fails : Faults.Plan :=
  λ ev, match ev with SqlAddSshKeyToUser 1 _ => Some deadlock | _ => None end.

Definition beta_default_user : User :=
  mkUser "uu" "default-user@beta" "default-user@beta"
         "autogenerated user for project beta".

(** [echo -e] on a text that has no backslash and is not one of the
    options of [echo]: the text and a line end. *)
Definition echo_plain (s : string) : string := s +:+ String LF "".

End Examples.

(** * Facts *)

(** ** The monad *)

Ltac unfold_m :=
  unfold mbind, M_bind, mret, M_ret, bind, ret, try_catch, call, log, throw,
    lift_result in *.

Section MonadFacts.
Context {W : Type}.

Lemma bind_ok {A B} (m : M W A) (k : A → M W B) w a :
  result (m w) = Ok a →
  bind m k w = mkRun (events (m w) ++ events (k a (world (m w))))
                     (world (k a (world (m w))))
                     (result (k a (world (m w)))).
Proof. intros E. unfold bind. by rewrite E. Qed.

Lemma bind_throw {A B} (m : M W A) (k : A → M W B) w e :
  result (m w) = Throw e →
  bind m k w = mkRun (events (m w)) (world (m w)) (Throw e).
Proof. intros E. unfold bind. by rewrite E. Qed.

Lemma try_catch_ok {A} (m : M W A) h w a :
  result (m w) = Ok a → try_catch m h w = m w.
Proof. intros E. unfold try_catch. by rewrite E. Qed.

Lemma try_catch_throw {A} (m : M W A) h w e :
  result (m w) = Throw e →
  try_catch m h w = mkRun (events (m w) ++ events (h e (world (m w))))
                          (world (h e (world (m w))))
                          (result (h e (world (m w)))).
Proof. intros E. unfold try_catch. by rewrite E. Qed.

Lemma for_of_cons {A} (x : A) xs (body : A → M W unit) w :
  result (body x w) = Ok tt →
  for_of (x :: xs) body w =
    mkRun (events (body x w) ++ events (for_of xs body (world (body x w))))
          (world (for_of xs body (world (body x w))))
          (result (for_of xs body (world (body x w)))).
Proof. intros E. simpl. unfold bind. by rewrite E. Qed.

Lemma for_of_cons_throw {A} (x : A) xs (body : A → M W unit) w e :
  result (body x w) = Throw e →
  for_of (x :: xs) body w = mkRun (events (body x w)) (world (body x w)) (Throw e).
Proof. intros E. simpl. unfold bind. by rewrite E. Qed.

(** Where a compound throws. *)

Lemma throws_at_ret {A} P (a : A) (w : W) : throws_at P (ret a w).
Proof. intros e E. discriminate. Qed.

Lemma throws_at_log P lvl msg (w : W) : throws_at P (log lvl msg w).
Proof. intros e E. discriminate. Qed.

Lemma throws_at_call {A} (P : Event → Prop) ev (op : Op W A) w :
  P ev → throws_at P (call ev op w).
Proof.
  intros HP e E. exists [], ev. unfold call in *.
  destruct (op w) as [r w']. simpl. done.
Qed.

Lemma throws_at_bind {A B} P (m : M W A) (k : A → M W B) w :
  throws_at P (m w) →
  (∀ a, result (m w) = Ok a → throws_at P (k a (world (m w)))) →
  throws_at P (bind m k w).
Proof.
  intros Hm Hk e E. unfold bind in *.
  destruct (result (m w)) as [a|e'] eqn:Em; simpl in *.
  - destruct (Hk a eq_refl e E) as (evs & ev & Hev & HP).
    exists (events (m w) ++ evs), ev. rewrite Hev. by rewrite app_assoc.
  - apply (Hm e'). done.
Qed.

Lemma throws_at_try_catch {A} P (m : M W A) h w :
  (∀ e, result (m w) = Throw e → throws_at P (h e (world (m w)))) →
  throws_at P (try_catch m h w).
Proof.
  intros Hh e E. unfold try_catch in *.
  destruct (result (m w)) as [a|e'] eqn:Em; simpl in *.
  - congruence.
  - destruct (Hh e' eq_refl e E) as (evs & ev & Hev & HP).
    exists (events (m w) ++ evs), ev. rewrite Hev. by rewrite app_assoc.
Qed.

Lemma throws_at_weaken {A} (P Q : Event → Prop) (r : Run W A) :
  (∀ ev, P ev → Q ev) → throws_at P r → throws_at Q r.
Proof.
  intros HPQ Hr e E. destruct (Hr e E) as (evs & ev & ? & ?). eauto.
Qed.

Lemma throws_at_never {A} P (r : Run W A) : never_throws r → throws_at P r.
Proof. intros Hr e E. by destruct (Hr e). Qed.

Lemma never_throws_at {A} (r : Run W A) : throws_at (λ _, False) r → never_throws r.
Proof. intros Hr e E. by destruct (Hr e E) as (? & ? & ? & ?). Qed.

Lemma throws_at_for_of {A} P (xs : list A) (body : A → M W unit) :
  (∀ x w, x ∈ xs → throws_at P (body x w)) →
  ∀ w, throws_at P (for_of xs body w).
Proof.
  induction xs as [|x xs IH]; intros Hb w.
  - apply throws_at_ret.
  - simpl. apply throws_at_bind.
    + apply Hb. left.
    + intros _ _. apply IH. intros y w' Hy. apply Hb. by right.
Qed.

End MonadFacts.

(** ** Helpers *)

Lemma R_replace_all_same c s : R_replace_all c (String c "") s = s.
Proof.
  induction s as [|a s IH]; simpl; [done|].
  destruct (Ascii.eqb a c) eqn:E; rewrite IH; [|done].
  apply Ascii.eqb_eq in E. by subst.
Qed.

Lemma truthy_false_iff x : truthy x = false ↔ x = None ∨ x = Some "".
Proof.
  destruct x as [[|a s]|]; simpl; split; intros; try done; auto;
    by destruct H as [|].
Qed.

(** ** The stages of the loop body *)

Section ScriptFacts.
Context {W : Type} `{Services W}.

(** *** Key material *)

Lemma resolvePrivateKey_cases project :
  resolvePrivateKey project =
    if truthy (project_privateKey project)
    then lift_result (parsePrivateKey (project_privateKey project))
    else call (GeneratePrivateKey "ed25519" (project_privateKey project))
              (generatePrivateKey "ed25519" (project_privateKey project)).
Proof.
  unfold resolvePrivateKey.
  destruct (project_privateKey project) as [[|a s]|]; reflexivity.
Qed.

Lemma resolveKeyPair_cases (project : Project) (w : W) :
  resolveKeyPair project w =
    match project_privateKey project with
    | Some (String a s) =>
        mkRun [] w (map_result keyPairOf (parsePrivateKey (Some (String a s))))
    | absent_or_empty =>
        let '(r, w') := generatePrivateKey "ed25519" absent_or_empty w in
        mkRun [GeneratePrivateKey "ed25519" absent_or_empty] w'
              (map_result keyPairOf r)
    end.
Proof.
  unfold resolveKeyPair, resolvePrivateKey.
  destruct (project_privateKey project) as [[|a s]|]; simpl; unfold_m;
    unfold generatePrivateKeyEd25519, R_partial, call.
  - destruct (generatePrivateKey _ _ w) as [[k|e] w']; reflexivity.
  - destruct (parsePrivateKey _) as [k|e]; reflexivity.
  - destruct (generatePrivateKey _ _ w) as [[k|e] w']; reflexivity.
Qed.

(** C5: an absent or empty stored key makes the script generate an
    Ed25519 key, and the pair is derived from the generated key: its
    private text is the serialization of that key (with the replacement
    of line 130 applied) and its public text is the text of the public
    counterpart of that same key.  A non-empty stored text is parsed, the
    pair is derived in the same way from the parsed key, and no key is
    generated. *)
Theorem C5_key_generated_or_parsed (project : Project) (w : W) :
  let derived (privateKey : PrivateKey) : KeyPair :=
    {| private :=
         R_replace_all LF (String LF "")
                       (privateToString privateKey "openssh");
       public := publicToString (toPublic privateKey) |} in
  resolveKeyPair project w =
    match project_privateKey project with
    | Some (String a s) =>
        mkRun [] w (map_result derived (parsePrivateKey (Some (String a s))))
    | absent_or_empty =>
        let '(r, w') := generatePrivateKey "ed25519" absent_or_empty w in
        mkRun [GeneratePrivateKey "ed25519" absent_or_empty] w'
              (map_result derived r)
    end.
Proof.
  intros derived.
  unfold resolveKeyPair, resolvePrivateKey, R_cond, R_isNil, R_isEmpty, R_T.
  destruct (project_privateKey project) as [[|a s]|]; simpl; unfold_m;
    unfold generatePrivateKeyEd25519, R_partial, call.
  - destruct (generatePrivateKey _ _ w) as [[k|e] w']; reflexivity.
  - destruct (parsePrivateKey _) as [k|e]; reflexivity.
  - destruct (generatePrivateKey _ _ w) as [[k|e] w']; reflexivity.
Qed.

(** *** The group *)

Lemma projectGroupAttributes_type project existing :
  projectGroupAttributes project existing !! "type"
  = Some [AStr "project-default-group"].
Proof. unfold projectGroupAttributes. by simplify_map_eq. Qed.

Lemma projectGroupAttributes_link project existing :
  projectGroupAttributes project existing !! "lagoon-projects"
  = Some [ANum (project_id project)].
Proof. unfold projectGroupAttributes. by simplify_map_eq. Qed.

Lemma projectGroupAttributes_other project existing k :
  k ≠ "type" → k ≠ "lagoon-projects" →
  projectGroupAttributes project existing !! k = existing !! k.
Proof. intros. unfold projectGroupAttributes. by simplify_map_eq. Qed.

Lemma projectGroupAttributes_idem project existing :
  projectGroupAttributes project (projectGroupAttributes project existing)
  = projectGroupAttributes project existing.
Proof.
  apply map_eq. intros k. unfold projectGroupAttributes.
  destruct (decide (k = "lagoon-projects")) as [->|]; [by simplify_map_eq|].
  destruct (decide (k = "type")) as [->|]; by simplify_map_eq.
Qed.

(** C7: when the group exists, the script sends one update for that
    group, with the attributes of the existing group in which [type] and
    [lagoon-projects] carry the new values and every other key keeps its
    value; the group it goes on with is the one the update returns. *)
Theorem C7_update_merges_attributes (project : Project)
    (projectGroupName : string) (w w1 : W) (existingGroup : Group) :
  loadGroupByName projectGroupName w = (Ok existingGroup, w1) →
  let merged :=
    projectGroupAttributes project (group_attributes existingGroup) in
  let input :=
    mkGroup (group_id existingGroup) (group_name existingGroup) merged in
  merged !! "type" = Some [AStr "project-default-group"]
  ∧ merged !! "lagoon-projects" = Some [ANum (project_id project)]
  ∧ (∀ k, k ≠ "type" → k ≠ "lagoon-projects" →
          merged !! k = group_attributes existingGroup !! k)
  ∧ (∃ rest, events (upsertGroup project projectGroupName w)
             = LoadGroupByName projectGroupName :: UpdateGroup input :: rest
             ∧ Forall (λ ev, ∀ g, ev ≠ UpdateGroup g) rest)
  ∧ (∀ updated w2, updateGroup input w1 = (Ok updated, w2) →
       upsertGroup project projectGroupName w
       = mkRun [LoadGroupByName projectGroupName; UpdateGroup input] w2
               (Ok (Next (Some updated)))).
Proof.
  intros Hload merged input.
  split; [apply projectGroupAttributes_type|].
  split; [apply projectGroupAttributes_link|].
  split; [apply projectGroupAttributes_other|].
  unfold upsertGroup. unfold_m. rewrite Hload. simpl.
  fold merged. fold input.
  destruct (updateGroup input w1) as [[updated|e] w2] eqn:Hup; simpl.
  - split; [exists []; by split|].
    intros ? ? [= <- <-]. reflexivity.
  - split; [|intros ? ? [=]].
    destruct (instanceof_GroupNotFoundError e); simpl.
    + destruct (addGroup _ _ w2) as [[g|e'] w3]; simpl;
        eexists; (split; [reflexivity|]); repeat constructor; done.
    + eexists; (split; [reflexivity|]); repeat constructor; done.
Qed.

End ScriptFacts.

Section EmitFacts.
Context {W : Type}.

Lemma emits_ret {A} P (a : A) (w : W) : emits P (ret a w).
Proof. constructor. Qed.

Lemma emits_throw {A} P e (w : W) : emits P (@throw W A e w).
Proof. constructor. Qed.

Lemma emits_log (P : Event → Prop) lvl msg (w : W) :
  P (Log lvl msg) → emits P (log lvl msg w).
Proof. intros. by repeat constructor. Qed.

Lemma emits_call {A} (P : Event → Prop) ev (op : Op W A) w :
  P ev → emits P (call ev op w).
Proof.
  intros. unfold emits, call. destruct (op w). simpl. by repeat constructor.
Qed.

Lemma emits_bind {A B} P (m : M W A) (k : A → M W B) w :
  emits P (m w) →
  (∀ a, result (m w) = Ok a → emits P (k a (world (m w)))) →
  emits P (bind m k w).
Proof.
  unfold emits, bind. intros Hm Hk.
  destruct (result (m w)) as [a|e]; simpl; [|done].
  apply Forall_app. split; [done|]. by apply Hk.
Qed.

Lemma emits_try_catch {A} P (m : M W A) h w :
  emits P (m w) →
  (∀ e, result (m w) = Throw e → emits P (h e (world (m w)))) →
  emits P (try_catch m h w).
Proof.
  unfold emits, try_catch. intros Hm Hh.
  destruct (result (m w)) as [a|e]; simpl; [done|].
  apply Forall_app. split; [done|]. by apply Hh.
Qed.

Lemma emits_for_of {A} P (xs : list A) (body : A → M W unit) :
  (∀ x w, emits P (body x w)) → ∀ w, emits P (for_of xs body w).
Proof.
  intros Hb. induction xs as [|x xs IH]; intros w; simpl.
  - apply emits_ret.
  - apply emits_bind; [apply Hb|]. intros _ _. apply IH.
Qed.

End EmitFacts.

Ltac emits_step :=
  match goal with
  | |- emits _ (mbind _ _ _) => apply emits_bind; [|intros ? ?]
  | |- emits _ (bind _ _ _) => apply emits_bind; [|intros ? ?]
  | |- emits _ (try_catch _ _ _) => apply emits_try_catch; [|intros ? ?]
  | |- emits _ (call _ _ _) => apply emits_call
  | |- emits _ (log _ _ _) => apply emits_log
  | |- emits _ (mret _ _) => apply emits_ret
  | |- emits _ (ret _ _) => apply emits_ret
  | |- emits _ (throw _ _) => apply emits_throw
  | |- emits _ (for_of _ _ _) => apply emits_for_of; intros ? ?
  | |- emits _ (match ?x with _ => _ end _) => destruct x
  | |- emits _ (if ?x then _ else _) => destruct x
  end.

Ltac throws_step :=
  match goal with
  | |- throws_at _ (mbind _ _ _) => apply throws_at_bind; [|intros ? ?]
  | |- throws_at _ (bind _ _ _) => apply throws_at_bind; [|intros ? ?]
  | |- throws_at _ (try_catch _ _ _) => apply throws_at_try_catch; intros ? ?
  | |- throws_at _ (call _ _ _) => apply throws_at_call
  | |- throws_at _ (log _ _ _) => apply throws_at_log
  | |- throws_at _ (mret _ _) => apply throws_at_ret
  | |- throws_at _ (ret _ _) => apply throws_at_ret
  | |- throws_at _ (match ?x with _ => _ end _) => destruct x
  | |- throws_at _ (if ?x then _ else _) => destruct x
  end.

Section StageFacts.
Context {W : Type} `{Services W}.

(** *** Which calls each stage makes *)

Lemma upsertGroup_emits project gname w :
  emits (λ ev, after_key_step ev = false ∧ unguarded ev = false)
        (upsertGroup project gname w).
Proof. unfold upsertGroup. repeat emits_step; done. Qed.

Lemma addProjectUser_emits g pu w :
  emits (λ ev, after_key_step ev = false ∧ unguarded ev = false)
        (addProjectUser g pu w).
Proof. unfold addProjectUser, prop_name. repeat emits_step; done. Qed.

Lemma groupAndUsersSteps_emits project w :
  emits (λ ev, after_key_step ev = false) (groupAndUsersSteps project w).
Proof.
  unfold groupAndUsersSteps, addProjectUsers.
  pose proof upsertGroup_emits. pose proof addProjectUser_emits.
  repeat emits_step; try done.
  - eapply Forall_impl; [apply upsertGroup_emits|]. by intros ? [].
  - eapply Forall_impl; [apply addProjectUser_emits|]. by intros ? [].
Qed.

Lemma keyPairStep_emits project w :
  emits (λ ev, after_key_step ev = false) (keyPairStep project w).
Proof.
  unfold keyPairStep, resolveKeyPair. rewrite resolvePrivateKey_cases.
  unfold lift_result.
  repeat emits_step; try done. constructor.
Qed.

Lemma identitySteps_emits project keyPair g w :
  emits (λ ev, is_key_write ev = false) (identitySteps project keyPair g w).
Proof.
  unfold identitySteps, findOrCreateUser, createDefaultUser, addGuest.
  repeat emits_step; done.
Qed.

(** *** Which stages can throw *)

Lemma upsertGroup_never_throws project gname w :
  never_throws (upsertGroup project gname w).
Proof.
  apply never_throws_at. unfold upsertGroup. repeat throws_step.
Qed.

Lemma keyPairStep_never_throws project w :
  never_throws (keyPairStep project w).
Proof.
  apply never_throws_at. unfold keyPairStep. repeat throws_step.
Qed.

Lemma createDefaultUser_never_throws project keyPair w :
  never_throws (createDefaultUser project keyPair w).
Proof.
  apply never_throws_at. unfold createDefaultUser. repeat throws_step.
Qed.

Lemma addGuest_never_throws project user g w :
  never_throws (addGuest project user g w).
Proof.
  apply never_throws_at. unfold addGuest. repeat throws_step.
Qed.

End StageFacts.

Section ClaimFacts.
Context {W : Type} `{Services W}.

Lemma keyPairStep_unparseable project text e w :
  project_privateKey project = Some text → text ≠ "" →
  parsePrivateKey (Some text) = Throw e →
  keyPairStep project w = mkRun (keyErrorLines project e) w (Ok Continue).
Proof.
  intros Hkey Hne Hparse.
  unfold keyPairStep, resolveKeyPair. rewrite resolvePrivateKey_cases, Hkey.
  destruct text as [|a s]; [done|]. simpl.
  unfold_m. rewrite Hparse. reflexivity.
Qed.

Lemma processProject_reached project w g :
  result (groupAndUsersSteps project w) = Ok (Next g) →
  processProject project w =
    let r := groupAndUsersSteps project w in
    let r' := keyAndIdentitySteps project g (world r) in
    mkRun (events r ++ events r') (world r') (result r').
Proof. intros E. unfold processProject. unfold_m. by rewrite E. Qed.

Lemma processProject_not_reached project w :
  (∀ g, result (groupAndUsersSteps project w) ≠ Ok (Next g)) →
  events (processProject project w) = events (groupAndUsersSteps project w).
Proof.
  intros E. unfold processProject. unfold_m.
  destruct (result (groupAndUsersSteps project w)) as [[g|]|e]; simpl.
  - by destruct (E g).
  - by rewrite app_nil_r.
  - done.
Qed.

(** C6: a stored key text that does not parse makes the key step log the
    failure and end the iteration there: nothing is written back, no
    identity is looked up or created, no guest membership is added, and
    the loop goes on with the next project. *)
Theorem C6_unparseable_key_skips_project (project : Project) (text : string)
    (e : JsError) :
  project_privateKey project = Some text → text ≠ "" →
  parsePrivateKey (Some text) = Throw e →
  (∀ keycloakGroup w,
     keyAndIdentitySteps project keycloakGroup w
     = mkRun (keyErrorLines project e) w (Ok tt))
  ∧ (∀ w, Forall (λ ev, after_key_step ev = false)
                 (events (processProject project w)))
  ∧ (∀ w keycloakGroup rest,
       result (groupAndUsersSteps project w) = Ok (Next keycloakGroup) →
       let r := groupAndUsersSteps project w in
       let r' := for_of rest processProject (world r) in
       for_of (project :: rest) processProject w
       = mkRun (events r ++ keyErrorLines project e ++ events r')
               (world r') (result r')).
Proof.
  intros Hkey Hne Hparse.
  assert (Hstep : ∀ g w, keyAndIdentitySteps project g w
                         = mkRun (keyErrorLines project e) w (Ok tt)).
  { intros g w. unfold keyAndIdentitySteps. unfold_m.
    fold (keyPairStep project w).
    replace (try_catch _ _ w) with (keyPairStep project w) by reflexivity.
    rewrite (keyPairStep_unparseable _ _ _ _ Hkey Hne Hparse). reflexivity. }
  split; [exact Hstep|]. split.
  - intros w.
    destruct (result (groupAndUsersSteps project w)) as [[g|]|e'] eqn:E.
    + rewrite (processProject_reached _ _ _ E). cbv zeta. rewrite Hstep.
      cbn [events]. apply Forall_app. split; [apply groupAndUsersSteps_emits|].
      by repeat constructor.
    + rewrite processProject_not_reached by (rewrite E; congruence).
      apply groupAndUsersSteps_emits.
    + rewrite processProject_not_reached by (rewrite E; congruence).
      apply groupAndUsersSteps_emits.
  - intros w g rest E.
    assert (Hp : processProject project w
                 = mkRun (events (groupAndUsersSteps project w)
                          ++ keyErrorLines project e)
                         (world (groupAndUsersSteps project w)) (Ok tt)).
    { rewrite (processProject_reached _ _ _ E). cbv zeta. by rewrite Hstep. }
    cbv zeta. rewrite for_of_cons by (by rewrite Hp).
    rewrite Hp. cbn [events world result]. by rewrite <- app_assoc.
Qed.

End ClaimFacts.

Lemma filter_none {A} (f : A → bool) l :
  Forall (λ x, f x = false) l → List.filter f l = [].
Proof.
  induction 1 as [|x l Hx _ IH]; simpl; [done|]. by rewrite Hx.
Qed.

Lemma after_key_step_key_write ev :
  after_key_step ev = false → is_key_write ev = false.
Proof. by destruct ev. Qed.

Section ClaimFacts2.
Context {W : Type} `{Services W}.

Lemma keyAndIdentitySteps_cases project g w :
  keyAndIdentitySteps project g w =
    let k := keyPairStep project w in
    match result k with
    | Ok (Next keyPair) =>
        let s := saveGeneratedKey project keyPair (world k) in
        match result s with
        | Ok _ =>
            let i := identitySteps project keyPair g (world s) in
            mkRun (events k ++ events s ++ events i) (world i) (result i)
        | Throw e => mkRun (events k ++ events s) (world s) (Throw e)
        end
    | Ok Continue => mkRun (events k) (world k) (Ok tt)
    | Throw e => mkRun (events k) (world k) (Throw e)
    end.
Proof.
  unfold keyAndIdentitySteps. cbv zeta.
  unfold mbind, M_bind, bind.
  destruct (result (keyPairStep project w)) as [[kp|]|e]; cbn [events world result].
  - destruct (result (saveGeneratedKey project kp _)); cbn [events world result];
      reflexivity.
  - unfold mret, M_ret, ret. cbn [events world result]. by rewrite app_nil_r.
  - reflexivity.
Qed.

Lemma saveGeneratedKey_events project keyPair w :
  events (saveGeneratedKey project keyPair w) =
    if truthy (project_privateKey project) then []
    else [SqlUpdateProjectKey (private keyPair) (project_id project)].
Proof.
  unfold saveGeneratedKey.
  destruct (truthy (project_privateKey project)); simpl; [done|].
  unfold call. by destruct (sql_updateProjectKey _ _ w).
Qed.

(** C8: the private key text is written back, by one update keyed by the
    project id, exactly when the stored field was absent or empty and the
    key step produced a pair, which then comes from the generator; a
    project that holds key text is never written back.  The write-back is
    the update of the store itself: it is performed on the world the key
    step left, its outcome is the outcome of the step, and the identity
    steps go on from the world it leaves. *)
Theorem C8_key_written_back_once_iff_generated (project : Project) :
  (∀ g w,
     List.filter is_key_write (events (keyAndIdentitySteps project g w)) =
       match result (keyPairStep project w) with
       | Ok (Next keyPair) =>
           if truthy (project_privateKey project) then []
           else [SqlUpdateProjectKey (private keyPair) (project_id project)]
       | _ => []
       end)
  ∧ (∀ w,
       List.filter is_key_write (events (processProject project w)) =
         match result (groupAndUsersSteps project w) with
         | Ok (Next g) =>
             List.filter is_key_write
               (events (keyAndIdentitySteps project g
                          (world (groupAndUsersSteps project w))))
         | _ => []
         end)
  ∧ (∀ w keyPair,
       truthy (project_privateKey project) = false →
       result (keyPairStep project w) = Ok (Next keyPair) →
       ∃ k w', generatePrivateKey "ed25519" (project_privateKey project) w
               = (Ok k, w')
               ∧ keyPair = keyPairOf k)
  ∧ (∀ keyPair w,
       saveGeneratedKey project keyPair w =
         if truthy (project_privateKey project) then mkRun [] w (Ok tt)
         else
           let '(r, w') :=
             sql_updateProjectKey (private keyPair) (project_id project) w in
           mkRun [SqlUpdateProjectKey (private keyPair) (project_id project)]
                 w' r)
  ∧ (∀ g w keyPair,
       result (keyPairStep project w) = Ok (Next keyPair) →
       let k := keyPairStep project w in
       let s := saveGeneratedKey project keyPair (world k) in
       match result s with
       | Ok _ =>
           let i := identitySteps project keyPair g (world s) in
           keyAndIdentitySteps project g w
           = mkRun (events k ++ events s ++ events i) (world i) (result i)
       | Throw e =>
           keyAndIdentitySteps project g w
           = mkRun (events k ++ events s) (world s) (Throw e)
       end).
Proof.
  assert (Hk : ∀ w, List.filter is_key_write (events (keyPairStep project w)) = []).
  { intros w. apply filter_none. eapply Forall_impl; [apply keyPairStep_emits|].
    apply after_key_step_key_write. }
  assert (Hg : ∀ w, List.filter is_key_write
                      (events (groupAndUsersSteps project w)) = []).
  { intros w. apply filter_none.
    eapply Forall_impl; [apply groupAndUsersSteps_emits|].
    apply after_key_step_key_write. }
  split; [|split; [|split; [|split]]].
  - intros g w. rewrite keyAndIdentitySteps_cases. cbv zeta.
    destruct (result (keyPairStep project w)) as [[kp|]|e]; [|apply Hk..].
    assert (Hi : ∀ w', List.filter is_key_write
                         (events (identitySteps project kp g w')) = []).
    { intros w'. apply filter_none. apply identitySteps_emits. }
    destruct (result (saveGeneratedKey project kp _)); cbn [events];
      rewrite !List.filter_app, ?Hk, ?Hi, saveGeneratedKey_events;
      by destruct (truthy (project_privateKey project)).
  - intros w.
    destruct (result (groupAndUsersSteps project w)) as [[g|]|e] eqn:E.
    + rewrite (processProject_reached _ _ _ E). cbv zeta. cbn [events].
      by rewrite List.filter_app, Hg.
    + rewrite processProject_not_reached by (rewrite E; congruence). apply Hg.
    + rewrite processProject_not_reached by (rewrite E; congruence). apply Hg.
  - intros w keyPair Hfalsy. unfold keyPairStep.
    unfold try_catch, mbind, M_bind, bind.
    rewrite resolveKeyPair_cases.
    destruct (project_privateKey project) as [[|a s]|]; [|done|];
      cbv beta iota zeta;
      destruct (generatePrivateKey _ _ w) as [[k|e] w']; simpl;
      intros E; inversion E; subst; eauto.
  - intros keyPair w. unfold saveGeneratedKey.
    destruct (truthy (project_privateKey project)); cbn [negb]; [done|].
    unfold call. by destruct (sql_updateProjectKey _ _ w) as [[[]|e] w'].
  - intros g w keyPair E. cbv zeta. rewrite keyAndIdentitySteps_cases.
    cbv zeta. rewrite E.
    by destruct (result (saveGeneratedKey project keyPair _)).
Qed.


(** *** Identity resolution *)

Lemma createDefaultUser_cases project keyPair w :
  createDefaultUser project keyPair w =
    let input := defaultUserInput project in
    let key := sshKeyInput keyPair in
    match addUser input w with
    | (Throw e, w1) =>
        mkRun [AddUser input; createErrorLine project e] w1 (Ok None)
    | (Ok user, w1) =>
        match sql_insertSshKey key w1 with
        | (Throw e, w2) =>
            mkRun [AddUser input; SqlInsertSshKey key; createErrorLine project e]
                  w2 (Ok (Some user))
        | (Ok insertId, w2) =>
            match sql_addSshKeyToUser insertId (user_id user) w2 with
            | (Throw e, w3) =>
                mkRun [AddUser input; SqlInsertSshKey key;
                       SqlAddSshKeyToUser insertId (user_id user);
                       createErrorLine project e] w3 (Ok (Some user))
            | (Ok _, w3) =>
                mkRun [AddUser input; SqlInsertSshKey key;
                       SqlAddSshKeyToUser insertId (user_id user)]
                      w3 (Ok (Some user))
            end
        end
    end.
Proof.
  unfold createDefaultUser. cbv zeta. unfold_m.
  destruct (addUser _ w) as [[user|e] w1]; simpl; [|done].
  destruct (sql_insertSshKey _ w1) as [[insertId|e] w2]; simpl; [|done].
  destruct (sql_addSshKeyToUser _ _ w2) as [[[]|e] w3]; simpl; done.
Qed.

Lemma addGuest_cases project user g w :
  addGuest project user g w =
    match addUserToGroup user g "guest" w with
    | (Ok _, w1) => mkRun [AddUserToGroup user g "guest"] w1 (Ok tt)
    | (Throw e, w1) =>
        mkRun [AddUserToGroup user g "guest"; guestErrorLine project e] w1 (Ok tt)
    end.
Proof.
  unfold addGuest. unfold_m.
  by destruct (addUserToGroup user g "guest" w) as [[[]|e] w1].
Qed.

Lemma findOrCreateUser_cases project keyPair w :
  findOrCreateUser project keyPair w =
    let fp := getSshKeyFingerprint (public keyPair) in
    match sql_selectUserIdsBySshKeyFingerprint fp w with
    | (Throw e, w1) =>
        mkRun [SqlSelectUserIdsBySshKeyFingerprint fp] w1 (Throw e)
    | (Ok rows, w1) =>
        if truthy (first_usid rows) then
          let uid := default "" (first_usid rows) in
          let '(r, w2) := loadUserById uid w1 in
          mkRun [SqlSelectUserIdsBySshKeyFingerprint fp; LoadUserById uid] w2
                (map_result Some r)
        else
          let c := createDefaultUser project keyPair w1 in
          mkRun (SqlSelectUserIdsBySshKeyFingerprint fp :: events c)
                (world c) (result c)
    end.
Proof.
  unfold findOrCreateUser. cbv zeta. unfold_m.
  destruct (sql_selectUserIdsBySshKeyFingerprint _ w) as [[rows|e] w1];
    cbn [events world result]; [|done].
  destruct (truthy (first_usid rows)); cbn [negb].
  - destruct (loadUserById _ w1) as [[u|e] w2]; reflexivity.
  - reflexivity.
Qed.

(** C10 (amended): when the fingerprint lookup yields no identity, the
    guest membership is attempted whatever happens on the creation path,
    with an undefined user when [addUser] itself failed and with the
    newly created user when a later step of the creation path failed; an
    error of the attempt is caught and logged, and the iteration ends
    normally. *)
Theorem C10_guest_add_follows_failed_creation (project : Project)
    (keyPair : KeyPair) (g : option Group) (w w1 : W) (rows : list UserIdRow) :
  let fp := getSshKeyFingerprint (public keyPair) in
  sql_selectUserIdsBySshKeyFingerprint fp w = (Ok rows, w1) →
  truthy (first_usid rows) = false →
  let created := createDefaultUser project keyPair w1 in
  let user :=
    match addUser (defaultUserInput project) w1 with
    | (Ok u, _) => Some u
    | (Throw _, _) => None
    end in
  let guest := addGuest project user g (world created) in
  result created = Ok user
  ∧ identitySteps project keyPair g w
    = mkRun (SqlSelectUserIdsBySshKeyFingerprint fp :: events created
             ++ events guest) (world guest) (Ok tt)
  ∧ (∃ logged, events guest = AddUserToGroup user g "guest" :: logged
               ∧ (∀ e, (addUserToGroup user g "guest" (world created)).1 = Throw e
                       → logged = [guestErrorLine project e])).
Proof.
  intros fp Hsel Hfalsy created user guest.
  assert (Hres : result created = Ok user).
  { subst created user. rewrite createDefaultUser_cases. cbv zeta.
    destruct (addUser _ w1) as [[u|e] w2]; [|done].
    destruct (sql_insertSshKey _ w2) as [[insertId|e] w3]; [|done].
    by destruct (sql_addSshKeyToUser _ _ w3) as [[[]|e] w4]. }
  split; [exact Hres|]. split.
  - assert (Hf : findOrCreateUser project keyPair w
                 = mkRun (SqlSelectUserIdsBySshKeyFingerprint fp :: events created)
                         (world created) (Ok user)).
    { rewrite findOrCreateUser_cases. cbv zeta. fold fp. rewrite Hsel, Hfalsy.
      fold created. by rewrite Hres. }
    unfold identitySteps. unfold mbind, M_bind.
    rewrite (bind_ok _ _ _ user) by (by rewrite Hf).
    rewrite Hf. cbn [events world result]. fold guest.
    pose proof (addGuest_never_throws project user g (world created)) as Hn.
    fold guest in Hn. destruct (result guest) as [[]|e] eqn:Eg.
    + reflexivity.
    + by destruct (Hn e).
  - subst guest. rewrite addGuest_cases.
    destruct (addUserToGroup user g "guest" (world created)) as [[[]|e] w2];
      simpl; eexists; (split; [reflexivity|]); intros ? [=]. by subst.
Qed.

End ClaimFacts2.

Section ClaimFacts3.
Context {W : Type} `{Services W}.

Lemma truthy_default x : truthy x = true → x = Some (default "" x) ∧ default "" x ≠ "".
Proof. destruct x as [[|a s]|]; simpl; try done. Qed.

(** The lookup by fingerprint comes first; a linked identity is loaded
    and nothing is created; otherwise the default user is created with
    its key record, tagged with the fingerprint, and the link. *)
Lemma findOrCreateUser_spec (project : Project) (keyPair : KeyPair) (w : W) :
  let fp := getSshKeyFingerprint (public keyPair) in
  (∃ rest, events (findOrCreateUser project keyPair w)
           = SqlSelectUserIdsBySshKeyFingerprint fp :: rest)
  ∧ (∀ rows w1 uid,
       sql_selectUserIdsBySshKeyFingerprint fp w = (Ok rows, w1) →
       first_usid rows = Some uid → uid ≠ "" →
       findOrCreateUser project keyPair w
       = let '(r, w2) := loadUserById uid w1 in
         mkRun [SqlSelectUserIdsBySshKeyFingerprint fp; LoadUserById uid] w2
               (map_result Some r))
  ∧ (∀ rows w1 user w2 insertId w3 w4,
       sql_selectUserIdsBySshKeyFingerprint fp w = (Ok rows, w1) →
       truthy (first_usid rows) = false →
       addUser (defaultUserInput project) w1 = (Ok user, w2) →
       sql_insertSshKey (sshKeyInput keyPair) w2 = (Ok insertId, w3) →
       sql_addSshKeyToUser insertId (user_id user) w3 = (Ok tt, w4) →
       findOrCreateUser project keyPair w
       = mkRun [SqlSelectUserIdsBySshKeyFingerprint fp;
                AddUser (defaultUserInput project);
                SqlInsertSshKey (sshKeyInput keyPair);
                SqlAddSshKeyToUser insertId (user_id user)] w4 (Ok (Some user)))
  ∧ ui_username (defaultUserInput project)
    = "default-user@" +:+ project_name project
  ∧ ui_email (defaultUserInput project)
    = "default-user@" +:+ project_name project
  ∧ keyFingerprint (sshKeyInput keyPair) = fp.
Proof.
  intros fp. rewrite findOrCreateUser_cases. cbv zeta. fold fp.
  split; [|split; [|split; [|done]]].
  - destruct (sql_selectUserIdsBySshKeyFingerprint fp w) as [[rows|e] w1];
      [|by eexists].
    destruct (truthy (first_usid rows)); [|by eexists].
    destruct (loadUserById _ w1); by eexists.
  - intros rows w1 uid -> Hfirst Hne. rewrite Hfirst.
    destruct uid as [|a s]; [done|]. reflexivity.
  - intros rows w1 user w2 insertId w3 w4 -> -> Hadd Hins Hlink.
    rewrite createDefaultUser_cases. cbv zeta. by rewrite Hadd, Hins, Hlink.
Qed.

(** *** Where the loop body can throw *)

Lemma addProjectUsers_throws_at project grp w :
  throws_at (λ ev, unguarded ev = true) (addProjectUsers project (Some grp) w).
Proof.
  unfold addProjectUsers. throws_step; [by throws_step|].
  apply throws_at_for_of. intros pu w' _.
  unfold addProjectUser, prop_name. repeat throws_step.
Qed.

Lemma addProjectUser_cases g pu w :
  addProjectUser g pu w =
    let handled (evs : list Event) (w' : W) (err : JsError) :=
      match g with
      | Some grp => mkRun (evs ++ [ownerErrorLine pu grp err]) w' (Ok tt)
      | None => mkRun evs w' (Throw unassignedGroupError)
      end in
    match loadUserByUsername (email pu) w with
    | (Throw e, w1) => handled [LoadUserByUsername (email pu)] w1 e
    | (Ok u, w1) =>
        match addUserToGroup (Some u) g "owner" w1 with
        | (Ok _, w2) =>
            mkRun [LoadUserByUsername (email pu);
                   AddUserToGroup (Some u) g "owner"] w2 (Ok tt)
        | (Throw e, w2) =>
            handled [LoadUserByUsername (email pu);
                     AddUserToGroup (Some u) g "owner"] w2 e
        end
    end.
Proof.
  unfold addProjectUser, prop_name. cbv zeta. unfold_m.
  destruct (loadUserByUsername (email pu) w) as [[u|e] w1]; simpl.
  - destruct (addUserToGroup (Some u) g "owner" w1) as [[[]|e] w2]; simpl;
      [done|]. by destruct g.
  - by destruct g.
Qed.

Lemma addProjectUsers_throws_at_unassigned project w :
  throws_at (λ ev, unguarded ev = true ∨ owner_call ev = true)
            (addProjectUsers project None w).
Proof.
  unfold addProjectUsers. throws_step; [throws_step; by left|].
  apply throws_at_for_of. intros pu w' _.
  rewrite addProjectUser_cases. cbv zeta. intros e.
  destruct (loadUserByUsername (email pu) w') as [[u|e1] w1];
    cbn [events world result].
  - destruct (addUserToGroup (Some u) None "owner" w1) as [[[]|e2] w2];
      cbn [events world result]; [done|].
    intros _. exists [LoadUserByUsername (email pu)]. eexists.
    split; [reflexivity|]. by right.
  - intros _. exists []. eexists. split; [reflexivity|]. by right.
Qed.

Lemma keyAndIdentitySteps_throws_at project g w :
  throws_at (λ ev, unguarded ev = true) (keyAndIdentitySteps project g w).
Proof.
  unfold keyAndIdentitySteps. throws_step.
  { apply throws_at_never, keyPairStep_never_throws. }
  throws_step; [|throws_step].
  throws_step.
  { unfold saveGeneratedKey. repeat throws_step. done. }
  unfold identitySteps. throws_step.
  - unfold findOrCreateUser. throws_step; [by throws_step|].
    throws_step.
    + apply throws_at_never, createDefaultUser_never_throws.
    + repeat throws_step. done.
  - apply throws_at_never, addGuest_never_throws.
Qed.

Lemma groupAndUsersSteps_upsert project w :
  ∃ flow, result (upsertGroup project ("project-" +:+ project_name project) w)
          = Ok flow
  ∧ match flow with
    | Continue => result (groupAndUsersSteps project w) = Ok Continue
    | Next g =>
        ∀ P, throws_at P (addProjectUsers project g
                            (world (upsertGroup project
                                      ("project-" +:+ project_name project) w))) →
             throws_at P (groupAndUsersSteps project w)
    end.
Proof.
  pose proof (upsertGroup_never_throws project
                ("project-" +:+ project_name project) w) as Hn.
  destruct (result (upsertGroup project _ w)) as [flow|e] eqn:E;
    [|by destruct (Hn e)].
  exists flow. split; [done|].
  unfold groupAndUsersSteps. cbv zeta. unfold mbind, M_bind, bind, log.
  cbn [events world result]. rewrite E. destruct flow as [g|].
  - intros P HP e He. cbn [events world result] in *.
    destruct (result (addProjectUsers project g _)) as [[]|e'] eqn:Ea;
      cbn [events world result] in He; [done|].
    destruct (HP e' Ea) as (evs & ev & Hev & Pev).
    exists (Log Debug ("Processing " +:+ project_name project)
            :: events (upsertGroup project
                         ("project-" +:+ project_name project) w) ++ evs), ev.
    split; [|done]. cbn [events]. rewrite Hev.
    cbn [app]. by rewrite app_assoc.
  - reflexivity.
Qed.


(** The same without the assumption on the group: the throw can also
    come from the handler of the project-user loop. *)
Lemma processProject_throws_at project w :
  throws_at (λ ev, unguarded ev = true ∨ owner_call ev = true)
            (processProject project w).
Proof.
  unfold processProject. throws_step.
  - destruct (groupAndUsersSteps_upsert project w) as (flow & Hu & Hflow).
    destruct flow as [[grp|]|].
    + apply Hflow. eapply throws_at_weaken; [|apply addProjectUsers_throws_at].
      by left.
    + apply Hflow, addProjectUsers_throws_at_unassigned.
    + intros e He. congruence.
  - throws_step; [|throws_step].
    eapply throws_at_weaken; [|apply keyAndIdentitySteps_throws_at]. by left.
Qed.

End ClaimFacts3.

(** ** Relations that the script keeps *)

Section KeepsFacts.
Context {W : Type} (R : W → W → Prop).
Hypothesis R_refl : ∀ w, R w w.
Hypothesis R_trans : ∀ a b c, R a b → R b c → R a c.

Lemma keeps_ret {A} (a : A) : keeps R (ret a).
Proof. intros w. apply R_refl. Qed.

Lemma keeps_throw {A} e : keeps R (@throw W A e).
Proof. intros w. apply R_refl. Qed.

Lemma keeps_log lvl msg : keeps R (log lvl msg).
Proof. intros w. apply R_refl. Qed.

Lemma keeps_lift_result {A} (r : Result A) :
  keeps R (lift_result r).
Proof. intros w. apply R_refl. Qed.

Lemma keeps_call {A} ev (op : Op W A) :
  (∀ w, R w (op w).2) → keeps R (call ev op).
Proof. intros Hop w. unfold call. specialize (Hop w). by destruct (op w). Qed.

Lemma keeps_bind {A B} (m : M W A) (k : A → M W B) :
  keeps R m → (∀ a, keeps R (k a)) → keeps R (bind m k).
Proof.
  intros Hm Hk w. unfold bind. specialize (Hm w).
  destruct (result (m w)) as [a|e]; cbn [world]; [|done].
  eapply R_trans; [exact Hm|apply Hk].
Qed.

Lemma keeps_try_catch {A} (m : M W A) h :
  keeps R m → (∀ e, keeps R (h e)) → keeps R (try_catch m h).
Proof.
  intros Hm Hh w. unfold try_catch. specialize (Hm w).
  destruct (result (m w)) as [a|e]; cbn [world]; [done|].
  eapply R_trans; [exact Hm|apply Hh].
Qed.

Lemma keeps_for_of {A} (xs : list A) (body : A → M W unit) :
  (∀ x, keeps R (body x)) → keeps R (for_of xs body).
Proof.
  intros Hb. induction xs as [|x xs IH]; simpl.
  - apply keeps_ret.
  - apply keeps_bind; [apply Hb|]. intros _. apply IH.
Qed.

End KeepsFacts.

Ltac keeps_step :=
  match goal with
  | |- keeps _ (bind _ _) => apply keeps_bind; [assumption.. | |intros ?]
  | |- keeps _ (try_catch _ _) =>
      apply keeps_try_catch; [assumption.. | |intros ?]
  | |- keeps _ (for_of _ _) => apply keeps_for_of; [assumption.. |intros ?]
  | |- keeps _ (log _ _) => apply keeps_log; assumption
  | |- keeps _ (ret _) => apply keeps_ret; assumption
  | |- keeps _ (throw _) => apply keeps_throw; assumption
  | |- keeps _ (lift_result _) => apply keeps_lift_result; assumption
  | |- keeps _ (let _ := _ in _) => cbv zeta
  | |- keeps _ (match ?x with _ => _ end) => destruct x
  | |- keeps _ (if ?x then _ else _) => destruct x
  end.

Section ScriptKeeps.
Context {W : Type} `{Services W} (R : W → W → Prop).
Hypothesis R_refl : ∀ w, R w w.
Hypothesis R_trans : ∀ a b c, R a b → R b c → R a c.
Hypothesis calls_keep : services_keep R.

(** A preorder on worlds that every collaborator call keeps is kept by
    an iteration of the loop, and by the loop. *)
Lemma processProject_keeps project : keeps R (processProject project).
Proof.
  destruct calls_keep as (? & ? & ? & ? & ? & ? & ? & ? & ? & ? & ? & ? & ?).
  unfold processProject, groupAndUsersSteps, upsertGroup, addProjectUsers,
    addProjectUser, prop_name, keyAndIdentitySteps, keyPairStep, resolveKeyPair,
    saveGeneratedKey, identitySteps, findOrCreateUser, createDefaultUser, addGuest.
  rewrite resolvePrivateKey_cases.
  unfold mbind, M_bind, mret, M_ret, generatePrivateKeyEd25519, R_partial.
  repeat (keeps_step || (apply keeps_call; by auto)).
Qed.

Lemma loop_keeps projects : keeps R (for_of projects processProject).
Proof. apply keeps_for_of; [done..|]. apply processProject_keeps. Qed.

End ScriptKeeps.

(** ** The migration over the collaborators of the specification *)

Module SpecFacts.
Import SpecWorld SpecPass SpecInv.

#[local] Arguments String.eqb : simpl never.
#[local] Arguments gname : simpl never.
#[local] Arguments default_name : simpl never.

(** *** Lists and ids *)

Lemma find_app {A} (f : A → bool) l1 l2 :
  find f (l1 ++ l2) = match find f l1 with Some x => Some x | None => find f l2 end.
Proof. induction l1 as [|x l1 IH]; simpl; [done|]. by destruct (f x). Qed.

Lemma find_app_Some {A} (f : A → bool) l1 l2 x :
  find f l1 = Some x → find f (l1 ++ l2) = Some x.
Proof. intros E. by rewrite find_app, E. Qed.

Lemma find_Some_elem {A} (f : A → bool) l x :
  find f l = Some x → x ∈ l ∧ f x = true.
Proof.
  intros E. apply find_some in E as [Hin Hf]. split; [|done].
  by apply list_elem_of_In.
Qed.

Lemma find_None_elem {A} (f : A → bool) l x :
  find f l = None → x ∈ l → f x = false.
Proof. intros E Hin. apply (find_none f l E). by apply list_elem_of_In. Qed.

Lemma longest_ge ids i :
  i ∈ ids → (String.length i ≤ String.length (longest ids))%nat.
Proof.
  induction ids as [|a ids IH]; intros Hin; [by apply elem_of_nil in Hin|].
  apply elem_of_cons in Hin. simpl.
  destruct (String.length (longest ids) <? String.length a)%nat eqn:E.
  - apply Nat.ltb_lt in E. destruct Hin as [->|Hin]; [lia|].
    specialize (IH Hin). lia.
  - apply Nat.ltb_ge in E. destruct Hin as [->|Hin]; [lia|]. by apply IH.
Qed.

Lemma fresh_id_fresh c ids : fresh_id c ids ∉ ids.
Proof.
  intros Hin. apply longest_ge in Hin. unfold fresh_id in Hin. simpl in Hin. lia.
Qed.

Lemma fresh_id_nonempty c ids : fresh_id c ids ≠ "".
Proof. done. Qed.

Lemma foldr_max_ge (l : list Z) x : x ∈ l → x ≤ foldr Z.max 0 l.
Proof.
  induction l as [|a l IH]; intros Hin; [by apply elem_of_nil in Hin|].
  apply elem_of_cons in Hin. simpl. destruct Hin as [->|Hin]; [lia|].
  specialize (IH Hin). lia.
Qed.

Lemma next_key_id_fresh_link w l : l ∈ user_ssh_key w → l.2 ≠ next_key_id w.
Proof.
  intros Hin Heq. unfold next_key_id in Heq.
  assert (l.2 ≤ foldr Z.max 0 (map fst (ssh_key w) ++ map snd (user_ssh_key w))).
  { apply foldr_max_ge, elem_of_app. right. apply list_elem_of_fmap.
    by exists l. }
  lia.
Qed.

Lemma map_replace_id {A} (f : A → bool) (y : A) (l : list A) :
  (∀ x, x ∈ l → f x = true → x = y) →
  map (λ x, if f x then y else x) l = l.
Proof.
  intros Hy. induction l as [|x l IH]; simpl; [done|].
  rewrite IH by (intros z Hz; apply Hy; by right).
  destruct (f x) eqn:E; [|done]. f_equal. symmetry. apply Hy; [left|done].
Qed.

Lemma prefix_inj p s t : p +:+ s = p +:+ t → s = t.
Proof. induction p as [|a p IH]; simpl; [done|]. intros [= E]. by apply IH. Qed.

Section Stages.
Context `{KeyLib} (key_of_seed : nat → PrivateKey).
#[local] Hint Extern 0 (Services World) =>
  exact (spec_services key_of_seed) : typeclass_instances.

Lemma sw_upsertGroup p w :
  let r := upsertGroup p (gname p) w in
  result r = Ok (Next (Some (upsert p w).1)) ∧ world r = (upsert p w).2.
Proof.
  cbv zeta. unfold upsertGroup, upsert. unfold_m. simpl.
  unfold spec_loadGroupByName, spec_updateGroup, spec_addGroup.
  destruct (find_group_by_name (gname p) w) as [g|] eqn:E; simpl.
  - assert (Hex : existsb (λ g0, String.eqb (group_id g0) (group_id g)) (groups w)
                  = true).
    { apply existsb_exists. exists g. split; [|apply String.eqb_refl].
      apply find_some in E. tauto. }
    rewrite Hex. simpl. done.
  - rewrite E. simpl. done.
Qed.

Lemma sw_addProjectUser g pu w :
  let r := addProjectUser (Some g) pu w in
  result r = Ok tt ∧ world r = add_owner g w pu.
Proof.
  cbv zeta. rewrite addProjectUser_cases. cbv zeta. simpl.
  unfold spec_loadUserByUsername, add_owner.
  destruct (email pu) as [n|]; [|done].
  destruct (find_user_by_username n w) as [u|]; done.
Qed.

Lemma sw_for_of_owners g recs w :
  let r := for_of recs (addProjectUser (Some g)) w in
  result r = Ok tt ∧ world r = foldl (add_owner g) w recs.
Proof.
  revert w. induction recs as [|pu recs IH]; intros w; [done|].
  destruct (sw_addProjectUser g pu w) as [Hr Hw].
  cbv zeta. rewrite for_of_cons by done. cbn [result world].
  rewrite Hw. apply IH.
Qed.

Lemma sw_addProjectUsers p g w :
  let r := addProjectUsers p (Some g) w in
  result r = Ok tt ∧ world r = foldl (add_owner g) w (owners_of p w).
Proof.
  cbv zeta. unfold addProjectUsers. unfold mbind, M_bind.
  rewrite (bind_ok _ _ _ (owners_of p w)) by done.
  cbn [result world]. apply sw_for_of_owners.
Qed.

Lemma sw_groupAndUsersSteps p w :
  let r := groupAndUsersSteps p w in
  let '(g, w1) := upsert p w in
  result r = Ok (Next (Some g))
  ∧ world r = foldl (add_owner g) w1 (owners_of p w1).
Proof.
  cbv zeta. destruct (sw_upsertGroup p w) as [Hr Hw].
  destruct (upsert p w) as [g w1] eqn:E. simpl in Hr, Hw.
  unfold groupAndUsersSteps. cbv zeta. fold (gname p).
  unfold mbind, M_bind.
  rewrite (bind_ok _ _ _ tt) by done. cbn [result world].
  change (world (log _ _ w)) with w.
  rewrite (bind_ok _ _ _ (Next (Some g))) by done. cbn [result world].
  rewrite Hw.
  destruct (sw_addProjectUsers p g w1) as [Hr2 Hw2].
  rewrite (bind_ok _ _ _ tt) by done. cbn [result world]. done.
Qed.

Lemma sw_keyPairStep p w :
  let r := keyPairStep p w in
  result r = Ok (match (key_step key_of_seed p w).1 with
                 | Some kp => Next kp
                 | None => Continue
                 end)
  ∧ world r = (key_step key_of_seed p w).2.
Proof.
  cbv zeta. unfold keyPairStep, key_step.
  unfold try_catch, mbind, M_bind, bind.
  rewrite resolveKeyPair_cases.
  destruct (project_privateKey p) as [[|a s]|]; try done.
  cbn [truthy]. by destruct (parsePrivateKey _).
Qed.

Lemma sw_saveGeneratedKey p kp w :
  let r := saveGeneratedKey p kp w in
  result r = Ok tt ∧ world r = save_key p kp w.
Proof.
  cbv zeta. unfold saveGeneratedKey, save_key.
  by destruct (truthy (project_privateKey p)).
Qed.

Lemma sw_findOrCreateUser p kp w :
  let r := findOrCreateUser p kp w in
  result r = (resolve_identity p kp w).1
  ∧ world r = (resolve_identity p kp w).2.
Proof.
  cbv zeta. rewrite findOrCreateUser_cases. cbv zeta. simpl.
  unfold resolve_identity. fold (rows_for w (getSshKeyFingerprint (public kp))).
  destruct (truthy (first_usid _)).
  - unfold spec_loadUserById. by destruct (find_user_by_id _ w).
  - rewrite createDefaultUser_cases. cbv zeta. simpl.
    unfold spec_addUser. simpl. fold (default_name p).
    by destruct (find_user_by_username (default_name p) w).
Qed.

Lemma sw_addGuest p user g w :
  let r := addGuest p user (Some g) w in
  result r = Ok tt ∧ world r = add_guest user g w.
Proof.
  cbv zeta. rewrite addGuest_cases. simpl. by destruct user.
Qed.

(** One pass of the loop body is [step]. *)
Lemma sw_processProject p w :
  (result (processProject p w), world (processProject p w))
  = step key_of_seed p w.
Proof.
  pose proof (sw_groupAndUsersSteps p w) as Hg. cbv zeta in Hg.
  unfold step, key_and_identity. destruct (upsert p w) as [g w1].
  destruct Hg as [Hgr Hgw].
  rewrite (processProject_reached _ _ _ Hgr). cbv zeta. cbn [result world].
  rewrite Hgw. set (w2 := foldl (add_owner g) w1 (owners_of p w1)).
  rewrite keyAndIdentitySteps_cases. cbv zeta.
  destruct (sw_keyPairStep p w2) as [Hkr Hkw]. rewrite Hkr, Hkw.
  destruct (key_step key_of_seed p w2) as [[kp|] w3]; cbn [fst snd]; [|done].
  destruct (sw_saveGeneratedKey p kp w3) as [Hsr Hsw]. rewrite Hsr, Hsw.
  cbn [result world]. unfold identitySteps. unfold mbind, M_bind.
  destruct (sw_findOrCreateUser p kp (save_key p kp w3)) as [Hfr Hfw].
  destruct (resolve_identity p kp (save_key p kp w3)) as [[user|e] w5];
    cbn [fst snd] in Hfr, Hfw.
  - rewrite (bind_ok _ _ _ user) by done. cbn [result world]. rewrite Hfw.
    by destruct (sw_addGuest p user g w5) as [-> ->].
  - rewrite (bind_throw _ _ _ e) by done. cbn [result world]. by rewrite Hfw.
Qed.

End Stages.

Section Groups.
Context `{KeyLib} (key_of_seed : nat → PrivateKey).

(** *** Setters that change nothing *)

Lemma set_groups_id f w : f (groups w) = groups w → set_groups f w = w.
Proof. destruct w. unfold set_groups. simpl. by intros ->. Qed.

Lemma add_member_id u g role w :
  (user_id u, group_id g, role) ∈ memberships w → add_member u g role w = w.
Proof.
  intros Hin. destruct w. unfold add_member, set_memberships. simpl in *.
  f_equal. apply subseteq_union_1_L. set_solver.
Qed.

Lemma set_project_id f w : f (project w) = project w → set_project f w = w.
Proof. destruct w. unfold set_project. simpl. by intros ->. Qed.

(** *** Groups *)

Lemma replace_group_id input g : group_id (replace_group input g) = group_id g.
Proof.
  unfold replace_group. destruct (String.eqb _ _) eqn:E; [|done].
  by apply String.eqb_eq in E.
Qed.

Lemma NoDup_same_id gs g1 g2 :
  NoDup (map group_id gs) → g1 ∈ gs → g2 ∈ gs →
  group_id g1 = group_id g2 → g1 = g2.
Proof.
  induction gs as [|g gs IH]; intros Hnd H1 H2 Heq.
  { by apply elem_of_nil in H1. }
  simpl in Hnd. apply NoDup_cons in Hnd as [Hnotin Hnd].
  apply elem_of_cons in H1. apply elem_of_cons in H2.
  destruct H1 as [->|H1], H2 as [->|H2]; try done.
  - destruct Hnotin. rewrite Heq. apply list_elem_of_fmap. by exists g2.
  - destruct Hnotin. rewrite <- Heq. apply list_elem_of_fmap. by exists g1.
  - by apply IH.
Qed.

Lemma find_map_same {A} (f : A → bool) (h : A → A) l :
  (∀ y, y ∈ l → f (h y) = f y) →
  find f (map h l) = h <$> find f l.
Proof.
  induction l as [|x l IH]; intros Hf; simpl; [done|].
  rewrite Hf by left. destruct (f x); [done|].
  apply IH. intros y Hy. apply Hf. by right.
Qed.

Lemma upsert_found p w g0 :
  find_group_by_name (gname p) w = Some g0 →
  upsert p w
  = (mkGroup (group_id g0) (group_name g0)
             (projectGroupAttributes p (group_attributes g0)),
     set_groups
       (map (replace_group
               (mkGroup (group_id g0) (group_name g0)
                        (projectGroupAttributes p (group_attributes g0))))) w).
Proof. intros E. unfold upsert. by rewrite E. Qed.

Lemma upsert_groups p w :
  wf w →
  let '(g, w1) := upsert p w in
  find_group_by_name (gname p) w1 = Some g
  ∧ projectGroupAttributes p (group_attributes g) = group_attributes g
  ∧ (∀ n, n ≠ gname p → find_group_by_name n w1 = find_group_by_name n w)
  ∧ NoDup (map group_id (groups w1)).
Proof.
  intros [Hnd _]. unfold upsert.
  destruct (find_group_by_name (gname p) w) as [g0|] eqn:E.
  - set (input := mkGroup _ _ _).
    apply find_Some_elem in E as E'. destruct E' as [Hin Hname].
    apply String.eqb_eq in Hname.
    assert (Hrep : ∀ y, y ∈ groups w →
                        group_name (replace_group input y) = group_name y).
    { intros y Hy. unfold replace_group.
      destruct (String.eqb (group_id y) (group_id input)) eqn:Ey; [|done].
      apply String.eqb_eq in Ey. simpl in Ey.
      by rewrite (NoDup_same_id _ _ _ Hnd Hy Hin Ey). }
    split; [|split; [|split]].
    + unfold find_group_by_name in *. simpl.
      rewrite find_map_same by (intros y Hy; cbv beta; by rewrite (Hrep y Hy)).
      rewrite E. simpl. unfold replace_group. simpl.
      by rewrite String.eqb_refl.
    + simpl. apply projectGroupAttributes_idem.
    + intros n Hn. unfold find_group_by_name in *. simpl.
      rewrite find_map_same by (intros y Hy; cbv beta; by rewrite (Hrep y Hy)).
      destruct (find (λ g, String.eqb (group_name g) n) (groups w))
        as [y|] eqn:Ey; [|done]. simpl. f_equal.
      apply find_Some_elem in Ey as [Hy Hyn]. apply String.eqb_eq in Hyn.
      unfold replace_group. cbn [group_id input].
      destruct (String.eqb (group_id y) (group_id g0)) eqn:Eid; [|done].
      apply String.eqb_eq in Eid.
      rewrite (NoDup_same_id _ _ _ Hnd Hy Hin Eid) in Hyn. congruence.
    + simpl. rewrite map_map.
      erewrite map_ext; [exact Hnd|]. intros y. apply replace_group_id.
  - set (new := mkGroup _ _ _).
    split; [|split; [|split]].
    + unfold find_group_by_name in *. simpl. rewrite find_app, E. simpl.
      by rewrite String.eqb_refl.
    + simpl. apply projectGroupAttributes_idem.
    + intros n Hn. unfold find_group_by_name in *. simpl. rewrite find_app.
      destruct (find (λ g, String.eqb (group_name g) n) (groups w));
        [done|]. simpl.
      destruct (String.eqb (gname p) n) eqn:En; [|done].
      apply String.eqb_eq in En. congruence.
    + simpl. rewrite map_app. simpl. apply NoDup_app. split; [done|].
      split; [|apply NoDup_singleton].
      intros x Hx Hx'. apply list_elem_of_singleton in Hx'. subst x.
      by apply fresh_id_fresh in Hx.
Qed.

End Groups.

Section Evolve.
Context `{KeyLib} (key_of_seed : nat → PrivateKey).

Lemma extends_refl q w : extends q w w.
Proof.
  repeat split; try done.
  - exists []. by rewrite app_nil_r.
  - intros fp. exists []. by rewrite app_nil_r.
Qed.

Lemma rows_for_same w w' fp :
  ssh_key w' = ssh_key w → user_ssh_key w' = user_ssh_key w →
  rows_for w' fp = rows_for w fp.
Proof.
  intros Hk Hl. unfold rows_for, key_has_fingerprint. by rewrite Hk, Hl.
Qed.

Lemma extends_same q w w' :
  project_user w' = project_user w → customer w' = customer w →
  memberships w' = memberships w → users w' = users w →
  ssh_key w' = ssh_key w → user_ssh_key w' = user_ssh_key w →
  extends q w w'.
Proof.
  intros Hp Hc Hm Hu Hk Hl. repeat split; try done.
  - by rewrite Hm.
  - exists []. by rewrite app_nil_r.
  - intros fp. exists []. by rewrite app_nil_r, (rows_for_same w w').
Qed.

Lemma extends_trans q w1 w2 w3 :
  extends q w1 w2 → extends q w2 w3 → extends q w1 w3.
Proof.
  intros (Hp1 & Hc1 & Hm1 & (us1 & Hu1 & Hn1) & Hr1)
         (Hp2 & Hc2 & Hm2 & (us2 & Hu2 & Hn2) & Hr2).
  repeat split; try congruence.
  - set_solver.
  - exists (us1 ++ us2). split; [by rewrite Hu2, Hu1, app_assoc|].
    by apply Forall_app.
  - intros fp. destruct (Hr1 fp) as [e1 He1]. destruct (Hr2 fp) as [e2 He2].
    exists (e1 ++ e2). by rewrite He2, He1, app_assoc.
Qed.

Lemma grows_refl q w : grows q w w.
Proof. split; [done|apply extends_refl]. Qed.

Lemma grows_trans q w1 w2 w3 : grows q w1 w2 → grows q w2 w3 → grows q w1 w3.
Proof.
  intros [Hg1 He1] [Hg2 He2]. split; [congruence|by eapply extends_trans].
Qed.

Lemma grows_changes q w w' : grows q w w' → changes q w w'.
Proof.
  intros [Hg He]. split; [|done]. intros n _.
  unfold find_group_by_name. by rewrite Hg.
Qed.

Lemma changes_trans q w1 w2 w3 :
  changes q w1 w2 → changes q w2 w3 → changes q w1 w3.
Proof.
  intros [Hg1 He1] [Hg2 He2]. split; [|by eapply extends_trans].
  intros n Hn. by rewrite Hg2, Hg1.
Qed.

(** *** Each stage *)

Lemma upsert_changes q w : wf w → changes q w (upsert q w).2.
Proof.
  intros Hwf. pose proof (upsert_groups q w Hwf) as Hu.
  destruct (upsert q w) as [g w1] eqn:E. destruct Hu as (_ & _ & Hother & _).
  split; [done|]. simpl.
  unfold upsert in E.
  destruct (find_group_by_name _ w); injection E as <- <-;
    by apply extends_same.
Qed.

Lemma add_member_grows q u g role w : grows q w (add_member u g role w).
Proof.
  split; [done|]. repeat split; try done.
  - simpl. set_solver.
  - exists []. by rewrite app_nil_r.
  - intros fp. exists []. by rewrite app_nil_r.
Qed.

Lemma add_owner_grows q g w pu : grows q w (add_owner g w pu).
Proof.
  unfold add_owner. destruct (email pu) as [n|]; [|apply grows_refl].
  destruct (find_user_by_username n w); [|apply grows_refl].
  apply add_member_grows.
Qed.

Lemma add_owners_grows q g recs w : grows q w (foldl (add_owner g) w recs).
Proof.
  revert w. induction recs as [|pu recs IH]; intros w; [apply grows_refl|].
  simpl. eapply grows_trans; [apply add_owner_grows|apply IH].
Qed.

Lemma key_step_grows q w : grows q w (key_step key_of_seed q w).2.
Proof.
  unfold key_step. destruct (truthy _); [apply grows_refl|].
  split; [done|]. by apply extends_same.
Qed.

Lemma save_key_grows q kp w : grows q w (save_key q kp w).
Proof.
  unfold save_key. destruct (truthy _); [apply grows_refl|].
  split; [done|]. by apply extends_same.
Qed.

Lemma key_has_fingerprint_link_new_user p kp w fp skid :
  key_has_fingerprint (link_new_user p kp w) fp skid
  = key_has_fingerprint w fp skid
    || ((next_key_id w =? skid)
        && String.eqb (getSshKeyFingerprint (public kp)) fp).
Proof.
  unfold key_has_fingerprint. simpl. rewrite existsb_app. simpl.
  by rewrite orb_false_r.
Qed.

Lemma rows_for_link_new_user p kp w fp :
  rows_for (link_new_user p kp w) fp
  = rows_for w fp
    ++ (if String.eqb (getSshKeyFingerprint (public kp)) fp
        then [mkUserIdRow (user_id (new_user p w))] else []).
Proof.
  unfold rows_for. simpl user_ssh_key. rewrite List.filter_app, map_app.
  f_equal.
  - f_equal. apply List.filter_ext_in. intros l Hl.
    rewrite key_has_fingerprint_link_new_user.
    assert (l.2 ≠ next_key_id w)
      by (apply next_key_id_fresh_link; by apply list_elem_of_In).
    destruct (next_key_id w =? l.2) eqn:E; [apply Z.eqb_eq in E; done|].
    by rewrite orb_false_r.
  - simpl. rewrite key_has_fingerprint_link_new_user, Z.eqb_refl. simpl.
    destruct (String.eqb _ fp); [by rewrite orb_true_r|].
    rewrite orb_false_r.
    assert (key_has_fingerprint w fp (next_key_id w) = false) as ->; [|done].
    unfold key_has_fingerprint. apply not_true_is_false. intros Hex.
    apply existsb_exists in Hex as (k & Hk & Hid).
    apply andb_true_iff in Hid as [Hid _]. apply Z.eqb_eq in Hid.
    unfold next_key_id in Hid.
    assert (k.1 ≤ foldr Z.max 0 (map fst (ssh_key w) ++ map snd (user_ssh_key w))).
    { apply foldr_max_ge, elem_of_app. left. apply list_elem_of_fmap.
      exists k. split; [done|]. by apply list_elem_of_In. }
    lia.
Qed.

Lemma resolve_identity_grows q kp w : grows q w (resolve_identity q kp w).2.
Proof.
  unfold resolve_identity. destruct (truthy _).
  { destruct (find_user_by_id _ w); apply grows_refl. }
  destruct (find_user_by_username _ w); [apply grows_refl|].
  split; [done|]. repeat split; try done.
  - exists [new_user q w]. split; [done|]. by repeat constructor.
  - intros fp. cbn [snd]. rewrite rows_for_link_new_user. by eexists.
Qed.

Lemma add_guest_grows q user g w : grows q w (add_guest user g w).
Proof. destruct user; [apply add_member_grows|apply grows_refl]. Qed.

Lemma key_and_identity_grows q g w :
  grows q w (key_and_identity key_of_seed q g w).2.
Proof.
  unfold key_and_identity.
  pose proof (key_step_grows q w) as Hk.
  destruct (key_step key_of_seed q w) as [[kp|] w3]; simpl in Hk; [|done].
  eapply grows_trans; [exact Hk|].
  eapply grows_trans; [apply (save_key_grows q kp)|].
  pose proof (resolve_identity_grows q kp (save_key q kp w3)) as Hr.
  destruct (resolve_identity q kp (save_key q kp w3)) as [[user|e] w5];
    simpl in Hr; [|done].
  eapply grows_trans; [exact Hr|apply add_guest_grows].
Qed.

Lemma step_changes q w : wf w → changes q w (step key_of_seed q w).2.
Proof.
  intros Hwf. unfold step.
  pose proof (upsert_changes q w Hwf) as Hu.
  destruct (upsert q w) as [g w1]. simpl in Hu.
  eapply changes_trans; [exact Hu|]. apply grows_changes.
  eapply grows_trans; [apply (add_owners_grows q g (owners_of q w1) w1)|].
  apply key_and_identity_grows.
Qed.

Lemma add_owner_links g w pu :
  user_ssh_key (add_owner g w pu) = user_ssh_key w.
Proof.
  unfold add_owner. destruct (email pu); [|done].
  by destruct (find_user_by_username _ w).
Qed.

Lemma add_owners_links g recs w :
  user_ssh_key (foldl (add_owner g) w recs) = user_ssh_key w.
Proof.
  revert w. induction recs as [|pu recs IH]; intros w; [done|].
  simpl. by rewrite IH, add_owner_links.
Qed.

Lemma resolve_identity_links q kp w :
  Forall (λ l, l.1 ≠ "") (user_ssh_key w) →
  Forall (λ l, l.1 ≠ "") (user_ssh_key (resolve_identity q kp w).2).
Proof.
  intros Hl. unfold resolve_identity. destruct (truthy _).
  { by destruct (find_user_by_id _ w). }
  destruct (find_user_by_username _ w); [done|]. simpl.
  apply Forall_app. split; [done|]. by repeat constructor.
Qed.

Lemma key_and_identity_links q g w :
  Forall (λ l, l.1 ≠ "") (user_ssh_key w) →
  Forall (λ l, l.1 ≠ "") (user_ssh_key (key_and_identity key_of_seed q g w).2).
Proof.
  intros Hl. unfold key_and_identity.
  assert (L3 : user_ssh_key (key_step key_of_seed q w).2 = user_ssh_key w).
  { unfold key_step. by destruct (truthy _). }
  destruct (key_step key_of_seed q w) as [[kp|] w3]; simpl in *;
    [|by rewrite L3].
  assert (L4 : user_ssh_key (save_key q kp w3) = user_ssh_key w3).
  { unfold save_key. by destruct (truthy _). }
  pose proof (resolve_identity_links q kp (save_key q kp w3)) as L5.
  rewrite L4, L3 in L5. specialize (L5 Hl).
  destruct (resolve_identity q kp (save_key q kp w3)) as [[user|e] w5];
    simpl in *; [|done].
  by destruct user.
Qed.

Lemma step_wf q w : wf w → wf (step key_of_seed q w).2.
Proof.
  intros Hwf. unfold step.
  pose proof (upsert_groups q w Hwf) as Hu.
  assert (Hl1 : user_ssh_key (upsert q w).2 = user_ssh_key w).
  { unfold upsert. by destruct (find_group_by_name _ w). }
  destruct (upsert q w) as [g w1]. destruct Hu as (_ & _ & _ & Hnd).
  simpl in Hl1.
  pose proof (add_owners_grows q g (owners_of q w1) w1) as [G2 _].
  pose proof (add_owners_links g (owners_of q w1) w1) as L2.
  set (w2 := foldl _ _ _) in *.
  pose proof (key_and_identity_grows q g w2) as [G3 _].
  split; [by rewrite G3, G2|].
  apply key_and_identity_links. rewrite L2, Hl1. apply Hwf.
Qed.

End Evolve.

Section Settle.
Context `{KeyLib} (key_of_seed : nat → PrivateKey).

(** *** A settled project is left as it is *)

Lemma upsert_settled p w g :
  wf w →
  find_group_by_name (gname p) w = Some g →
  projectGroupAttributes p (group_attributes g) = group_attributes g →
  upsert p w = (g, w).
Proof.
  intros [Hnd _] Hfind Hattrs. rewrite (upsert_found _ _ _ Hfind).
  rewrite Hattrs.
  assert (Hg : mkGroup (group_id g) (group_name g) (group_attributes g) = g)
    by (by destruct g).
  rewrite Hg. f_equal. apply set_groups_id.
  apply (map_replace_id (λ x, String.eqb (group_id x) (group_id g)) g).
  intros x Hx Hid. apply String.eqb_eq in Hid.
  apply find_Some_elem in Hfind as [Hin _].
  by apply (NoDup_same_id (groups w)).
Qed.

Lemma add_owner_settled g w pu : owner_ok g w pu → add_owner g w pu = w.
Proof.
  unfold owner_ok, add_owner. destruct (email pu) as [n|]; [|done].
  destruct (find_user_by_username n w) as [u|]; [|done].
  apply add_member_id.
Qed.

Lemma add_owners_settled g w recs :
  Forall (owner_ok g w) recs → foldl (add_owner g) w recs = w.
Proof.
  induction 1 as [|pu recs Hpu _ IH]; [done|].
  simpl. by rewrite (add_owner_settled _ _ _ Hpu).
Qed.

Lemma truthy_Some uid : uid ≠ "" → truthy (Some uid) = true.
Proof. by destruct uid. Qed.

Lemma key_and_identity_settled st p g w :
  truthy (project_privateKey p) = true →
  key_ok st p g w →
  key_and_identity key_of_seed p g w = (outcome st, w).
Proof.
  intros Ht Hkey. unfold key_and_identity, key_step, save_key. rewrite Ht.
  destruct st; simpl in Hkey.
  - destruct Hkey as [e ->]. done.
  - destruct Hkey as (k & uid & u & -> & Hrow & Hne & Hu & Hm).
    unfold resolve_identity. simpl public. rewrite Hrow, (truthy_Some _ Hne).
    simpl default. rewrite Hu. simpl. by rewrite (add_member_id _ _ _ _ Hm).
  - destruct Hkey as (k & uid & -> & Hrow & Hne & Hu).
    unfold resolve_identity. simpl public. rewrite Hrow, (truthy_Some _ Hne).
    simpl default. by rewrite Hu.
Qed.

Lemma owners_of_same p w w' :
  project_user w' = project_user w → owners_of p w' = owners_of p w.
Proof. intros E. unfold owners_of. by rewrite E. Qed.

(** A second pass over a settled project changes nothing. *)
Lemma settled_step st p w :
  wf w → settled_as st p w → step key_of_seed p w = (outcome st, w).
Proof.
  intros Hwf (g & Hfind & Hattrs & Howners & Ht & Hkey).
  unfold step. rewrite (upsert_settled _ _ _ Hwf Hfind Hattrs).
  rewrite (add_owners_settled _ _ _ Howners).
  by apply key_and_identity_settled.
Qed.

(** *** A settled project stays settled while others are processed *)

Lemma find_user_by_username_extends q w w' n :
  extends q w w' → n ≠ default_name q →
  find_user_by_username n w' = find_user_by_username n w.
Proof.
  intros (_ & _ & _ & (us & Hu & Hn) & _) Hne.
  unfold find_user_by_username. rewrite Hu, find_app.
  destruct (find _ (users w)); [done|].
  destruct (find _ us) as [u|] eqn:E; [|done].
  apply find_Some_elem in E as [Hin Heq]. apply String.eqb_eq in Heq.
  rewrite Forall_forall in Hn. specialize (Hn u Hin). congruence.
Qed.

Lemma find_user_by_id_extends q w w' uid u :
  extends q w w' →
  find_user_by_id uid w = Some u → find_user_by_id uid w' = Some u.
Proof.
  intros (_ & _ & _ & (us & Hu & _) & _) E.
  unfold find_user_by_id in *. rewrite Hu. by apply find_app_Some.
Qed.

Lemma first_usid_extends q w w' fp uid :
  extends q w w' →
  first_usid (rows_for w fp) = Some uid →
  first_usid (rows_for w' fp) = Some uid.
Proof.
  intros (_ & _ & _ & _ & Hr) E. destruct (Hr fp) as [extra ->].
  unfold first_usid in *. destruct (rows_for w fp); [done|]. done.
Qed.

Lemma owner_ok_extends q g w w' pu :
  extends q w w' → email pu ≠ Some (default_name q) →
  owner_ok g w pu → owner_ok g w' pu.
Proof.
  intros He Hne. unfold owner_ok. destruct (email pu) as [n|]; [|done].
  rewrite (find_user_by_username_extends q w w' n He) by congruence.
  destruct (find_user_by_username n w); [|done].
  destruct He as (_ & _ & Hm & _). set_solver.
Qed.

Lemma owners_ok_extends q g w w' recs :
  extends q w w' →
  Forall (λ pu, email pu ≠ Some (default_name q)) recs →
  Forall (owner_ok g w) recs → Forall (owner_ok g w') recs.
Proof.
  intros He Hne Hok. rewrite Forall_forall in *.
  intros pu Hpu. eapply owner_ok_extends; eauto.
Qed.

Lemma settled_preserved st p q w w' :
  st ≠ Dangling →
  changes q w w' →
  gname p ≠ gname q →
  Forall (λ pu, email pu ≠ Some (default_name q)) (owners_of p w) →
  settled_as st p w → settled_as st p w'.
Proof.
  intros Hst [Hg He] Hpq Hne (g & Hfind & Hattrs & Howners & Ht & Hkey).
  exists g. split; [by rewrite Hg|]. split; [done|].
  split; [|split; [done|]].
  - rewrite (owners_of_same p w w') by apply He.
    by apply (owners_ok_extends q g w w').
  - destruct st; [done| |done].
    destruct Hkey as (k & uid & u & Hp & Hrow & Hne' & Hu & Hm).
    exists k, uid, u. split; [done|].
    split; [by eapply first_usid_extends|]. split; [done|].
    split; [by eapply find_user_by_id_extends|].
    destruct He as (_ & _ & Hm' & _). set_solver.
Qed.

End Settle.

Section Establish.
Context `{KeyLib} (key_of_seed : nat → PrivateKey).

(** *** The project-user loop *)

Lemma add_owner_users g w pu : users (add_owner g w pu) = users w.
Proof.
  unfold add_owner. destruct (email pu); [|done].
  by destruct (find_user_by_username _ w).
Qed.

Lemma add_owners_users g recs w : users (foldl (add_owner g) w recs) = users w.
Proof.
  revert w. induction recs as [|pu recs IH]; intros w; [done|].
  simpl. by rewrite IH, add_owner_users.
Qed.

Lemma owner_ok_same_users g w w' pu :
  users w' = users w → memberships w ⊆ memberships w' →
  owner_ok g w pu → owner_ok g w' pu.
Proof.
  intros Hu Hm. unfold owner_ok, find_user_by_username. rewrite Hu.
  destruct (email pu) as [n|]; [|done].
  destruct (find _ (users w)); [|done]. set_solver.
Qed.

Lemma add_owner_ok g w pu : owner_ok g (add_owner g w pu) pu.
Proof.
  unfold owner_ok, add_owner. destruct (email pu) as [n|]; [|done].
  destruct (find_user_by_username n w) as [u|] eqn:E.
  - unfold find_user_by_username in *. simpl. rewrite E. simpl. set_solver.
  - by rewrite E.
Qed.

Lemma add_owners_ok g recs w :
  Forall (owner_ok g (foldl (add_owner g) w recs)) recs.
Proof.
  revert w. induction recs as [|pu recs IH]; intros w; [constructor|].
  simpl. constructor; [|apply IH].
  apply (owner_ok_same_users g (add_owner g w pu)).
  - apply add_owners_users.
  - by destruct (add_owners_grows (mkProject 0 "" None) g recs
                    (add_owner g w pu)) as (_ & _ & _ & Hm & _).
  - apply add_owner_ok.
Qed.

(** *** Identity resolution *)

Lemma rows_for_usid_nonempty w fp r :
  Forall (λ l, l.1 ≠ "") (user_ssh_key w) → r ∈ rows_for w fp → usid r ≠ "".
Proof.
  intros Hl Hr. unfold rows_for in Hr.
  apply list_elem_of_fmap in Hr as (l & -> & Hin). simpl.
  apply list_elem_of_In, List.filter_In in Hin as [Hin _].
  rewrite Forall_forall in Hl. apply Hl. by apply list_elem_of_In.
Qed.

Lemma first_usid_falsy w fp :
  Forall (λ l, l.1 ≠ "") (user_ssh_key w) →
  truthy (first_usid (rows_for w fp)) = false → rows_for w fp = [].
Proof.
  intros Hl Ht. destruct (rows_for w fp) as [|r rows] eqn:E; [done|].
  assert (usid r ≠ "").
  { apply (rows_for_usid_nonempty w fp); [done|]. rewrite E. left. }
  unfold first_usid in Ht. simpl in Ht. by destruct (usid r).
Qed.

Lemma find_user_by_id_new p w :
  find_user_by_id (user_id (new_user p w)) (set_users (λ us, us ++ [new_user p w]) w)
  = Some (new_user p w).
Proof.
  unfold find_user_by_id. simpl users. rewrite find_app.
  destruct (find _ (users w)) as [u|] eqn:E.
  - apply find_Some_elem in E as [Hin Heq]. apply String.eqb_eq in Heq.
    destruct (fresh_id_fresh "u" (map user_id (users w))).
    simpl in Heq. rewrite <- Heq. apply list_elem_of_fmap. by exists u.
  - simpl. by rewrite String.eqb_refl.
Qed.

Lemma identity_settles p kp g w :
  Forall (λ l, l.1 ≠ "") (user_ssh_key w) →
  find_user_by_username (default_name p) w = None →
  let fp := getSshKeyFingerprint (public kp) in
  match resolve_identity p kp w with
  | (Ok user, w5) =>
      ∃ uid u,
        first_usid (rows_for (add_guest user g w5) fp) = Some uid
        ∧ uid ≠ ""
        ∧ find_user_by_id uid (add_guest user g w5) = Some u
        ∧ (user_id u, group_id g, "guest") ∈ memberships (add_guest user g w5)
  | (Throw e, w5) =>
      e = not_found "User" ∧ w5 = w
      ∧ ∃ uid, first_usid (rows_for w fp) = Some uid
               ∧ uid ≠ ""
               ∧ find_user_by_id uid w = None
  end.
Proof.
  intros Hl Hfresh fp. unfold resolve_identity. fold fp.
  destruct (truthy (first_usid (rows_for w fp))) eqn:Et.
  - apply truthy_default in Et as [Hrow Hne].
    set (uid := default "" (first_usid (rows_for w fp))) in *.
    destruct (find_user_by_id uid w) as [u|] eqn:Eu.
    + exists uid, u. simpl. repeat split; try done. set_solver.
    + repeat split; try done. by exists uid.
  - rewrite Hfresh. apply first_usid_falsy in Et; [|done].
    exists (user_id (new_user p w)), (new_user p w). simpl add_guest.
    split; [|split; [done|split]].
    + change (rows_for (add_member _ _ _ ?w') fp) with (rows_for w' fp).
      rewrite rows_for_link_new_user, Et, String.eqb_refl. done.
    + apply find_user_by_id_new.
    + simpl. set_solver.
Qed.

(** *** The key and identity stages settle the project *)

Section RoundTrip.
Hypothesis serialize_nonempty : ∀ k, privateToString k "openssh" ≠ "".
Hypothesis parse_serialize :
  ∀ k, ∃ k', parsePrivateKey (Some (privateToString k "openssh")) = Ok k'
             ∧ getSshKeyFingerprint (publicToString (toPublic k'))
               = getSshKeyFingerprint (publicToString (toPublic k)).

Lemma key_and_identity_settles p g w :
  Forall (λ l, l.1 ≠ "") (user_ssh_key w) →
  find_user_by_username (default_name p) w = None →
  ∃ st,
    truthy (project_privateKey (persisted key_of_seed p w)) = true
    ∧ key_ok st (persisted key_of_seed p w) g
             (key_and_identity key_of_seed p g w).2
    ∧ (key_and_identity key_of_seed p g w).1 = outcome st.
Proof.
  intros Hl Hfresh. unfold key_and_identity, key_step, persisted, save_key.
  destruct (truthy (project_privateKey p)) eqn:Ht.
  - destruct (parsePrivateKey (project_privateKey p)) as [k|e] eqn:Ep.
    + pose proof (identity_settles p (keyPairOf k) g w Hl Hfresh) as Hi.
      cbv zeta in Hi.
      destruct (resolve_identity p (keyPairOf k) w) as [[user|e] w5].
      * destruct Hi as (uid & u & ? & ? & ? & ?).
        exists Bound. split; [done|]. split; [|done].
        exists k, uid, u. done.
      * destruct Hi as (-> & -> & uid & ? & ? & ?).
        exists Dangling. split; [done|]. split; [|done].
        exists k, uid. done.
    + exists Unparseable. split; [done|]. split; [|done]. by exists e.
  - set (k := key_of_seed (keygen w)).
    assert (Hpriv : private (keyPairOf k) = privateToString k "openssh").
    { apply R_replace_all_same. }
    destruct (parse_serialize k) as (k' & Hparse & Hpub).
    set (w4 := set_project _ _).
    assert (Hl4 : Forall (λ l, l.1 ≠ "") (user_ssh_key w4)) by done.
    assert (Hf4 : find_user_by_username (default_name p) w4 = None) by done.
    pose proof (identity_settles p (keyPairOf k) g w4 Hl4 Hf4) as Hi.
    cbv zeta in Hi. simpl public in Hi. rewrite <- Hpub in Hi.
    assert (Ht' : truthy (Some (private (keyPairOf k))) = true).
    { rewrite Hpriv. apply truthy_Some, serialize_nonempty. }
    destruct (resolve_identity p (keyPairOf k) w4) as [[user|e] w5].
    + destruct Hi as (uid & u & ? & ? & ? & ?).
      exists Bound. split; [done|]. split; [|done].
      exists k', uid, u. cbn [project_privateKey]. rewrite Hpriv. done.
    + destruct Hi as (-> & -> & uid & ? & ? & ?).
      exists Dangling. split; [done|]. split; [|done].
      exists k', uid. cbn [project_privateKey]. rewrite Hpriv. done.
Qed.

End RoundTrip.

End Establish.

Section Pass.
Context `{KeyLib} (key_of_seed : nat → PrivateKey).

Lemma set_memberships_set f f' w :
  set_memberships f (set_memberships f' w) = set_memberships (λ m, f (f' m)) w.
Proof. done. Qed.

Lemma add_owner_form g w pu :
  add_owner g w pu = set_memberships (λ _, memberships (add_owner g w pu)) w.
Proof.
  unfold add_owner. destruct (email pu); [|by destruct w].
  destruct (find_user_by_username _ w); by destruct w.
Qed.

Lemma add_owners_form g recs w :
  foldl (add_owner g) w recs
  = set_memberships (λ _, memberships (foldl (add_owner g) w recs)) w.
Proof.
  revert w. induction recs as [|pu recs IH]; intros w; [by destruct w|].
  simpl. specialize (IH (add_owner g w pu)).
  remember (memberships (foldl (add_owner g) (add_owner g w pu) recs)) as M.
  rewrite IH, (add_owner_form g w pu). done.
Qed.

Lemma upsert_form p w :
  (upsert p w).2 = set_groups (λ _, groups (upsert p w).2) w.
Proof. unfold upsert. by destruct (find_group_by_name _ w). Qed.

Lemma persisted_id p w : project_id (persisted key_of_seed p w) = project_id p.
Proof. unfold persisted. by destruct (truthy _). Qed.

Lemma persisted_name p w :
  project_name (persisted key_of_seed p w) = project_name p.
Proof. unfold persisted. by destruct (truthy _). Qed.

Section RoundTrip.
Hypothesis serialize_nonempty : ∀ k, privateToString k "openssh" ≠ "".
Hypothesis parse_serialize :
  ∀ k, ∃ k', parsePrivateKey (Some (privateToString k "openssh")) = Ok k'
             ∧ getSshKeyFingerprint (publicToString (toPublic k'))
               = getSshKeyFingerprint (publicToString (toPublic k)).

(** A first pass settles the project. *)
Lemma step_settles p w :
  wf w →
  find_user_by_username (default_name p) w = None →
  Forall (λ pu, email pu ≠ Some (default_name p)) (owners_of p w) →
  ∃ st, settled_as st (persisted key_of_seed p w) (step key_of_seed p w).2
        ∧ (step key_of_seed p w).1 = outcome st.
Proof.
  intros Hwf Hfresh Hclear. unfold step.
  pose proof (upsert_groups p w Hwf) as Hu.
  pose proof (upsert_form p w) as Hform.
  destruct (upsert p w) as [g w1]. simpl in Hform.
  destruct Hu as (Hfind & Hattrs & _ & _).
  set (recs := owners_of p w1).
  assert (Hrecs : recs = owners_of p w).
  { subst recs. rewrite Hform. done. }
  pose proof (add_owners_ok g recs w1) as Hok.
  pose proof (add_owners_form g recs w1) as Hform2.
  pose proof (add_owners_grows p g recs w1) as [Hg2 _].
  set (w2 := foldl (add_owner g) w1 recs) in *.
  assert (Hl2 : Forall (λ l, l.1 ≠ "") (user_ssh_key w2)).
  { rewrite Hform2, Hform. apply Hwf. }
  assert (Hf2 : find_user_by_username (default_name p) w2 = None).
  { rewrite Hform2, Hform. exact Hfresh. }
  assert (Hp2 : persisted key_of_seed p w2 = persisted key_of_seed p w).
  { unfold persisted. rewrite Hform2, Hform. done. }
  destruct (key_and_identity_settles key_of_seed serialize_nonempty
              parse_serialize p g w2 Hl2 Hf2) as (st & Ht & Hkey & Hout).
  pose proof (key_and_identity_grows key_of_seed p g w2) as [Hg3 He3].
  rewrite Hp2 in Ht, Hkey.
  exists st. split; [|done]. exists g.
  unfold gname. rewrite persisted_name. fold (gname p).
  split; [|split; [|split; [|done]]].
  - unfold find_group_by_name in *. by rewrite Hg3, Hg2.
  - unfold projectGroupAttributes in *. by rewrite persisted_id.
  - assert (Ho : owners_of (persisted key_of_seed p w)
                             (key_and_identity key_of_seed p g w2).2 = recs).
    { unfold owners_of. rewrite persisted_id.
      destruct He3 as (-> & _). subst recs. rewrite Hform2. done. }
    rewrite Ho.
    apply (owners_ok_extends p g w2); [done| |done]. by rewrite Hrecs.
Qed.

End RoundTrip.

(** The project rows after a pass. *)
Lemma step_project p w :
  project (step key_of_seed p w).2
  = if truthy (project_privateKey p) then project w
    else map (write_key (private (keyPairOf (key_of_seed (keygen w))))
                        (project_id p)) (project w).
Proof.
  unfold step. pose proof (upsert_form p w) as Hform.
  destruct (upsert p w) as [g w1]. simpl in Hform.
  pose proof (add_owners_form g (owners_of p w1) w1) as Hform2.
  set (w2 := foldl _ _ _) in *.
  assert (Hp : project w2 = project w) by (by rewrite Hform2, Hform).
  assert (Hk : keygen w2 = keygen w) by (by rewrite Hform2, Hform).
  unfold key_and_identity, key_step, save_key.
  destruct (truthy (project_privateKey p)).
  - destruct (parsePrivateKey _) as [k|e]; [|done].
    unfold resolve_identity. destruct (truthy _).
    + by destruct (find_user_by_id _ w2).
    + destruct (find_user_by_username _ w2); [done|]. done.
  - rewrite <- Hp, <- Hk. unfold resolve_identity. destruct (truthy _).
    + by destruct (find_user_by_id _ _).
    + by destruct (find_user_by_username _ _).
Qed.

Lemma step_customer p w : customer (step key_of_seed p w).2 = customer w.
Proof.
  unfold step. pose proof (upsert_form p w) as Hform.
  destruct (upsert p w) as [g w1]. simpl in Hform.
  pose proof (add_owners_grows p g (owners_of p w1) w1) as [_ (_ & Hc2 & _)].
  pose proof (key_and_identity_grows key_of_seed p g
                (foldl (add_owner g) w1 (owners_of p w1))) as [_ (_ & Hc3 & _)].
  rewrite Hc3, Hc2, Hform. done.
Qed.

End Pass.

Section Loop.
Context `{KeyLib} (key_of_seed : nat → PrivateKey).

Lemma run_loop_settled ps rest w :
  wf w → Forall (quiet w) ps →
  run_loop key_of_seed (ps ++ rest) w = run_loop key_of_seed rest w.
Proof.
  intros Hwf. induction 1 as [|p ps (st & Hst & Hp) _ IH]; [done|].
  simpl. rewrite (settled_step key_of_seed st p w Hwf Hp).
  by destruct st.
Qed.

Lemma owners_of_emails p w pu :
  pu ∈ owners_of p w → ∃ r, r ∈ project_user w ∧ email pu = r.2.
Proof.
  unfold owners_of. intros Hin.
  apply list_elem_of_fmap in Hin as (r & -> & Hr).
  apply list_elem_of_filter in Hr as [_ Hr]. by exists r.
Qed.

Lemma emails_clear_owners names w p q :
  emails_clear names w → project_name q ∈ names →
  Forall (λ pu, email pu ≠ Some (default_name q)) (owners_of p w).
Proof.
  intros Hc Hq. apply Forall_forall. intros pu Hpu.
  apply owners_of_emails in Hpu as (r & Hr & ->). by apply Hc.
Qed.

Lemma map_write_key k p done todo rows :
  NoDup (map project_id (done ++ p :: todo)) →
  map row_project rows = done ++ p :: todo →
  map row_project (map (write_key k (project_id p)) rows)
  = done ++ mkProject (project_id p) (project_name p) (Some k) :: todo.
Proof.
  intros Hnd Hrows. rewrite map_map.
  assert (Hw : ∀ r, row_project (write_key k (project_id p) r)
                    = if project_id (row_project r) =? project_id p
                      then mkProject (project_id (row_project r))
                                     (project_name (row_project r)) (Some k)
                      else row_project r).
  { intros r. unfold write_key. by destruct (_ =? _). }
  erewrite map_ext by apply Hw.
  rewrite <- (map_map row_project
                (λ q, if project_id q =? project_id p
                      then mkProject (project_id q) (project_name q) (Some k)
                      else q)).
  rewrite Hrows, map_app. simpl. rewrite Z.eqb_refl.
  rewrite map_app in Hnd. simpl in Hnd.
  apply NoDup_app in Hnd as (_ & Hdisj & Htl).
  apply NoDup_cons in Htl as [Hnotin _].
  f_equal; [|f_equal].
  - rewrite <- (map_id done) at 2. apply map_ext_in. intros q Hq.
    destruct (project_id q =? project_id p) eqn:E; [|done].
    apply Z.eqb_eq in E. destruct (Hdisj (project_id q)).
    + apply list_elem_of_fmap. exists q. split; [done|]. by apply list_elem_of_In.
    + rewrite E. left.
  - rewrite <- (map_id todo) at 2. apply map_ext_in. intros q Hq.
    destruct (project_id q =? project_id p) eqn:E; [|done].
    apply Z.eqb_eq in E. destruct Hnotin. rewrite <- E.
    apply list_elem_of_fmap. exists q. split; [done|]. by apply list_elem_of_In.
Qed.

Lemma step_rows p done todo w :
  NoDup (map project_id (done ++ p :: todo)) →
  map row_project (project w) = done ++ p :: todo →
  map row_project (project (step key_of_seed p w).2)
  = done ++ persisted key_of_seed p w :: todo.
Proof.
  intros Hnd Hrows. rewrite step_project. unfold persisted.
  destruct (truthy (project_privateKey p)); [done|].
  by apply map_write_key.
Qed.

Lemma backfill_row_write_key cs k pid r :
  backfill_row cs r = r → backfill_row cs (write_key k pid r) = write_key k pid r.
Proof.
  intros Hr. unfold write_key. destruct (_ =? pid); [|done]. done.
Qed.

Lemma step_backfilled p w : backfilled w → backfilled (step key_of_seed p w).2.
Proof.
  unfold backfilled. rewrite step_customer, step_project. intros Hb.
  destruct (truthy _); [done|].
  apply Forall_map. eapply Forall_impl; [exact Hb|].
  intros r Hr. by apply backfill_row_write_key.
Qed.

Lemma names_differ p q done todo :
  NoDup (map project_name (done ++ p :: todo)) →
  q ∈ done ++ todo → project_name q ≠ project_name p.
Proof.
  intros Hnd Hq Heq. rewrite map_app in Hnd. simpl in Hnd.
  apply NoDup_app in Hnd as (_ & Hdisj & Htl).
  apply NoDup_cons in Htl as [Hnotin _].
  apply elem_of_app in Hq as [Hq|Hq].
  - destruct (Hdisj (project_name p)); [|left].
    rewrite <- Heq. apply list_elem_of_fmap. by exists q.
  - destruct Hnotin. rewrite <- Heq. apply list_elem_of_fmap. by exists q.
Qed.

End Loop.

Section Fixed.
Context `{KeyLib} (key_of_seed : nat → PrivateKey).

Section RoundTrip.
Hypothesis serialize_nonempty : ∀ k, privateToString k "openssh" ≠ "".
Hypothesis parse_serialize :
  ∀ k, ∃ k', parsePrivateKey (Some (privateToString k "openssh")) = Ok k'
             ∧ getSshKeyFingerprint (publicToString (toPublic k'))
               = getSshKeyFingerprint (publicToString (toPublic k)).

(** The loop of a first run leaves a world on which the loop of a second
    run, over the project rows it then finds, changes nothing and ends
    the same way. *)
Lemma run_loop_fixed todo : ∀ done w,
  wf w →
  NoDup (map project_id (done ++ todo)) →
  NoDup (map project_name (done ++ todo)) →
  map row_project (project w) = done ++ todo →
  backfilled w →
  Forall (quiet w) done →
  names_fresh (map project_name todo) w →
  emails_clear (map project_name (done ++ todo)) w →
  let r := run_loop key_of_seed todo w in
  run_loop key_of_seed (map row_project (project r.2)) r.2 = r
  ∧ backfilled r.2 ∧ customer r.2 = customer w.
Proof.
  induction todo as [|p todo IH];
    intros done w Hwf Hids Hnames Hrows Hback Hdone Hfresh Hclear.
  { simpl. rewrite Hrows. split; [|done].
    by rewrite (run_loop_settled key_of_seed done [] w Hwf Hdone). }
  assert (Hp_in : project_name p ∈ map project_name (done ++ p :: todo)).
  { rewrite map_app. apply elem_of_app. right. left. }
  assert (Hfresh_p : find_user_by_username (default_name p) w = None).
  { by apply Forall_cons in Hfresh as [? _]. }
  pose proof (emails_clear_owners _ w p p Hclear Hp_in) as Hclear_p.
  destruct (step_settles key_of_seed serialize_nonempty parse_serialize
              p w Hwf Hfresh_p Hclear_p) as (st & Hset & Hout).
  pose proof (step_wf key_of_seed p w Hwf) as Hwf1.
  pose proof (step_changes key_of_seed p w Hwf) as Hch.
  pose proof (step_rows key_of_seed p done todo w Hids Hrows) as Hrows1.
  pose proof (step_backfilled key_of_seed p w Hback) as Hback1.
  pose proof (step_customer key_of_seed p w) as Hcust1.
  set (p' := persisted key_of_seed p w) in *.
  assert (Hdone1 : Forall (quiet (step key_of_seed p w).2) done).
  { rewrite Forall_forall in *. intros q Hq.
    destruct (Hdone q Hq) as (stq & Hstq & Hsq). exists stq. split; [done|].
    apply (settled_preserved stq q p w); try done.
    - intros Heq. apply prefix_inj in Heq.
      apply (names_differ p q done todo); [done| |done].
      apply elem_of_app. by left.
    - by apply (emails_clear_owners _ w q p Hclear). }
  simpl run_loop.
  destruct (step key_of_seed p w) as [res1 w1] eqn:Es. simpl in *.
  subst res1.
  assert (Hgo : st ≠ Dangling →
    let r := run_loop key_of_seed todo w1 in
    run_loop key_of_seed (map row_project (project r.2)) r.2 = r
    ∧ backfilled r.2 ∧ customer r.2 = customer w).
  { intros Hst. rewrite <- Hcust1.
    apply (IH (done ++ [p']) w1); try done.
    - rewrite <- app_assoc. simpl.
      rewrite map_app in *. simpl in *. unfold p'. by rewrite persisted_id.
    - rewrite <- app_assoc. simpl.
      rewrite map_app in *. simpl in *. unfold p'. by rewrite persisted_name.
    - by rewrite <- app_assoc.
    - apply Forall_app. split; [done|]. constructor; [|done]. by exists st.
    - apply Forall_cons in Hfresh as [_ Hfresh].
      unfold names_fresh in *. rewrite Forall_forall in *. intros n Hn.
      apply list_elem_of_fmap in Hn as (q & -> & Hq).
      fold (default_name q).
      rewrite (find_user_by_username_extends p w w1); [|apply Hch|].
      + apply Hfresh. apply list_elem_of_fmap. by exists q.
      + intros Heq. apply prefix_inj in Heq.
        apply (names_differ p q done todo); [done| |done].
        apply elem_of_app. by right.
    - destruct Hch as [_ (Hpu & _)]. intros r n Hr Hn. rewrite Hpu in Hr.
      apply (Hclear r n Hr). rewrite <- app_assoc in Hn. simpl in Hn.
      rewrite map_app in *. simpl in *. unfold p' in Hn.
      by rewrite persisted_name in Hn. }
  destruct st; [by apply Hgo|by apply Hgo|].
  (* the identity linked to the key is missing: the run stops here, and
     stops here again *)
  simpl. split; [|done]. rewrite Hrows1.
  rewrite (run_loop_settled key_of_seed done (p' :: todo) w1 Hwf1 Hdone1).
  simpl. by rewrite (settled_step key_of_seed Dangling p' w1 Hwf1 Hset).
Qed.

End RoundTrip.
End Fixed.

Section Migration.
Context `{KeyLib} (key_of_seed : nat → PrivateKey).
#[local] Hint Extern 0 (Services World) =>
  exact (spec_services key_of_seed) : typeclass_instances.

Lemma sw_for_of ps w :
  (result (for_of ps (processProject (H0 := spec_services key_of_seed)) w),
   world (for_of ps (processProject (H0 := spec_services key_of_seed)) w))
  = run_loop key_of_seed ps w.
Proof.
  revert w. induction ps as [|p ps IH]; intros w; [done|].
  pose proof (sw_processProject key_of_seed p w) as Hp. simpl run_loop.
  destruct (step key_of_seed p w) as [[[]|e] w1].
  - assert (Hr : result (processProject (H0 := spec_services key_of_seed) p w) = Ok tt)
      by congruence.
    assert (Hw : world (processProject (H0 := spec_services key_of_seed) p w) = w1)
      by congruence.
    rewrite (for_of_cons _ _ _ _ Hr). cbn [result world]. rewrite Hw. apply IH.
  - assert (Hr : result (processProject (H0 := spec_services key_of_seed) p w) = Throw e)
      by congruence.
    assert (Hw : world (processProject (H0 := spec_services key_of_seed) p w) = w1)
      by congruence.
    rewrite (for_of_cons_throw _ _ _ _ _ Hr). cbn [result world]. by rewrite Hw.
Qed.

(** The whole script over the collaborators of the specification. *)
Lemma sw_migration w :
  (result (migration (H0 := spec_services key_of_seed) w),
   world (migration (H0 := spec_services key_of_seed) w))
  = run_loop key_of_seed (map row_project (project (backfill w))) (backfill w).
Proof.
  pose proof (sw_for_of (map row_project (project (backfill w))) (backfill w))
    as Hl.
  unfold migration. unfold_m. simpl.
  fold (backfill w).
  destruct (run_loop key_of_seed _ (backfill w)) as [[[]|e] w1];
    injection Hl as Hr Hw; rewrite Hr; simpl; by rewrite Hw.
Qed.

Lemma backfill_row_id cs r :
  project_id (row_project (backfill_row cs r)) = project_id (row_project r).
Proof.
  unfold backfill_row. destruct (project_privateKey _); [done|].
  by destruct (find _ cs).
Qed.

Lemma backfill_row_name cs r :
  project_name (row_project (backfill_row cs r)) = project_name (row_project r).
Proof.
  unfold backfill_row. destruct (project_privateKey _); [done|].
  by destruct (find _ cs).
Qed.

Lemma backfill_row_idem cs r :
  backfill_row cs (backfill_row cs r) = backfill_row cs r.
Proof.
  unfold backfill_row.
  destruct (project_privateKey (row_project r)) eqn:Ek; [by rewrite Ek|].
  destruct (find _ cs) as [c|] eqn:Ec; simpl; [|by rewrite Ek, Ec].
  destruct (customer_private_key c) eqn:Ekc; [done|]. by rewrite Ec, Ekc.
Qed.

Lemma backfill_backfilled w : backfilled w → backfill w = w.
Proof.
  intros Hb. apply set_project_id. rewrite <- (map_id (project w)) at 2.
  apply map_ext_in. intros r Hr. unfold backfilled in Hb.
  rewrite Forall_forall in Hb. apply Hb. by apply list_elem_of_In.
Qed.

End Migration.

Section Dedup.
Context `{KeyLib} (key_of_seed : nat → PrivateKey).
#[local] Hint Extern 0 (Services World) =>
  exact (spec_services key_of_seed) : typeclass_instances.

Lemma later_refl w : later w w.
Proof.
  split; [exists []|intros fp; exists []]; by rewrite app_nil_r.
Qed.

Lemma later_trans w1 w2 w3 : later w1 w2 → later w2 w3 → later w1 w3.
Proof.
  intros [(us1 & Hu1) Hr1] [(us2 & Hu2) Hr2]. split.
  - exists (us1 ++ us2). by rewrite Hu2, Hu1, app_assoc.
  - intros fp. destruct (Hr1 fp) as [e1 He1]. destruct (Hr2 fp) as [e2 He2].
    exists (e1 ++ e2). by rewrite He2, He1, app_assoc.
Qed.

Lemma extends_later q w w' : extends q w w' → later w w'.
Proof. intros (_ & _ & _ & (us & Hu & _) & Hr). split; [by exists us|done]. Qed.

(** Every pass of the loop body leads to a later world. *)
Lemma processProject_later q w :
  wf w → later w (world (processProject (H0 := spec_services key_of_seed) q w)).
Proof.
  intros Hwf. pose proof (sw_processProject key_of_seed q w) as Hp.
  replace (world (processProject q w)) with (step key_of_seed q w).2
    by (by rewrite <- Hp).
  eapply extends_later. apply (step_changes key_of_seed q w Hwf).
Qed.

(** The identity a project resolved to is the one every later project
    with the same public key resolves to, without creating anything. *)
Lemma resolve_identity_again p1 kp1 kp2 w w2 u :
  Forall (λ l, l.1 ≠ "") (user_ssh_key w) →
  (resolve_identity p1 kp1 w).1 = Ok (Some u) →
  later (resolve_identity p1 kp1 w).2 w2 →
  public kp1 = public kp2 →
  ∃ uid, first_usid (rows_for w2 (getSshKeyFingerprint (public kp2))) = Some uid
         ∧ uid ≠ ""
         ∧ find_user_by_id uid w2 = Some u.
Proof.
  intros Hl Hres [(us & Hu) Hr] Hpub. rewrite <- Hpub.
  set (fp := getSshKeyFingerprint (public kp1)) in *.
  destruct (Hr fp) as [extra Hrows]. rewrite Hrows.
  unfold find_user_by_id. rewrite Hu.
  unfold resolve_identity in *. fold fp in Hres, Hrows, Hu |- *.
  destruct (truthy (first_usid (rows_for w fp))) eqn:Et.
  - apply truthy_default in Et as [Hrow Hne].
    set (uid := default "" (first_usid (rows_for w fp))) in *.
    destruct (find_user_by_id uid w) as [u'|] eqn:Eu; [|done].
    simpl in Hres, Hrows, Hu |- *. injection Hres as ->.
    exists uid. split; [|split; [done|]].
    + unfold first_usid in *. by destruct (rows_for w fp).
    + by apply find_app_Some.
  - apply first_usid_falsy in Et as Hempty; [|done].
    destruct (find_user_by_username (default_name p1) w); [done|].
    simpl in Hres, Hrows, Hu |- *. injection Hres as <-.
    rewrite rows_for_link_new_user, Hempty, String.eqb_refl. simpl.
    exists (user_id (new_user p1 w)). split; [done|]. split; [done|].
    apply find_app_Some. apply find_user_by_id_new.
Qed.

Lemma findOrCreateUser_again p1 kp1 p2 kp2 w w2 u :
  Forall (λ l, l.1 ≠ "") (user_ssh_key w) →
  result (findOrCreateUser (H0 := spec_services key_of_seed) p1 kp1 w) = Ok (Some u) →
  later (world (findOrCreateUser (H0 := spec_services key_of_seed) p1 kp1 w)) w2 →
  public kp1 = public kp2 →
  ∃ uid,
    findOrCreateUser (H0 := spec_services key_of_seed) p2 kp2 w2
    = mkRun [SqlSelectUserIdsBySshKeyFingerprint
               (getSshKeyFingerprint (public kp2));
             LoadUserById uid] w2 (Ok (Some u)).
Proof.
  intros Hl Hres Hlater Hpub.
  destruct (sw_findOrCreateUser key_of_seed p1 kp1 w) as [Hr Hw].
  rewrite Hr in Hres. rewrite Hw in Hlater.
  destruct (resolve_identity_again p1 kp1 kp2 w w2 u Hl Hres Hlater Hpub)
    as (uid & Hrow & Hne & Hu).
  exists uid. rewrite findOrCreateUser_cases. cbv zeta. simpl.
  fold (rows_for w2 (getSshKeyFingerprint (public kp2))).
  rewrite Hrow, (truthy_Some _ Hne). simpl.
  unfold spec_loadUserById. by rewrite Hu.
Qed.

End Dedup.

End SpecFacts.

(** ** The collaborators of the specification with failing calls *)

Module SpecFaults.
Import SpecWorld SpecPass SpecInv SpecKeys SpecFacts.

Section Dedup.
Context `{KeyLib} (key_of_seed : nat → PrivateKey).
#[local] Hint Extern 0 (Services World) =>
  exact (spec_services key_of_seed) : typeclass_instances.
#[local] Hint Extern 0 (Services (World * Faults.Plan)) =>
  exact (Faults.faulty_services (H0 := spec_services key_of_seed))
  : typeclass_instances.

Lemma later_same w w' :
  users w' = users w → ssh_key w' = ssh_key w →
  user_ssh_key w' = user_ssh_key w → later w w'.
Proof.
  intros Hu Hk Hl. split; [exists []; by rewrite app_nil_r, Hu|].
  intros fp. exists []. rewrite app_nil_r.
  unfold rows_for, key_has_fingerprint. by rewrite Hk, Hl.
Qed.

Lemma later_addUser input w : later w (spec_addUser input w).2.
Proof.
  unfold spec_addUser. destruct (find_user_by_username _ w); simpl.
  - apply later_refl.
  - split; [by eexists|]. intros fp. exists []. by rewrite app_nil_r.
Qed.

Lemma rows_for_insert input w fp :
  rows_for (spec_insertSshKey input w).2 fp = rows_for w fp.
Proof.
  unfold rows_for. simpl. f_equal. apply List.filter_ext_in. intros l Hl.
  unfold key_has_fingerprint. simpl. rewrite existsb_app. simpl.
  assert (l.2 ≠ next_key_id w)
    by (apply next_key_id_fresh_link; by apply list_elem_of_In).
  destruct (next_key_id w =? l.2) eqn:E; [apply Z.eqb_eq in E; done|].
  simpl. by rewrite orb_false_r.
Qed.

Lemma later_insertSshKey input w : later w (spec_insertSshKey input w).2.
Proof.
  split; [exists []; by rewrite app_nil_r|].
  intros fp. exists []. by rewrite app_nil_r, rows_for_insert.
Qed.

Lemma rows_for_link skid uid w fp :
  rows_for (spec_addSshKeyToUser skid uid w).2 fp
  = rows_for w fp
    ++ (if key_has_fingerprint w fp skid then [mkUserIdRow uid] else []).
Proof.
  unfold rows_for. simpl. rewrite List.filter_app, map_app. f_equal.
  simpl. unfold key_has_fingerprint at 1. simpl.
  fold (key_has_fingerprint w fp skid).
  by destruct (key_has_fingerprint w fp skid).
Qed.

Lemma later_addSshKeyToUser skid uid w :
  later w (spec_addSshKeyToUser skid uid w).2.
Proof.
  split; [exists []; by rewrite app_nil_r|].
  intros fp. rewrite rows_for_link. by eexists.
Qed.

Lemma later_under_refl s : later_under s s.
Proof. split; [apply later_refl|done]. Qed.

Lemma later_under_trans a b c :
  later_under a b → later_under b c → later_under a c.
Proof.
  intros [H1 E1] [H2 E2]. split; [by eapply later_trans|by rewrite E2].
Qed.

Lemma inject_later {A} ev (op : Op World A) s :
  (∀ w, later w (op w).2) → later_under s (Faults.inject ev op s).2.
Proof.
  intros Hop. unfold Faults.inject. destruct (s.2 ev).
  - apply later_under_refl.
  - specialize (Hop s.1). destruct (op s.1) as [r w']. by split.
Qed.

(** Whatever calls fail, the calls of the loop only add identities and
    key links, after the existing ones. *)
Lemma faulty_services_keep :
  services_keep (H0 := Faults.faulty_services (H0 := spec_services key_of_seed))
                later_under.
Proof.
  repeat split; intros; cbn; apply inject_later; intros w';
    try (apply later_addUser || apply later_insertSshKey
         || apply later_addSshKeyToUser).
  all: unfold spec_loadGroupByName, spec_updateGroup, spec_addGroup,
         spec_projectUsers, spec_loadUserByUsername, spec_addUserToGroup,
         spec_generatePrivateKey, spec_updateProjectKey, spec_selectUserIds,
         spec_loadUserById;
       repeat case_match; by apply later_same.
Qed.

Lemma processProject_later_under q (s : World * Faults.Plan) :
  later_under s (world (processProject q s)).
Proof.
  apply (processProject_keeps later_under later_under_refl later_under_trans
           faulty_services_keep q s).
Qed.

Lemma loop_later_under projects (s : World * Faults.Plan) :
  later_under s (world (for_of projects processProject s)).
Proof.
  apply (loop_keeps later_under later_under_refl later_under_trans
           faulty_services_keep projects s).
Qed.

Lemma bound_to_later w w' fp u : bound_to w fp u → later w w' → bound_to w' fp u.
Proof.
  intros (uid & Hrow & Hne & Hu) [(us & Hus) Hr]. exists uid.
  destruct (Hr fp) as [extra ->]. split; [|split; [done|]].
  - unfold first_usid in *. by destruct (rows_for w fp).
  - unfold find_user_by_id in *. rewrite Hus. by apply find_app_Some.
Qed.

Lemma resolve_identity_binds p kp w u :
  Forall (λ l, l.1 ≠ "") (user_ssh_key w) →
  (resolve_identity p kp w).1 = Ok (Some u) →
  bound_to (resolve_identity p kp w).2 (getSshKeyFingerprint (public kp)) u.
Proof.
  intros Hl Hres.
  apply (resolve_identity_again p kp kp w _ u Hl Hres); [apply later_refl|done].
Qed.

Ltac logged_failure :=
  let Hres := fresh in
  let Hlog := fresh in
  intros Hres Hlog; try discriminate Hres; exfalso;
  repeat (let Hev := fresh in
          apply Forall_cons in Hlog as [Hev Hlog]; try discriminate Hev).

(** A resolution that yields an identity and logs nothing went as it
    goes without failures. *)
Lemma complete_resolution (plan : Faults.Plan) p kp (w : World) u :
  let first := findOrCreateUser p kp (w, plan) in
  result first = Ok (Some u) →
  Forall (λ ev, is_log ev = false) (events first) →
  (resolve_identity p kp w).1 = Ok (Some u)
  ∧ (world first).1 = (resolve_identity p kp w).2.
Proof.
  cbv zeta. rewrite findOrCreateUser_cases. cbv zeta.
  unfold resolve_identity. cbn. unfold Faults.inject. cbn.
  destruct (plan (SqlSelectUserIdsBySshKeyFingerprint _)); [done|].
  cbn. fold (rows_for w (getSshKeyFingerprint (public kp))).
  destruct (truthy (first_usid _)).
  - destruct (plan (LoadUserById _)); [done|]. unfold spec_loadUserById.
    destruct (find_user_by_id _ w); cbn.
    + intros Hx _. injection Hx as ->. done.
    + intros Hx. discriminate Hx.
  - rewrite createDefaultUser_cases. cbv zeta. cbn. unfold Faults.inject. cbn.
    destruct (plan (AddUser _)); [cbn; by logged_failure|].
    unfold spec_addUser. cbn. fold (default_name p).
    destruct (find_user_by_username (default_name p) w);
      [cbn; by logged_failure|].
    cbn. destruct (plan (SqlInsertSshKey _)); [cbn; by logged_failure|].
    cbn. destruct (plan (SqlAddSshKeyToUser _ _)); [cbn; by logged_failure|].
    cbn. intros Hx _. by injection Hx as <-.
Qed.

(** Where the index yields an identity, a resolution loads it and
    creates nothing. *)
Lemma bound_resolution p kp (s : World * Faults.Plan) u :
  let fp := getSshKeyFingerprint (public kp) in
  bound_to s.1 fp u →
  ∃ uid,
    findOrCreateUser p kp s =
      match s.2 (SqlSelectUserIdsBySshKeyFingerprint fp) with
      | Some e => mkRun [SqlSelectUserIdsBySshKeyFingerprint fp] s (Throw e)
      | None =>
          match s.2 (LoadUserById uid) with
          | Some e =>
              mkRun [SqlSelectUserIdsBySshKeyFingerprint fp; LoadUserById uid]
                    s (Throw e)
          | None =>
              mkRun [SqlSelectUserIdsBySshKeyFingerprint fp; LoadUserById uid]
                    s (Ok (Some u))
          end
      end.
Proof.
  intros fp (uid & Hrow & Hne & Hu). exists uid.
  rewrite findOrCreateUser_cases. cbv zeta. fold fp.
  destruct s as [w plan]. cbn in *. unfold Faults.inject. cbn.
  destruct (plan (SqlSelectUserIdsBySshKeyFingerprint fp)); [done|].
  cbn. fold (rows_for w fp). rewrite Hrow, (truthy_Some _ Hne). cbn.
  destruct (plan (LoadUserById uid)); [done|].
  unfold spec_loadUserById. by rewrite Hu.
Qed.

Lemma shared_key_resolution (plan : Faults.Plan) p1 p2 kp1 kp2 (w : World)
    (s2 : World * Faults.Plan) u :
  Forall (λ l, l.1 ≠ "") (user_ssh_key w) →
  let first := findOrCreateUser p1 kp1 (w, plan) in
  result first = Ok (Some u) →
  Forall (λ ev, is_log ev = false) (events first) →
  later_under (world first) s2 →
  public kp1 = public kp2 →
  let fp := getSshKeyFingerprint (public kp2) in
  ∃ uid,
    findOrCreateUser p2 kp2 s2 =
      match s2.2 (SqlSelectUserIdsBySshKeyFingerprint fp) with
      | Some e => mkRun [SqlSelectUserIdsBySshKeyFingerprint fp] s2 (Throw e)
      | None =>
          match s2.2 (LoadUserById uid) with
          | Some e =>
              mkRun [SqlSelectUserIdsBySshKeyFingerprint fp; LoadUserById uid]
                    s2 (Throw e)
          | None =>
              mkRun [SqlSelectUserIdsBySshKeyFingerprint fp; LoadUserById uid]
                    s2 (Ok (Some u))
          end
      end.
Proof.
  intros Hl first Hres Hlog [Hlater _] Hpub fp. subst first.
  destruct (complete_resolution plan p1 kp1 w u Hres Hlog) as [Hr Hw].
  apply bound_resolution. subst fp. rewrite <- Hpub.
  eapply bound_to_later; [|exact Hlater]. rewrite Hw.
  by apply resolve_identity_binds.
Qed.

End Dedup.
End SpecFaults.

(** ** The claims over the collaborators of the specification *)

Module SpecClaims.
Import SpecWorld SpecPass SpecInv SpecKeys SpecFacts SpecFaults.

Section Claims.
Context `{KeyLib} (key_of_seed : nat → PrivateKey).
#[local] Hint Extern 0 (Services World) =>
  exact (spec_services key_of_seed) : typeclass_instances.
#[local] Hint Extern 0 (Services (World * Faults.Plan)) =>
  exact (Faults.faulty_services (H0 := spec_services key_of_seed))
  : typeclass_instances.



End Claims.
End SpecClaims.

(** ** Concrete runs *)

Module Runs.
Import SpecWorld SpecPass SpecInv SpecKeys SpecFacts SpecClaims Examples.

#[local] Existing Instance ToyKeys.toy_keys.
#[local] Existing Instance services.
#[local] Existing Instance faulty.

Lemma toy_serialize_nonempty (k : PrivateKey) : privateToString k "openssh" ≠ "".
Proof. done. Qed.

Lemma toy_parse_serialize (k : PrivateKey) :
  ∃ k', parsePrivateKey (Some (privateToString k "openssh")) = Ok k'
        ∧ getSshKeyFingerprint (publicToString (toPublic k'))
               = getSshKeyFingerprint (publicToString (toPublic k)).
Proof. by exists k. Qed.

Lemma acme_world_data_model : data_model acme_world.
Proof.
  split; [split|split]; simpl.
  - constructor.
  - constructor.
  - apply NoDup_singleton.
  - apply NoDup_singleton.
Defined.

Lemma acme_world_default_names_unused : default_names_unused acme_world.
Proof.
  split.
  - by repeat constructor.
  - intros r n Hr Hn. simpl in *.
    apply list_elem_of_singleton in Hr, Hn. by subst.
Defined.



(** The write-back of the key of the first project fails: the error
    leaves the loop, and the second project is never processed. *)
Lemma C2_counterexample :
  let r := migration (two_projects, write_back_fails) in
  result r = Throw deadlock
  ∧ events r
    = [ KcSetConfig "master"; KcAuth keycloakAuth; KcSetConfig "lagoon";
        SqlBackfillKeys; SqlSelectProjects;
        Log Debug "Processing acme";
        LoadGroupByName "project-acme";
        AddGroup "project-acme" acme_attributes;
        SqlProjectUsers 7;
        GeneratePrivateKey "ed25519" None;
        SqlUpdateProjectKey "KEY:generated" 7 ].
Proof. cbv zeta. split; by vm_compute. Qed.


(** C4: the lookup of the group fails with an error that is not the
    not-found error.  The script logs it and goes on with the project:
    with no legacy project user, the key is generated and written back,
    the default user is created, and the guest membership is attempted
    with no group; with a legacy project user, the handler of the
    project-user loop throws and the run stops. *)
Theorem C4_group_failure_does_not_end_the_iteration :
  (let r := processProject acme (two_projects, group_lookup_fails) in
   result r = Ok tt
   ∧ events r
     = [ Log Debug "Processing acme";
         LoadGroupByName "project-acme";
         Log Error "Could not update group project-acme: ECONNRESET";
         SqlProjectUsers 7;
         GeneratePrivateKey "ed25519" None;
         SqlUpdateProjectKey "KEY:generated" 7;
         SqlSelectUserIdsBySshKeyFingerprint "SHA256:ssh-ed25519 generated";
         AddUser (defaultUserInput acme);
         SqlInsertSshKey acme_sshKey;
         SqlAddSshKeyToUser 1 "u";
         AddUserToGroup (Some acme_default_user) None "guest";
         guestErrorLine acme
           (mkError TypeError "Cannot read property 'id' of undefined") ])
  ∧ (let r := processProject acme (acme_world, group_lookup_fails) in
     result r = Throw unassignedGroupError
     ∧ events r
       = [ Log Debug "Processing acme";
           LoadGroupByName "project-acme";
           Log Error "Could not update group project-acme: ECONNRESET";
           SqlProjectUsers 7;
           LoadUserByUsername (Some "alice@example.com");
           AddUserToGroup (Some alice) None "owner" ]).
Proof. cbv zeta. repeat split; by vm_compute. Qed.

(** A project whose stored key text cannot be parsed: two log lines, no
    change of the world, and a normal end of the iteration. *)
Lemma C6_witness :
  project_privateKey garbled = Some "not a key"
  ∧ parsePrivateKey (Some "not a key")
    = Throw (mkError OtherError "Failed to parse the key")
  ∧ keyAndIdentitySteps garbled None empty_world
    = mkRun (keyErrorLines garbled
               (mkError OtherError "Failed to parse the key"))
            empty_world (Ok tt).
Proof.
  assert (Hk : project_privateKey garbled = Some "not a key") by reflexivity.
  assert (Hne : "not a key" ≠ "") by discriminate.
  assert (Hp : parsePrivateKey (Some "not a key")
               = Throw (mkError OtherError "Failed to parse the key"))
    by reflexivity.
  split; [exact Hk|]. split; [exact Hp|].
  exact (proj1 (C6_unparseable_key_skips_project (W := World) garbled _ _
                  Hk Hne Hp) None empty_world).
Defined.

(** A group that carries a foreign attribute keeps it in the update. *)
Lemma C7_witness :
  loadGroupByName "project-acme" foo_world = (Ok foo_group, foo_world)
  ∧ (let merged := projectGroupAttributes acme (group_attributes foo_group) in
     merged !! "type" = Some [AStr "project-default-group"]
     ∧ merged !! "lagoon-projects" = Some [ANum 7]
     ∧ merged !! "foo" = Some [AStr "bar"]
     ∧ result (upsertGroup acme "project-acme" foo_world)
       = Ok (Next (Some (mkGroup "g-1" "project-acme" merged)))).
Proof.
  assert (Hl : loadGroupByName "project-acme" foo_world
               = (Ok foo_group, foo_world)) by reflexivity.
  split; [exact Hl|].
  destruct (C7_update_merges_attributes acme "project-acme" foo_world
              foo_world foo_group Hl) as (Ht & Hp & Ho & _ & Hup).
  cbv zeta. split; [exact Ht|]. split; [exact Hp|].
  split; [rewrite (Ho "foo"); [reflexivity|discriminate|discriminate]|].
  erewrite Hup; reflexivity.
Defined.

(** A project with no stored key: one write-back, with the generated
    private text. *)
Lemma C8_witness :
  truthy (project_privateKey acme) = false
  ∧ result (keyPairStep acme acme_world) = Ok (Next acme_keyPair)
  ∧ (∃ k w', generatePrivateKey "ed25519" (project_privateKey acme) acme_world
             = (Ok k, w')
             ∧ acme_keyPair = keyPairOf k)
  ∧ List.filter is_key_write (events (keyAndIdentitySteps acme None acme_world))
    = [SqlUpdateProjectKey "KEY:generated" 7]
  ∧ map row_project
        (project (world (saveGeneratedKey acme acme_keyPair acme_world)))
    = [mkProject 7 "acme" (Some "KEY:generated")].
Proof.
  assert (Ht : truthy (project_privateKey acme) = false) by reflexivity.
  assert (Hk : result (keyPairStep acme acme_world) = Ok (Next acme_keyPair))
    by reflexivity.
  destruct (C8_key_written_back_once_iff_generated (W := World) acme)
    as (H1 & _ & H3 & H4 & _).
  split; [exact Ht|]. split; [exact Hk|].
  split; [exact (H3 acme_world acme_keyPair Ht Hk)|].
  split; [rewrite (H1 None acme_world), Hk; reflexivity|].
  rewrite (H4 acme_keyPair acme_world). reflexivity.
Defined.

(** The replacement itself leaves a carriage return where it is: the
    canonical form of the text rests on the serializer. *)
Lemma replacement_keeps_carriage_return :
  result (resolveKeyPair crlf_project empty_world)
  = Ok {| private := crlf_text; public := "ssh-ed25519 line1"
                                          +:+ String CR (String LF "line2") |}
  ∧ CR ∈ String.list_ascii_of_string crlf_text.
Proof.
  split; [by vm_compute|]. apply list_elem_of_In. vm_compute. tauto.
Qed.


(** The key record cannot be inserted: the creation path fails after the
    user was created, and the guest membership is attempted with that
    user, not with an undefined one. *)
Lemma C10_counterexample :
  let r := identitySteps acme acme_keyPair (Some acme_group)
                         (empty_world, key_insert_fails) in
  result r = Ok tt
  ∧ events r
    = [ SqlSelectUserIdsBySshKeyFingerprint "SHA256:ssh-ed25519 generated";
        AddUser (defaultUserInput acme);
        SqlInsertSshKey acme_sshKey;
        createErrorLine acme deadlock;
        AddUserToGroup (Some acme_default_user) (Some acme_group) "guest" ].
Proof. cbv zeta. split; by vm_compute. Qed.

(** The identity provider refuses the new user: the guest membership is
    attempted with no user. *)
Lemma C10_witness :
  sql_selectUserIdsBySshKeyFingerprint
    (getSshKeyFingerprint (public acme_keyPair)) (empty_world, add_user_fails)
  = (Ok [], (empty_world, add_user_fails))
  ∧ truthy (first_usid []) = false
  ∧ result (identitySteps acme acme_keyPair (Some acme_group)
                          (empty_world, add_user_fails)) = Ok tt
  ∧ events (identitySteps acme acme_keyPair (Some acme_group)
                          (empty_world, add_user_fails))
    = [ SqlSelectUserIdsBySshKeyFingerprint "SHA256:ssh-ed25519 generated";
        AddUser (defaultUserInput acme);
        createErrorLine acme reset;
        AddUserToGroup None (Some acme_group) "guest";
        guestErrorLine acme
          (mkError TypeError "Cannot read property 'id' of undefined") ].
Proof.
  assert (Hs : sql_selectUserIdsBySshKeyFingerprint
                 (getSshKeyFingerprint (public acme_keyPair))
                 (empty_world, add_user_fails)
               = (Ok [], (empty_world, add_user_fails))) by reflexivity.
  assert (Ht : truthy (first_usid []) = false) by reflexivity.
  split; [exact Hs|]. split; [exact Ht|].
  destruct (C10_guest_add_follows_failed_creation acme acme_keyPair
              (Some acme_group) _ _ _ Hs Ht) as (_ & Hid & _).
  rewrite Hid. split; [reflexivity|]. by vm_compute.
Defined.



End Runs.

(** * Further properties of the script *)

Section RunProps.
Context {W : Type} `{Services W}.

Lemma processProject_emits (P : Event → Prop) project w :
  (∀ ev, is_debug ev = false → closes_run ev = false →
         is_startup ev = false → P ev) →
  P (processingLine project) →
  emits P (processProject project w).
Proof.
  intros HP Hline.
  unfold processProject, groupAndUsersSteps, upsertGroup, addProjectUsers,
    addProjectUser, prop_name, keyAndIdentitySteps, keyPairStep, resolveKeyPair,
    saveGeneratedKey, identitySteps, findOrCreateUser, createDefaultUser, addGuest.
  rewrite resolvePrivateKey_cases. unfold lift_result.
  repeat emits_step; try (apply HP; reflexivity); try done; try constructor.
Qed.

Lemma for_of_processProject_emits (P : Event → Prop) projects w :
  (∀ ev, is_debug ev = false → closes_run ev = false →
         is_startup ev = false → P ev) →
  (∀ project, P (processingLine project)) →
  emits P (for_of projects processProject w).
Proof.
  intros HP Hline. apply emits_for_of. intros project w'.
  by apply processProject_emits.
Qed.

Lemma bind_call_ok {A B} ev (op : Op W A) (k : A → M W B) w a w1 :
  op w = (Ok a, w1) →
  bind (call ev op) k w
  = mkRun (ev :: events (k a w1)) (world (k a w1)) (result (k a w1)).
Proof. intros E. unfold bind, call. by rewrite E. Qed.

Lemma bind_call_throw {A B} ev (op : Op W A) (k : A → M W B) w e w1 :
  op w = (Throw e, w1) → bind (call ev op) k w = mkRun [ev] w1 (Throw e).
Proof. intros E. unfold bind, call. by rewrite E. Qed.

Ltac startup_call a e w1 :=
  match goal with
  | |- context [bind (call ?ev ?op) ?k ?w] =>
      let E := fresh "E" in
      destruct (op w) as [[a|e] w1] eqn:E;
      [rewrite (bind_call_ok ev op k w _ w1 E)
      |rewrite (bind_call_throw ev op k w e w1 E)];
      cbn [events world result]
  end.

(** What follows the startup calls: the loop, then the completion line
    and the release of the connection. *)
Lemma migration_tail projects (w : W) :
  let loop := for_of projects processProject w in
  bind (for_of projects processProject)
       (λ _, bind (log Info "Migration completed")
                  (λ _, call SqlDestroy sql_destroy)) w
  = match result loop with
    | Ok _ =>
        let '(r, w') := sql_destroy (world loop) in
        mkRun (events loop ++ [Log Info "Migration completed"; SqlDestroy])
              w' r
    | Throw e => mkRun (events loop) (world loop) (Throw e)
    end.
Proof.
  cbv zeta. unfold bind, log, call.
  destruct (result (for_of projects processProject w)) as [[]|e];
    cbn [events world result]; [|done].
  by destruct (sql_destroy _) as [[[]|e] w1].
Qed.

(** X1: the five startup calls come first, once and in this order: set
    the realm [master], authenticate, set the realm [lagoon], back-fill
    the keys, read the project rows.  A failure of one of them ends the
    run on the spot, with that error and with nothing else called; when
    all succeed, the loop over the rows that were read follows, and no
    startup call occurs again. *)
Theorem X1_migration_starts_in_order (w : W) :
  match kc_setConfig "master" w with
  | (Throw e, w1) => migration w = mkRun [KcSetConfig "master"] w1 (Throw e)
  | (Ok _, w1) =>
  match kc_auth keycloakAuth w1 with
  | (Throw e, w2) =>
      migration w
      = mkRun [KcSetConfig "master"; KcAuth keycloakAuth] w2 (Throw e)
  | (Ok _, w2) =>
  match kc_setConfig "lagoon" w2 with
  | (Throw e, w3) =>
      migration w
      = mkRun [KcSetConfig "master"; KcAuth keycloakAuth; KcSetConfig "lagoon"]
              w3 (Throw e)
  | (Ok _, w3) =>
  match sql_backfillKeys w3 with
  | (Throw e, w4) =>
      migration w
      = mkRun [KcSetConfig "master"; KcAuth keycloakAuth; KcSetConfig "lagoon";
               SqlBackfillKeys] w4 (Throw e)
  | (Ok _, w4) =>
  match sql_selectProjects w4 with
  | (Throw e, w5) => migration w = mkRun startupCalls w5 (Throw e)
  | (Ok projects, w5) =>
      ∃ rest,
        events (migration w)
        = startupCalls ++ events (for_of projects processProject w5) ++ rest
        ∧ Forall (λ ev, is_startup ev = false)
                 (events (for_of projects processProject w5) ++ rest)
  end end end end end.
Proof.
  unfold migration. unfold mbind, M_bind.
  startup_call u1 e w1; [|done].
  startup_call u2 e w2; [|done].
  startup_call u3 e w3; [|done].
  startup_call u4 e w4; [|done].
  startup_call projects e w5; [|done].
  assert (Hloop : Forall (λ ev, is_startup ev = false)
                         (events (for_of projects processProject w5))).
  { apply for_of_processProject_emits; [done|]. by intros ?. }
  rewrite migration_tail. cbv zeta.
  destruct (result (for_of projects processProject w5)) as [[]|e].
  - destruct (sql_destroy _) as [r w6]. cbn [events].
    eexists. split; [reflexivity|].
    apply Forall_app. split; [done|]. by repeat constructor.
  - exists []. cbn [events]. by rewrite !app_nil_r.
Qed.

(** X2: the completion line and the release of the connection occur at
    most once, and only as the last two events of the run; a run without
    them has ended with an error.  When the startup calls have succeeded:
    if the loop ends normally, the run ends with the completion line and
    the release, and its outcome is the outcome of the release; if an
    error leaves the loop, the run ends there with that error, and the
    connection is never released. *)
Theorem X2_migration_closes_iff_finished (w : W) :
  ((∃ evs, events (migration w)
           = evs ++ [Log Info "Migration completed"; SqlDestroy]
           ∧ Forall (λ ev, closes_run ev = false) evs)
   ∨ (∃ e, result (migration w) = Throw e
           ∧ Forall (λ ev, closes_run ev = false) (events (migration w))))
  ∧ (∀ w1 w2 w3 w4 w5 projects,
       kc_setConfig "master" w = (Ok tt, w1) →
       kc_auth keycloakAuth w1 = (Ok tt, w2) →
       kc_setConfig "lagoon" w2 = (Ok tt, w3) →
       sql_backfillKeys w3 = (Ok tt, w4) →
       sql_selectProjects w4 = (Ok projects, w5) →
       let loop := for_of projects processProject w5 in
       Forall (λ ev, closes_run ev = false) (startupCalls ++ events loop)
       ∧ match result loop with
         | Ok _ =>
             let '(r, w6) := sql_destroy (world loop) in
             migration w
             = mkRun (startupCalls ++ events loop
                      ++ [Log Info "Migration completed"; SqlDestroy]) w6 r
         | Throw e =>
             migration w
             = mkRun (startupCalls ++ events loop) (world loop) (Throw e)
         end).
Proof.
  assert (Hloop : ∀ projects w5,
            Forall (λ ev, closes_run ev = false)
                   (events (for_of projects processProject w5))).
  { intros. apply for_of_processProject_emits; [done|]. by intros ?. }
  split.
  - unfold migration. unfold mbind, M_bind.
    startup_call u1 e w1; [|right; exists e; by repeat constructor].
    startup_call u2 e w2; [|right; exists e; by repeat constructor].
    startup_call u3 e w3; [|right; exists e; by repeat constructor].
    startup_call u4 e w4; [|right; exists e; by repeat constructor].
    startup_call projects e w5; [|right; exists e; by repeat constructor].
    rewrite migration_tail. cbv zeta.
    destruct (result (for_of projects processProject w5)) as [[]|e].
    + left. destruct (sql_destroy _) as [r w6]. cbn [events].
      eexists. split; [by rewrite !app_comm_cons|].
      repeat (apply Forall_cons; split; [done|]). apply Hloop.
    + right. exists e. cbn [events result]. split; [done|].
      repeat (apply Forall_cons; split; [done|]). apply Hloop.
  - intros w1 w2 w3 w4 w5 projects E1 E2 E3 E4 E5 loop.
    split.
    { unfold startupCalls. cbn [app].
      repeat (apply Forall_cons; split; [done|]). apply Hloop. }
    unfold migration. unfold mbind, M_bind.
    rewrite (bind_call_ok _ _ _ _ _ _ E1). 
    rewrite (bind_call_ok _ _ _ _ _ _ E2).
    rewrite (bind_call_ok _ _ _ _ _ _ E3).
    rewrite (bind_call_ok _ _ _ _ _ _ E4).
    rewrite (bind_call_ok _ _ _ _ _ _ E5).
    rewrite migration_tail. cbv zeta. fold loop.
    destruct (result loop) as [[]|e].
    + by destruct (sql_destroy (world loop)) as [r w6].
    + done.
Qed.

End RunProps.

Section GroupProps.
Context {W : Type} `{Services W}.

Lemma projectGroupAttributes_empty project :
  projectGroupAttributes project ∅ = newGroupAttributes project.
Proof.
  apply map_eq. intros k. unfold projectGroupAttributes, newGroupAttributes.
  destruct (decide (k = "lagoon-projects")) as [->|]; [by simplify_map_eq|].
  destruct (decide (k = "type")) as [->|]; by simplify_map_eq.
Qed.

Lemma upsertGroup_not_found project n w e w1 :
  loadGroupByName n w = (Throw e, w1) →
  instanceof_GroupNotFoundError e = true →
  upsertGroup project n w =
    match addGroup n (newGroupAttributes project) w1 with
    | (Ok g, w2) =>
        mkRun [LoadGroupByName n; AddGroup n (newGroupAttributes project)]
              w2 (Ok (Next (Some g)))
    | (Throw e', w2) =>
        mkRun [LoadGroupByName n; AddGroup n (newGroupAttributes project);
               addGroupErrorLine n e'] w2 (Ok Continue)
    end.
Proof.
  intros Hload Hnf. unfold upsertGroup. unfold_m. rewrite Hload. simpl.
  rewrite Hnf, projectGroupAttributes_empty.
  by destruct (addGroup _ _ w1) as [[g|e'] w2].
Qed.

(** X3: a group that is not found is created under the name
    [project-<name>], with exactly the two attributes [type] and
    [lagoon-projects]; the script goes on with the group that the
    creation returns. *)
Theorem X3_missing_group_is_created (project : Project) (w w1 w2 : W)
    (e : JsError) (g : Group) :
  let n := "project-" +:+ project_name project in
  let attrs : Attributes :=
    {[ "type" := [AStr "project-default-group"];
       "lagoon-projects" := [ANum (project_id project)] ]} in
  loadGroupByName n w = (Throw e, w1) →
  instanceof_GroupNotFoundError e = true →
  addGroup n attrs w1 = (Ok g, w2) →
  upsertGroup project n w
  = mkRun [LoadGroupByName n; AddGroup n attrs] w2 (Ok (Next (Some g))).
Proof.
  intros n attrs Hload Hnf Hadd.
  rewrite (upsertGroup_not_found _ _ _ _ _ Hload Hnf).
  change (newGroupAttributes project) with attrs. by rewrite Hadd.
Qed.

Lemma groupAndUsersSteps_cases project w :
  groupAndUsersSteps project w =
    let u := upsertGroup project ("project-" +:+ project_name project) w in
    match result u with
    | Ok (Next g) =>
        let a := addProjectUsers project g (world u) in
        mkRun (processingLine project :: events u ++ events a) (world a)
              (map_result (λ _, Next g) (result a))
    | Ok Continue =>
        mkRun (processingLine project :: events u) (world u) (Ok Continue)
    | Throw e => mkRun (processingLine project :: events u) (world u) (Throw e)
    end.
Proof.
  unfold groupAndUsersSteps. cbv zeta.
  unfold mbind, M_bind, mret, M_ret, bind, log, ret, processingLine.
  cbn [events world result].
  destruct (result (upsertGroup project _ w)) as [[g|]|e];
    cbn [events world result app].
  - destruct (result (addProjectUsers project g _)) as [[]|e];
      cbn [events world result app map_result]; by rewrite ?app_nil_r.
  - by rewrite !app_nil_r.
  - done.
Qed.

Lemma processProject_cases project w :
  processProject project w =
    let s := groupAndUsersSteps project w in
    match result s with
    | Ok (Next g) =>
        let k := keyAndIdentitySteps project g (world s) in
        mkRun (events s ++ events k) (world k) (result k)
    | Ok Continue => mkRun (events s) (world s) (Ok tt)
    | Throw e => mkRun (events s) (world s) (Throw e)
    end.
Proof.
  unfold processProject. cbv zeta. unfold mbind, M_bind, mret, M_ret, bind, ret.
  destruct (result (groupAndUsersSteps project w)) as [[g|]|e];
    cbn [events world result]; by rewrite ?app_nil_r.
Qed.

Lemma processProject_skipped project w :
  result (upsertGroup project ("project-" +:+ project_name project) w)
  = Ok Continue →
  processProject project w
  = mkRun (processingLine project
           :: events (upsertGroup project
                        ("project-" +:+ project_name project) w))
          (world (upsertGroup project
                    ("project-" +:+ project_name project) w))
          (Ok tt).
Proof.
  intros E. rewrite processProject_cases, groupAndUsersSteps_cases.
  cbv zeta. by rewrite E.
Qed.

(** X4: when the creation of the group fails, the project is skipped: the
    failure is logged and nothing else is done for the project. *)
Theorem X4_failed_group_creation_skips_project (project : Project) (w w1 w2 : W)
    (e e' : JsError) :
  let n := "project-" +:+ project_name project in
  let attrs : Attributes :=
    {[ "type" := [AStr "project-default-group"];
       "lagoon-projects" := [ANum (project_id project)] ]} in
  loadGroupByName n w = (Throw e, w1) →
  instanceof_GroupNotFoundError e = true →
  addGroup n attrs w1 = (Throw e', w2) →
  processProject project w
  = mkRun [ processingLine project; LoadGroupByName n; AddGroup n attrs;
            Log Error ("Could not add group " +:+ n +:+ ": " +:+ message e') ]
          w2 (Ok tt).
Proof.
  intros n attrs Hload Hnf Hadd.
  pose proof (upsertGroup_not_found project n w e w1 Hload Hnf) as Hu.
  change (newGroupAttributes project) with attrs in Hu. rewrite Hadd in Hu.
  rewrite processProject_skipped; fold n; rewrite Hu; reflexivity.
Qed.

(** X5: a not-found error raised by the update of a group that was loaded
    takes the creation path too: a group of the same name is created
    with the two attributes only. *)
Theorem X5_update_not_found_creates_group (project : Project) (w w1 w2 : W)
    (existingGroup : Group) (e : JsError) :
  let n := "project-" +:+ project_name project in
  let input :=
    mkGroup (group_id existingGroup) (group_name existingGroup)
            (projectGroupAttributes project (group_attributes existingGroup)) in
  let attrs : Attributes :=
    {[ "type" := [AStr "project-default-group"];
       "lagoon-projects" := [ANum (project_id project)] ]} in
  loadGroupByName n w = (Ok existingGroup, w1) →
  updateGroup input w1 = (Throw e, w2) →
  instanceof_GroupNotFoundError e = true →
  upsertGroup project n w =
    match addGroup n attrs w2 with
    | (Ok g, w3) =>
        mkRun [LoadGroupByName n; UpdateGroup input; AddGroup n attrs]
              w3 (Ok (Next (Some g)))
    | (Throw e', w3) =>
        mkRun [LoadGroupByName n; UpdateGroup input; AddGroup n attrs;
               Log Error ("Could not add group " +:+ n +:+ ": "
                          +:+ message e')] w3 (Ok Continue)
    end.
Proof.
  intros n input attrs Hload Hup Hnf. unfold upsertGroup. unfold_m.
  rewrite Hload. cbn [events world result]. fold input. rewrite Hup.
  cbn [events world result]. rewrite Hnf, projectGroupAttributes_empty.
  change (newGroupAttributes project) with attrs.
  by destruct (addGroup n attrs w2) as [[g|e'] w3].
Qed.

End GroupProps.

(** X6: the merge of the attributes is idempotent, the last project wins,
    and the keys of the result are those of the existing group together
    with [type] and [lagoon-projects]. *)
Theorem X6_attribute_merge_is_idempotent (p q : Project) (existing : Attributes) :
  projectGroupAttributes p (projectGroupAttributes p existing)
  = projectGroupAttributes p existing
  ∧ projectGroupAttributes q (projectGroupAttributes p existing)
    = projectGroupAttributes q existing
  ∧ dom (projectGroupAttributes p existing)
    = dom existing ∪ {[ "type"; "lagoon-projects" ]}.
Proof.
  assert (Hlast : ∀ a b, projectGroupAttributes b (projectGroupAttributes a existing)
                         = projectGroupAttributes b existing).
  { intros a b. apply map_eq. intros k. unfold projectGroupAttributes.
    destruct (decide (k = "lagoon-projects")) as [->|]; [by simplify_map_eq|].
    destruct (decide (k = "type")) as [->|]; by simplify_map_eq. }
  split; [apply Hlast|]. split; [apply Hlast|].
  unfold projectGroupAttributes. rewrite !dom_insert_L.
  apply set_eq. intros k. rewrite !elem_of_union, !elem_of_singleton. tauto.
Qed.

Section LoopProps.
Context {W : Type} `{Services W}.

(** *** The project-user loop *)

Lemma owners_loop (g : Group) (records : list ProjectUser) :
  ∀ w, let r := for_of records (addProjectUser (Some g)) w in
       result r = Ok tt
       ∧ List.filter is_user_lookup (events r)
         = map (λ pu, LoadUserByUsername (email pu)) records
       ∧ Forall (λ ev, ∀ u g' role, ev = AddUserToGroup u g' role →
                       g' = Some g ∧ role = "owner" ∧ is_Some u) (events r).
Proof.
  induction records as [|pu records IH]; intros w; cbv zeta.
  - repeat split. constructor.
  - destruct (IH (world (addProjectUser (Some g) pu w))) as (Hres & Hlook & Hadd).
    assert (Hone : result (addProjectUser (Some g) pu w) = Ok tt
              ∧ List.filter is_user_lookup (events (addProjectUser (Some g) pu w))
                = [LoadUserByUsername (email pu)]
              ∧ Forall (λ ev, ∀ u g' role, ev = AddUserToGroup u g' role →
                          g' = Some g ∧ role = "owner" ∧ is_Some u)
                       (events (addProjectUser (Some g) pu w))).
    { rewrite addProjectUser_cases. cbv zeta.
      destruct (loadUserByUsername (email pu) w) as [[u|e] w1];
        [destruct (addUserToGroup (Some u) (Some g) "owner" w1) as [[[]|e] w2]|];
        cbn [events world result app]; (split; [done|]); (split; [done|]);
        repeat (apply Forall_cons; split); try (by constructor);
        intros ? ? ? [=]; subst; by eauto. }
    destruct Hone as (Hres1 & Hlook1 & Hadd1).
    rewrite (for_of_cons _ _ _ _ Hres1). cbn [events world result].
    split; [done|]. split.
    + by rewrite List.filter_app, Hlook1, Hlook.
    + by apply Forall_app.
Qed.

Lemma for_of_app {A} (xs ys : list A) (body : A → M W unit) w :
  result (for_of xs body w) = Ok tt →
  for_of (xs ++ ys) body w =
    let b := for_of xs body w in
    let a := for_of ys body (world b) in
    mkRun (events b ++ events a) (world a) (result a).
Proof.
  revert w. induction xs as [|x xs IH]; intros w Hok; cbv zeta.
  - simpl. by destruct (for_of ys body w).
  - destruct (result (body x w)) as [[]|e] eqn:E.
    + rewrite (for_of_cons _ _ _ _ E) in Hok. cbn [result] in Hok.
      rewrite <- app_comm_cons, (for_of_cons _ (xs ++ ys) _ _ E).
      rewrite (IH _ Hok). cbv zeta. cbn [events world result].
      rewrite (for_of_cons _ xs _ _ E). cbn [events world result].
      by rewrite app_assoc.
    + rewrite (for_of_cons_throw _ _ _ _ _ E) in Hok. discriminate.
Qed.

(** X7: once the group is assigned, the project-user loop looks up every
    project user, in the order of the rows, whatever happens to the
    users before, and it never throws.  The pass for a user starts in
    the world the passes before it left; it adds, to that group and as
    [owner], the user that the lookup returned, and no other; a failure
    of the lookup or of the membership is logged with the email, the name
    of the group and the message of the error. *)
Theorem X7_project_users_each_looked_up (project : Project) (g : Group)
    (records : list ProjectUser) (w w1 : W) :
  sql_projectUsers (project_id project) w = (Ok records, w1) →
  let r := addProjectUsers project (Some g) w in
  result r = Ok tt
  ∧ List.filter is_user_lookup (events r)
    = map (λ pu, LoadUserByUsername (email pu)) records
  ∧ Forall (λ ev, ∀ u g' role, ev = AddUserToGroup u g' role →
                  g' = Some g ∧ role = "owner" ∧ is_Some u) (events r)
  ∧ (∀ before pu after,
       records = before ++ pu :: after →
       let b := for_of before (addProjectUser (Some g)) w1 in
       let p := addProjectUser (Some g) pu (world b) in
       let a := for_of after (addProjectUser (Some g)) (world p) in
       events r
       = SqlProjectUsers (project_id project)
         :: events b ++ events p ++ events a
       ∧ world r = world a
       ∧ p = match loadUserByUsername (email pu) (world b) with
             | (Throw e, w2) =>
                 mkRun [LoadUserByUsername (email pu); ownerErrorLine pu g e]
                       w2 (Ok tt)
             | (Ok user, w2) =>
                 match addUserToGroup (Some user) (Some g) "owner" w2 with
                 | (Ok _, w3) =>
                     mkRun [LoadUserByUsername (email pu);
                            AddUserToGroup (Some user) (Some g) "owner"]
                           w3 (Ok tt)
                 | (Throw e, w3) =>
                     mkRun [LoadUserByUsername (email pu);
                            AddUserToGroup (Some user) (Some g) "owner";
                            ownerErrorLine pu g e] w3 (Ok tt)
                 end
             end).
Proof.
  intros Hq. cbv zeta. unfold addProjectUsers. unfold mbind, M_bind.
  rewrite (bind_call_ok _ _ _ _ _ _ Hq). cbn [events world result].
  destruct (owners_loop g records w1) as (Hres & Hlook & Hadd).
  split; [done|]. split; [|split].
  - cbn [List.filter is_user_lookup]. done.
  - constructor; [discriminate|done].
  - intros before pu after ->.
    destruct (owners_loop g before w1) as (Hb & _ & _).
    destruct (owners_loop g [pu] (world (for_of before
                (addProjectUser (Some g)) w1))) as (Hp & _ & _).
    cbv zeta in Hb, Hp.
    assert (Hp1 : result (addProjectUser (Some g) pu
                            (world (for_of before (addProjectUser (Some g)) w1)))
                  = Ok tt).
    { simpl in Hp. unfold bind in Hp.
      by destruct (result (addProjectUser (Some g) pu _)) as [[]|e]. }
    rewrite (for_of_app before (pu :: after) _ w1 Hb). cbv zeta.
    rewrite (for_of_cons pu after _ _ Hp1). cbn [events world result].
    split; [done|]. split; [done|].
    rewrite addProjectUser_cases. cbv zeta.
    destruct (loadUserByUsername (email pu) _) as [[user|e] w2]; [|done].
    by destruct (addUserToGroup (Some user) (Some g) "owner" w2)
      as [[[]|e] w3].
Qed.

(** *** Memberships *)

Lemma upsertGroup_emits_any (P : Event → Prop) project n w :
  (∀ ev, is_debug ev = false → closes_run ev = false →
         is_startup ev = false → (∀ u g r, ev ≠ AddUserToGroup u g r) → P ev) →
  emits P (upsertGroup project n w).
Proof.
  intros HP. unfold upsertGroup. repeat emits_step; by apply HP.
Qed.

Lemma addProjectUsers_emits_any (P : Event → Prop) project g w :
  (∀ ev, is_debug ev = false → closes_run ev = false →
         is_startup ev = false →
         (∀ u g' r, ev = AddUserToGroup u g' r → g' = g ∧ r = "owner") → P ev) →
  emits P (addProjectUsers project g w).
Proof.
  intros HP. unfold addProjectUsers, addProjectUser, prop_name.
  repeat emits_step; apply HP; try done; by intros ? ? ? [= <- <- <-].
Qed.

Lemma keyAndIdentitySteps_emits_any (P : Event → Prop) project g w :
  (∀ ev, is_debug ev = false → closes_run ev = false →
         is_startup ev = false →
         (∀ u g' r, ev = AddUserToGroup u g' r → g' = g ∧ r = "guest") → P ev) →
  emits P (keyAndIdentitySteps project g w).
Proof.
  intros HP.
  unfold keyAndIdentitySteps, keyPairStep, resolveKeyPair,
    saveGeneratedKey, identitySteps, findOrCreateUser, createDefaultUser, addGuest.
  rewrite resolvePrivateKey_cases. unfold lift_result.
  repeat emits_step; try constructor; apply HP; try done;
    by intros ? ? ? [= <- <- <-].
Qed.

Lemma processProject_events project w :
  let u := upsertGroup project ("project-" +:+ project_name project) w in
  ∃ rest, events (processProject project w)
          = processingLine project :: events u ++ rest
          ∧ (rest ≠ [] → ∃ g, result u = Ok (Next g)
               ∧ ∃ a k, rest = a ++ k
                  ∧ Forall (λ ev, is_debug ev = false ∧ closes_run ev = false
                              ∧ is_startup ev = false
                              ∧ ∀ u g' r, ev = AddUserToGroup u g' r →
                                          g' = g ∧ r = "owner") a
                  ∧ Forall (λ ev, is_debug ev = false ∧ closes_run ev = false
                              ∧ is_startup ev = false
                              ∧ ∀ u g' r, ev = AddUserToGroup u g' r →
                                          g' = g ∧ r = "guest") k).
Proof.
  cbv zeta. rewrite processProject_cases, groupAndUsersSteps_cases. cbv zeta.
  destruct (result (upsertGroup project _ w)) as [[g|]|e] eqn:E;
    cbn [events world result].
  - set (a := addProjectUsers project g _).
    assert (Ha : Forall (λ ev, is_debug ev = false ∧ closes_run ev = false
                              ∧ is_startup ev = false
                              ∧ ∀ u g' r, ev = AddUserToGroup u g' r →
                                          g' = g ∧ r = "owner") (events a)).
    { apply addProjectUsers_emits_any. by intros. }
    destruct (result a) as [[]|e]; cbn [events world result map_result].
    + set (k := keyAndIdentitySteps project g (world a)).
      exists (events a ++ events k).
      split; [cbn [app]; by rewrite <- app_assoc|].
      intros _. exists g. split; [done|]. exists (events a), (events k).
      split; [done|]. split; [done|].
      apply keyAndIdentitySteps_emits_any. by intros.
    + exists (events a). split; [done|]. intros _. exists g. split; [done|].
      exists (events a), []. rewrite app_nil_r. by repeat split.
  - exists []. by rewrite app_nil_r.
  - exists []. by rewrite app_nil_r.
Qed.

(** X8: every membership that an iteration adds goes to the group that the
    group step of this iteration produced, as [owner] or as [guest]; an
    iteration whose group step ended in [continue] adds none. *)
Theorem X8_memberships_only_in_own_group (project : Project) (w : W)
    (u : option User) (g : option Group) (role : string) :
  AddUserToGroup u g role ∈ events (processProject project w) →
  result (upsertGroup project ("project-" +:+ project_name project) w)
  = Ok (Next g)
  ∧ (role = "owner" ∨ role = "guest").
Proof.
  intros Hin. destruct (processProject_events project w) as (rest & Hev & Hrest).
  cbv zeta in *. rewrite Hev in Hin.
  apply elem_of_cons in Hin as [Hin|Hin]; [discriminate|].
  apply elem_of_app in Hin as [Hin|Hin].
  - pose proof (upsertGroup_emits_any
                  (λ ev, ∀ u g r, ev ≠ AddUserToGroup u g r) project
                  ("project-" +:+ project_name project) w) as Hu.
    unfold emits in Hu. rewrite Forall_forall in Hu.
    exfalso. eapply Hu; [by intros|exact Hin|reflexivity].
  - destruct Hrest as (g0 & Hg & a & k & -> & Ha & Hk).
    { intros ->. by apply elem_of_nil in Hin. }
    rewrite Forall_forall in Ha, Hk.
    apply elem_of_app in Hin as [Hin|Hin].
    + destruct (Ha _ Hin) as (_ & _ & _ & Hown).
      destruct (Hown _ _ _ eq_refl) as [-> ->]. auto.
    + destruct (Hk _ Hin) as (_ & _ & _ & Hguest).
      destruct (Hguest _ _ _ eq_refl) as [-> ->]. auto.
Qed.

(** *** The order of the projects *)

Lemma processProject_debug project w :
  List.filter is_debug (events (processProject project w))
  = [processingLine project].
Proof.
  destruct (processProject_events project w) as (rest & Hev & Hrest).
  cbv zeta in *. rewrite Hev. cbn [List.filter processingLine is_debug].
  f_equal. apply filter_none. apply Forall_app. split.
  - apply upsertGroup_emits_any. by intros.
  - destruct rest as [|ev rest]; [constructor|].
    destruct Hrest as (g0 & Hg & a & k & -> & Ha & Hk); [done|].
    apply Forall_app. split; (eapply Forall_impl; [eassumption|]);
      by intros ? (? & _).
Qed.

(** X9: the loop announces the projects in the order of the rows, each
    once: the debug lines of the loop are the [Processing] lines of an
    initial segment of the rows, and of all rows when the loop ends
    normally. *)
Theorem X9_projects_processed_in_order (projects : list Project) (w : W) :
  let r := for_of projects processProject w in
  (∃ k, (k ≤ length projects)%nat
        ∧ List.filter is_debug (events r) = map processingLine (take k projects))
  ∧ (result r = Ok tt →
     List.filter is_debug (events r) = map processingLine projects).
Proof.
  revert w. induction projects as [|project projects IH]; intros w; cbv zeta.
  - split; [exists 0%nat; by split|done].
  - destruct (result (processProject project w)) as [[]|e] eqn:E.
    + rewrite (for_of_cons _ _ _ _ E). cbn [events world result].
      rewrite List.filter_app, processProject_debug.
      destruct (IH (world (processProject project w))) as ((k & Hk & Hev) & Hok).
      split.
      * exists (S k). split; [simpl; lia|]. simpl. by rewrite Hev.
      * intros Hres. simpl. by rewrite (Hok Hres).
    + rewrite (for_of_cons_throw _ _ _ _ _ E). cbn [events world result].
      rewrite processProject_debug. split; [|done].
      exists 1%nat. split; [simpl; lia|]. simpl. by destruct projects.
Qed.

End LoopProps.

Section KeyProps.
Context {W : Type} `{Services W}.

Lemma keyPairStep_cases project w :
  keyPairStep project w =
    let r := resolveKeyPair project w in
    match result r with
    | Ok keyPair => mkRun (events r) (world r) (Ok (Next keyPair))
    | Throw e =>
        mkRun (events r ++ keyErrorLines project e) (world r) (Ok Continue)
    end.
Proof.
  unfold keyPairStep, keyErrorLines. cbv zeta.
  unfold try_catch, mbind, M_bind, bind, mret, M_ret, ret, log.
  destruct (result (resolveKeyPair project w)) as [kp|e];
    cbn [events world result app]; by rewrite ?app_nil_r.
Qed.

(** X10: when the generator of the key fails, the project is skipped as for
    a key that does not parse: the two error lines are logged, nothing is
    written back, no identity is looked up or created. *)
Theorem X10_failed_key_generation_skips_project (project : Project)
    (g : option Group) (w w1 : W) (e : JsError) :
  truthy (project_privateKey project) = false →
  generatePrivateKey "ed25519" (project_privateKey project) w = (Throw e, w1) →
  keyAndIdentitySteps project g w
  = mkRun (GeneratePrivateKey "ed25519" (project_privateKey project)
           :: keyErrorLines project e) w1 (Ok tt).
Proof.
  intros Hfalsy Hgen. rewrite keyAndIdentitySteps_cases, keyPairStep_cases.
  cbv zeta. rewrite resolveKeyPair_cases.
  destruct (project_privateKey project) as [[|a s]|]; try discriminate;
    cbv beta iota zeta; rewrite Hgen; reflexivity.
Qed.

(** X11: a generated key that cannot be written back is bound to no
    identity: the failure of the update ends the run before the
    fingerprint is looked up. *)
Theorem X11_unsaved_key_is_not_bound (project : Project) (g : option Group)
    (w w1 w2 : W) (k : PrivateKey) (e : JsError) :
  truthy (project_privateKey project) = false →
  generatePrivateKey "ed25519" (project_privateKey project) w = (Ok k, w1) →
  sql_updateProjectKey (private (keyPairOf k)) (project_id project) w1
  = (Throw e, w2) →
  keyAndIdentitySteps project g w
  = mkRun [ GeneratePrivateKey "ed25519" (project_privateKey project);
            SqlUpdateProjectKey (private (keyPairOf k)) (project_id project) ]
          w2 (Throw e).
Proof.
  intros Hfalsy Hgen Hup. rewrite keyAndIdentitySteps_cases, keyPairStep_cases.
  cbv zeta. rewrite resolveKeyPair_cases.
  destruct (project_privateKey project) as [[|a s]|] eqn:Ek; try discriminate;
    cbv beta iota zeta; rewrite Hgen; cbn [events world result map_result];
    unfold saveGeneratedKey; rewrite Ek; cbn [truthy negb]; unfold call;
    rewrite Hup; reflexivity.
Qed.

(** X12: a project whose stored key parses and whose fingerprint is linked to
    an identity: the iteration reads the link, loads the identity and
    attempts the guest membership; it generates no key, writes nothing to
    the database and creates no identity. *)
Theorem X12_bound_key_creates_nothing (project : Project) (g : option Group)
    (w w1 : W) (text : string) (k : PrivateKey) (rows : list UserIdRow)
    (uid : string) :
  project_privateKey project = Some text → text ≠ "" →
  parsePrivateKey (Some text) = Ok k →
  let fp := getSshKeyFingerprint (public (keyPairOf k)) in
  sql_selectUserIdsBySshKeyFingerprint fp w = (Ok rows, w1) →
  first_usid rows = Some uid → uid ≠ "" →
  keyAndIdentitySteps project g w =
    match loadUserById uid w1 with
    | (Throw e, w2) =>
        mkRun [SqlSelectUserIdsBySshKeyFingerprint fp; LoadUserById uid]
              w2 (Throw e)
    | (Ok user, w2) =>
        match addUserToGroup (Some user) g "guest" w2 with
        | (Ok _, w3) =>
            mkRun [SqlSelectUserIdsBySshKeyFingerprint fp; LoadUserById uid;
                   AddUserToGroup (Some user) g "guest"] w3 (Ok tt)
        | (Throw e, w3) =>
            mkRun [SqlSelectUserIdsBySshKeyFingerprint fp; LoadUserById uid;
                   AddUserToGroup (Some user) g "guest";
                   guestErrorLine project e] w3 (Ok tt)
        end
    end.
Proof.
  intros Hkey Hne Hparse fp Hsel Hfirst Huid.
  rewrite keyAndIdentitySteps_cases, keyPairStep_cases.
  cbv zeta. rewrite resolveKeyPair_cases, Hkey.
  destruct text as [|a s]; [done|]. rewrite Hparse.
  cbn [events world result map_result].
  unfold saveGeneratedKey. rewrite Hkey. cbn [truthy negb].
  unfold mret, M_ret, ret. cbn [events world result app].
  unfold identitySteps, mbind, M_bind, bind.
  rewrite findOrCreateUser_cases. cbv zeta. fold fp. rewrite Hsel, Hfirst.
  destruct uid as [|c uid]; [done|]. cbn [truthy default].
  destruct (loadUserById _ w1) as [[user|e] w2];
    cbn [events world result map_result]; [|done].
  rewrite addGuest_cases.
  by destruct (addUserToGroup (Some user) g "guest" w2) as [[[]|e] w3].
Qed.

(** *** The group variable left unassigned *)

(** With the group unassigned, a pass of the project-user loop ends
    normally only when the lookup and the membership both succeed. *)
Lemma unassigned_passes (records : list ProjectUser) :
  ∀ w, result (for_of records (addProjectUser None) w) = Ok tt →
       ∃ users,
         length users = length records
         ∧ events (for_of records (addProjectUser None) w)
           = concat (zip_with (λ pu user,
                                 [LoadUserByUsername (email pu);
                                  AddUserToGroup (Some user) None "owner"])
                              records users).
Proof.
  induction records as [|pu records IH]; intros w Hok.
  - by exists [].
  - pose proof (addProjectUser_cases None pu w) as Hone. cbv zeta in Hone.
    destruct (loadUserByUsername (email pu) w) as [[user|e] w1].
    + destruct (addUserToGroup (Some user) None "owner" w1) as [[[]|e] w2].
      * assert (E : result (addProjectUser None pu w) = Ok tt)
          by (by rewrite Hone).
        rewrite (for_of_cons _ _ _ _ E) in Hok |- *.
        cbn [result events] in *. rewrite Hone in Hok |- *.
        cbn [world events] in *.
        destruct (IH _ Hok) as (users & Hlen & Hev).
        exists (user :: users). split; [simpl; by rewrite Hlen|].
        simpl. by rewrite Hev.
      * rewrite (for_of_cons_throw _ _ _ _ unassignedGroupError) in Hok
          by (by rewrite Hone). discriminate.
    + rewrite (for_of_cons_throw _ _ _ _ unassignedGroupError) in Hok
        by (by rewrite Hone). discriminate.
Qed.

(** X13: when the lookup of the group fails with an error that is not the
    not-found error, the group variable stays unassigned.  The project
    users are then visited in order: as long as the lookup and the
    membership both succeed, the loop goes on; the first project user
    whose lookup or membership fails makes the handler of the loop throw,
    which ends the iteration and the run, the users after it not being
    visited. *)
Theorem X13_unassigned_group_ends_run (project : Project) (w w1 w2 : W)
    (e : JsError) (before : list ProjectUser) (pu : ProjectUser)
    (others : list ProjectUser) :
  let n := "project-" +:+ project_name project in
  loadGroupByName n w = (Throw e, w1) →
  instanceof_GroupNotFoundError e = false →
  sql_projectUsers (project_id project) w1
  = (Ok (before ++ pu :: others), w2) →
  let b := for_of before (addProjectUser None) w2 in
  result b = Ok tt →
  let head :=
    [ processingLine project; LoadGroupByName n;
      Log Error ("Could not update group " +:+ n +:+ ": " +:+ message e);
      SqlProjectUsers (project_id project) ]
    ++ events b ++ [LoadUserByUsername (email pu)] in
  (∃ users,
     length users = length before
     ∧ events b
       = concat (zip_with (λ pu user,
                             [LoadUserByUsername (email pu);
                              AddUserToGroup (Some user) None "owner"])
                          before users))
  ∧ (∀ e' w3, loadUserByUsername (email pu) (world b) = (Throw e', w3) →
       processProject project w = mkRun head w3 (Throw unassignedGroupError))
  ∧ (∀ user w3 e' w4,
       loadUserByUsername (email pu) (world b) = (Ok user, w3) →
       addUserToGroup (Some user) None "owner" w3 = (Throw e', w4) →
       processProject project w
       = mkRun (head ++ [AddUserToGroup (Some user) None "owner"]) w4
               (Throw unassignedGroupError)).
Proof.
  intros n Hload Hother Hq b Hb head.
  split; [by apply unassigned_passes|].
  assert (Hu : upsertGroup project n w
               = mkRun [LoadGroupByName n; updateGroupErrorLine n e] w1
                       (Ok (Next None))).
  { unfold upsertGroup. unfold_m. rewrite Hload. cbn [events world result].
    by rewrite Hother. }
  assert (Hcases : ∀ evs w' ,
            addProjectUser None pu (world b)
            = mkRun evs w' (Throw unassignedGroupError) →
            processProject project w
            = mkRun ([processingLine project; LoadGroupByName n;
                      updateGroupErrorLine n e;
                      SqlProjectUsers (project_id project)]
                     ++ events b ++ evs) w' (Throw unassignedGroupError)).
  { intros evs w' Hone.
    rewrite processProject_cases, groupAndUsersSteps_cases. cbv zeta.
    fold n. rewrite Hu. cbn [events world result].
    unfold addProjectUsers, mbind, M_bind.
    rewrite (bind_call_ok _ _ _ _ _ _ Hq). cbn [events world result].
    rewrite (for_of_app before (pu :: others) _ w2 Hb). cbv zeta.
    fold b.
    rewrite (for_of_cons_throw pu others _ (world b) unassignedGroupError)
      by (by rewrite Hone).
    rewrite Hone. cbn [events world result map_result app]. done. }
  split.
  - intros e' w3 Hl. subst head. rewrite (Hcases [LoadUserByUsername (email pu)] w3).
    + done.
    + rewrite addProjectUser_cases. cbv zeta. by rewrite Hl.
  - intros user w3 e' w4 Hl Ha. subst head.
    rewrite (Hcases [LoadUserByUsername (email pu);
                     AddUserToGroup (Some user) None "owner"] w4).
    + by rewrite <- !app_assoc.
    + rewrite addProjectUser_cases. cbv zeta. by rewrite Hl, Ha.
Qed.

End KeyProps.

(** ** Which failures leave the loop *)

Section IsolationFacts.
Context {W : Type} `{Services W}.

Lemma upsertGroup_cases project n w :
  upsertGroup project n w =
    let attrs := newGroupAttributes project in
    let failed (evs : list Event) (err : JsError) (w' : W) :=
      if instanceof_GroupNotFoundError err then
        match addGroup n attrs w' with
        | (Ok g, w'') => mkRun (evs ++ [AddGroup n attrs]) w'' (Ok (Next (Some g)))
        | (Throw err', w'') =>
            mkRun (evs ++ [AddGroup n attrs; addGroupErrorLine n err']) w''
                  (Ok Continue)
        end
      else mkRun (evs ++ [updateGroupErrorLine n err]) w' (Ok (Next None)) in
    match loadGroupByName n w with
    | (Throw err, w1) => failed [LoadGroupByName n] err w1
    | (Ok existingGroup, w1) =>
        let input :=
          mkGroup (group_id existingGroup) (group_name existingGroup)
                  (projectGroupAttributes project
                     (group_attributes existingGroup)) in
        match updateGroup input w1 with
        | (Ok g, w2) =>
            mkRun [LoadGroupByName n; UpdateGroup input] w2 (Ok (Next (Some g)))
        | (Throw err, w2) =>
            failed [LoadGroupByName n; UpdateGroup input] err w2
        end
    end.
Proof.
  unfold upsertGroup. cbv zeta. unfold_m.
  rewrite projectGroupAttributes_empty.
  destruct (loadGroupByName n w) as [[existingGroup|err] w1];
    cbn [events world result].
  - destruct (updateGroup _ w1) as [[g|err] w2]; cbn [events world result];
      [done|].
    destruct (instanceof_GroupNotFoundError err); [|done].
    by destruct (addGroup n _ w2) as [[g|err'] w3].
  - destruct (instanceof_GroupNotFoundError err); [|done].
    by destruct (addGroup n _ w1) as [[g|err'] w2].
Qed.

Lemma identitySteps_cases project keyPair g w :
  identitySteps project keyPair g w =
    let f := findOrCreateUser project keyPair w in
    match result f with
    | Ok user =>
        let a := addGuest project user g (world f) in
        mkRun (events f ++ events a) (world a) (result a)
    | Throw e => mkRun (events f) (world f) (Throw e)
    end.
Proof.
  unfold identitySteps. cbv zeta. unfold mbind, M_bind, bind.
  by destruct (result (findOrCreateUser project keyPair w)).
Qed.

Lemma saveGeneratedKey_cases project keyPair w :
  saveGeneratedKey project keyPair w =
    if truthy (project_privateKey project) then mkRun [] w (Ok tt)
    else
      let '(r, w') :=
        sql_updateProjectKey (private keyPair) (project_id project) w in
      mkRun [SqlUpdateProjectKey (private keyPair) (project_id project)] w' r.
Proof.
  unfold saveGeneratedKey.
  destruct (truthy (project_privateKey project)); cbn [negb]; [done|].
  unfold call. by destruct (sql_updateProjectKey _ _ w) as [[[]|e] w'].
Qed.

Lemma addProjectUsers_cases project g w :
  addProjectUsers project g w =
    match sql_projectUsers (project_id project) w with
    | (Throw e, w1) => mkRun [SqlProjectUsers (project_id project)] w1 (Throw e)
    | (Ok records, w1) =>
        let l := for_of records (addProjectUser g) w1 in
        mkRun (SqlProjectUsers (project_id project) :: events l) (world l)
              (result l)
    end.
Proof.
  unfold addProjectUsers, mbind, M_bind.
  destruct (sql_projectUsers (project_id project) w) as [[records|e] w1] eqn:E.
  - by rewrite (bind_call_ok _ _ _ _ _ _ E).
  - by rewrite (bind_call_throw _ _ _ _ _ _ E).
Qed.

(** C2 (amended): a failure of the project-user query, of the key
    write-back, of the fingerprint lookup or of the load of an identity
    by id is not caught: the iteration ends with that error right after
    the call, the error leaves the loop, and the remaining projects are
    not processed.  Once the group variable is assigned, no other error
    leaves an iteration.  The other failures are caught inside the
    iteration: a group that is not found is created; a failed creation
    of the group is logged and ends the iteration normally; a failed
    lookup or membership of a project user is logged and the project-user
    loop goes on; a failed generation or parsing of the key is logged and
    ends the iteration normally; a failed creation of the default user,
    of its key record or of the link is logged and the guest membership
    is still attempted; a failed guest membership is logged.  An iteration
    that ends normally is followed by the remaining projects. *)
Theorem C2_only_unguarded_failures_leave_the_loop (project : Project) (w : W) :
  let n := "project-" +:+ project_name project in
  let pid := project_id project in
  let U := upsertGroup project n w in
  let G := groupAndUsersSteps project w in
  let K := keyPairStep project (world G) in
  let S keyPair := saveGeneratedKey project keyPair (world K) in
  let run := processProject project w in
  (* the four calls that no [try] encloses *)
  (∀ g e w1,
     result U = Ok (Next g) →
     sql_projectUsers pid (world U) = (Throw e, w1) →
     run = mkRun (processingLine project :: events U ++ [SqlProjectUsers pid])
                 w1 (Throw e))
  ∧ (∀ g keyPair e w1,
       result G = Ok (Next g) → result K = Ok (Next keyPair) →
       truthy (project_privateKey project) = false →
       sql_updateProjectKey (private keyPair) pid (world K) = (Throw e, w1) →
       run = mkRun (events G ++ events K
                    ++ [SqlUpdateProjectKey (private keyPair) pid])
                   w1 (Throw e))
  ∧ (∀ g keyPair e w1,
       result G = Ok (Next g) → result K = Ok (Next keyPair) →
       result (S keyPair) = Ok tt →
       let fp := getSshKeyFingerprint (public keyPair) in
       sql_selectUserIdsBySshKeyFingerprint fp (world (S keyPair))
       = (Throw e, w1) →
       run = mkRun (events G ++ events K ++ events (S keyPair)
                    ++ [SqlSelectUserIdsBySshKeyFingerprint fp])
                   w1 (Throw e))
  ∧ (∀ g keyPair rows w1 uid e w2,
       result G = Ok (Next g) → result K = Ok (Next keyPair) →
       result (S keyPair) = Ok tt →
       let fp := getSshKeyFingerprint (public keyPair) in
       sql_selectUserIdsBySshKeyFingerprint fp (world (S keyPair))
       = (Ok rows, w1) →
       first_usid rows = Some uid → uid ≠ "" →
       loadUserById uid w1 = (Throw e, w2) →
       run = mkRun (events G ++ events K ++ events (S keyPair)
                    ++ [SqlSelectUserIdsBySshKeyFingerprint fp;
                        LoadUserById uid])
                   w2 (Throw e))
  (* an error of the iteration leaves the loop *)
  ∧ (∀ e rest,
       result run = Throw e →
       for_of (project :: rest) processProject w
       = mkRun (events run) (world run) (Throw e))
  (* with the group assigned, no other error leaves the iteration *)
  ∧ (result U ≠ Ok (Next None) →
     ∀ e, result run = Throw e →
       (∃ g w1, result U = Ok (Next g)
                ∧ sql_projectUsers pid (world U) = (Throw e, w1))
       ∨ (∃ g keyPair,
            result G = Ok (Next g) ∧ result K = Ok (Next keyPair)
            ∧ ((truthy (project_privateKey project) = false
                ∧ ∃ w1, sql_updateProjectKey (private keyPair) pid (world K)
                        = (Throw e, w1))
               ∨ (result (S keyPair) = Ok tt
                  ∧ let fp := getSshKeyFingerprint (public keyPair) in
                    ((∃ w1, sql_selectUserIdsBySshKeyFingerprint fp
                              (world (S keyPair)) = (Throw e, w1))
                     ∨ (∃ rows w1 uid w2,
                          sql_selectUserIdsBySshKeyFingerprint fp
                            (world (S keyPair)) = (Ok rows, w1)
                          ∧ first_usid rows = Some uid ∧ uid ≠ ""
                          ∧ loadUserById uid w1 = (Throw e, w2)))))))
  (* the failures that are caught, and what is logged *)
  ∧ (∀ w0,
       let failed (evs : list Event) (err : JsError) (w' : W) :=
         if instanceof_GroupNotFoundError err then
           match addGroup n (newGroupAttributes project) w' with
           | (Ok g, w'') =>
               mkRun (evs ++ [AddGroup n (newGroupAttributes project)]) w''
                     (Ok (Next (Some g)))
           | (Throw err', w'') =>
               mkRun (evs ++ [AddGroup n (newGroupAttributes project);
                              addGroupErrorLine n err']) w'' (Ok Continue)
           end
         else
           mkRun (evs ++ [updateGroupErrorLine n err]) w' (Ok (Next None)) in
       upsertGroup project n w0 =
         match loadGroupByName n w0 with
         | (Throw err, w1) => failed [LoadGroupByName n] err w1
         | (Ok existingGroup, w1) =>
             let input :=
               mkGroup (group_id existingGroup) (group_name existingGroup)
                       (projectGroupAttributes project
                          (group_attributes existingGroup)) in
             match updateGroup input w1 with
             | (Ok g, w2) =>
                 mkRun [LoadGroupByName n; UpdateGroup input] w2
                       (Ok (Next (Some g)))
             | (Throw err, w2) =>
                 failed [LoadGroupByName n; UpdateGroup input] err w2
             end
         end)
  ∧ (result U = Ok Continue →
     run = mkRun (processingLine project :: events U) (world U) (Ok tt))
  ∧ (∀ grp projectUser w0,
       addProjectUser (Some grp) projectUser w0 =
         match loadUserByUsername (email projectUser) w0 with
         | (Throw err, w1) =>
             mkRun [LoadUserByUsername (email projectUser);
                    ownerErrorLine projectUser grp err] w1 (Ok tt)
         | (Ok user, w1) =>
             match addUserToGroup (Some user) (Some grp) "owner" w1 with
             | (Ok _, w2) =>
                 mkRun [LoadUserByUsername (email projectUser);
                        AddUserToGroup (Some user) (Some grp) "owner"]
                       w2 (Ok tt)
             | (Throw err, w2) =>
                 mkRun [LoadUserByUsername (email projectUser);
                        AddUserToGroup (Some user) (Some grp) "owner";
                        ownerErrorLine projectUser grp err] w2 (Ok tt)
             end
         end)
  ∧ (∀ grp records w0,
       result (for_of records (addProjectUser (Some grp)) w0) = Ok tt)
  ∧ (∀ w0,
       let r := resolveKeyPair project w0 in
       keyPairStep project w0 =
         match result r with
         | Ok keyPair => mkRun (events r) (world r) (Ok (Next keyPair))
         | Throw err =>
             mkRun (events r ++ keyErrorLines project err) (world r)
                   (Ok Continue)
         end)
  ∧ (∀ g, result G = Ok (Next g) → result K = Ok Continue →
          run = mkRun (events G ++ events K) (world K) (Ok tt))
  ∧ (∀ keyPair w0,
       let input := defaultUserInput project in
       let key := sshKeyInput keyPair in
       createDefaultUser project keyPair w0 =
         match addUser input w0 with
         | (Throw err, w1) =>
             mkRun [AddUser input; createErrorLine project err] w1 (Ok None)
         | (Ok user, w1) =>
             match sql_insertSshKey key w1 with
             | (Throw err, w2) =>
                 mkRun [AddUser input; SqlInsertSshKey key;
                        createErrorLine project err] w2 (Ok (Some user))
             | (Ok insertId, w2) =>
                 match sql_addSshKeyToUser insertId (user_id user) w2 with
                 | (Throw err, w3) =>
                     mkRun [AddUser input; SqlInsertSshKey key;
                            SqlAddSshKeyToUser insertId (user_id user);
                            createErrorLine project err] w3 (Ok (Some user))
                 | (Ok _, w3) =>
                     mkRun [AddUser input; SqlInsertSshKey key;
                            SqlAddSshKeyToUser insertId (user_id user)]
                           w3 (Ok (Some user))
                 end
             end
         end)
  ∧ (∀ user g w0,
       addGuest project user g w0 =
         match addUserToGroup user g "guest" w0 with
         | (Ok _, w1) => mkRun [AddUserToGroup user g "guest"] w1 (Ok tt)
         | (Throw err, w1) =>
             mkRun [AddUserToGroup user g "guest"; guestErrorLine project err]
                   w1 (Ok tt)
         end)
  ∧ (∀ keyPair g w0 rows w1,
       let fp := getSshKeyFingerprint (public keyPair) in
       sql_selectUserIdsBySshKeyFingerprint fp w0 = (Ok rows, w1) →
       truthy (first_usid rows) = false →
       let c := createDefaultUser project keyPair w1 in
       ∃ user, result c = Ok user
         ∧ identitySteps project keyPair g w0
           = let a := addGuest project user g (world c) in
             mkRun (SqlSelectUserIdsBySshKeyFingerprint fp
                    :: events c ++ events a) (world a) (Ok tt))
  (* an iteration that ends normally is followed by the other projects *)
  ∧ (∀ rest,
       result run = Ok tt →
       for_of (project :: rest) processProject w
       = let l := for_of rest processProject (world run) in
         mkRun (events run ++ events l) (world l) (result l)).
Proof.
  intros n pid U G K S run.
  assert (HG : G = match result U with
                   | Ok (Next g) =>
                       let a := addProjectUsers project g (world U) in
                       mkRun (processingLine project :: events U ++ events a)
                             (world a) (map_result (λ _, Next g) (result a))
                   | Ok Continue =>
                       mkRun (processingLine project :: events U) (world U)
                             (Ok Continue)
                   | Throw e =>
                       mkRun (processingLine project :: events U) (world U)
                             (Throw e)
                   end) by apply groupAndUsersSteps_cases.
  assert (Hrun : run = match result G with
                       | Ok (Next g) =>
                           let k := keyAndIdentitySteps project g (world G) in
                           mkRun (events G ++ events k) (world k) (result k)
                       | Ok Continue => mkRun (events G) (world G) (Ok tt)
                       | Throw e => mkRun (events G) (world G) (Throw e)
                       end) by apply processProject_cases.
  assert (HKI : ∀ g, keyAndIdentitySteps project g (world G)
                = match result K with
                  | Ok (Next keyPair) =>
                      match result (S keyPair) with
                      | Ok _ =>
                          let i := identitySteps project keyPair g
                                     (world (S keyPair)) in
                          mkRun (events K ++ events (S keyPair) ++ events i)
                                (world i) (result i)
                      | Throw e =>
                          mkRun (events K ++ events (S keyPair))
                                (world (S keyPair)) (Throw e)
                      end
                  | Ok Continue => mkRun (events K) (world K) (Ok tt)
                  | Throw e => mkRun (events K) (world K) (Throw e)
                  end) by (intros; apply keyAndIdentitySteps_cases).
  assert (HKn : ∀ e, result K ≠ Throw e) by apply keyPairStep_never_throws.
  assert (HUn : ∀ e, result U ≠ Throw e) by apply upsertGroup_never_throws.
  repeat match goal with |- _ ∧ _ => split end.
  - (* project-user query *)
    intros g e w1 EU Eq. rewrite Hrun, HG, EU. cbv zeta.
    rewrite addProjectUsers_cases. fold pid. rewrite Eq. reflexivity.
  - (* write-back *)
    intros g keyPair e w1 EG EK Hfalsy Eup.
    rewrite Hrun, EG. cbv zeta. rewrite HKI, EK.
    unfold S. rewrite saveGeneratedKey_cases, Hfalsy. fold pid. rewrite Eup.
    cbn [events world result]. by rewrite app_assoc.
  - (* fingerprint lookup *)
    intros g keyPair e w1 EG EK ES fp Esel.
    rewrite Hrun, EG. cbv zeta. rewrite HKI, EK, ES. cbv zeta.
    rewrite identitySteps_cases. cbv zeta. rewrite findOrCreateUser_cases.
    cbv zeta. fold fp. rewrite Esel. cbn [events world result].
    by rewrite !app_assoc.
  - (* load by id *)
    intros g keyPair rows w1 uid e w2 EG EK ES fp Esel Efirst Hne Eload.
    rewrite Hrun, EG. cbv zeta. rewrite HKI, EK, ES. cbv zeta.
    rewrite identitySteps_cases. cbv zeta. rewrite findOrCreateUser_cases.
    cbv zeta. fold fp. rewrite Esel, Efirst.
    destruct uid as [|c uid]; [done|]. cbn [truthy from_option id].
    rewrite Eload.
    cbn [events world result map_result]. by rewrite !app_assoc.
  - (* leaves the loop *)
    intros e rest E. by apply for_of_cons_throw.
  - (* nothing else leaves the iteration *)
    intros Hassigned e E. rewrite Hrun in E.
    destruct (result G) as [[g|]|eG] eqn:EG; cbn [result] in E.
    + right. rewrite HKI in E.
      destruct (result K) as [[keyPair|]|eK] eqn:EK; cbn [result] in E;
        [|done|by destruct (HKn eK)].
      exists g, keyPair. split; [done|]. split; [done|].
      destruct (result (S keyPair)) as [[]|eS] eqn:ES; cbn [result] in E.
      * right. split; [done|]. cbv zeta in E |- *.
        rewrite identitySteps_cases in E. cbv zeta in E.
        rewrite findOrCreateUser_cases in E. cbv zeta in E.
        destruct (sql_selectUserIdsBySshKeyFingerprint _ (world (S keyPair)))
          as [[rows|eF] w1] eqn:Esel; cbn [result] in E.
        -- right. destruct (truthy (first_usid rows)) eqn:Et.
           ++ apply truthy_default in Et as [Efirst Hne].
              destruct (loadUserById _ w1) as [[user|eL] w2] eqn:El;
                cbn [result map_result events world] in E.
              ** pose proof (addGuest_never_throws project (Some user) g w2 e).
                 done.
              ** injection E as ->.
                 by exists rows, w1, (default "" (first_usid rows)), w2.
           ++ cbn [result world events] in E.
              pose proof (createDefaultUser_never_throws project keyPair w1)
                as Hc.
              destruct (result (createDefaultUser project keyPair w1))
                as [user|eC] eqn:Ec; [|by destruct (Hc eC)].
              cbn [result] in E.
              by pose proof (addGuest_never_throws project user g
                               (world (createDefaultUser project keyPair w1)) e).
        -- left. injection E as ->. by exists w1.
      * left. injection E as ->. unfold S in ES.
        rewrite saveGeneratedKey_cases in ES.
        destruct (truthy (project_privateKey project)); [done|].
        split; [done|]. fold pid in ES.
        destruct (sql_updateProjectKey _ pid (world K)) as [[[]|eU] w1];
          [done|]. injection ES as ->. by exists w1.
    + done.
    + left. injection E as ->. rewrite HG in EG.
      destruct (result U) as [[g|]|eU] eqn:EU; cbn [result] in EG;
        [|done|by destruct (HUn eU)].
      cbv zeta in EG. rewrite addProjectUsers_cases in EG. fold pid in EG.
      destruct (sql_projectUsers pid (world U)) as [[records|eq] w1] eqn:Eq;
        cbn [result map_result] in EG.
      * destruct g as [grp|]; [|done].
        destruct (owners_loop grp records w1) as (Hok & _). cbv zeta in Hok.
        rewrite Hok in EG. done.
      * injection EG as ->. by exists g, w1.
  - (* the group step *)
    intros w0. cbv zeta. apply upsertGroup_cases.
  - intros EU. by apply processProject_skipped.
  - (* one project user *)
    intros grp projectUser w0. rewrite addProjectUser_cases. cbv zeta.
    destruct (loadUserByUsername (email projectUser) w0) as [[user|err] w1];
      [|done].
    by destruct (addUserToGroup (Some user) (Some grp) "owner" w1)
      as [[[]|err] w2].
  - intros grp records w0. by destruct (owners_loop grp records w0).
  - (* the key step *)
    intros w0. apply keyPairStep_cases.
  - intros g EG EK. rewrite Hrun, EG. cbv zeta. by rewrite HKI, EK.
  - (* the creation path *)
    intros keyPair w0. apply createDefaultUser_cases.
  - intros user g w0. apply addGuest_cases.
  - intros keyPair g w0 rows w1 fp Esel Efalsy c.
    pose proof (createDefaultUser_never_throws project keyPair w1) as Hc.
    fold c in Hc.
    destruct (result c) as [user|eC] eqn:Ec; [|by destruct (Hc eC)].
    exists user. split; [done|].
    rewrite identitySteps_cases. cbv zeta. rewrite findOrCreateUser_cases.
    cbv zeta. fold fp. rewrite Esel, Efalsy. fold c.
    cbn [result world events]. rewrite Ec.
    pose proof (addGuest_never_throws project user g (world c)) as Ha.
    destruct (result (addGuest project user g (world c))) as [[]|eA] eqn:Ea;
      [done|by destruct (Ha eA)].
  - intros rest E. by apply for_of_cons.
Qed.

End IsolationFacts.

(** *** The fields of the key record *)

Lemma rev_app_append s1 s2 t :
  String.rev_app s1 s2 +:+ t = String.rev_app s1 (s2 +:+ t).
Proof. revert s2. induction s1 as [|a s1 IH]; intros s2; simpl; [done|]. by rewrite IH. Qed.

Lemma split_go_no_sep sep cur s :
  occurs sep s = false → split_go sep cur s = [String.rev cur +:+ s].
Proof.
  revert cur. induction s as [|a s IH]; intros cur Hs; simpl in *.
  - unfold String.rev. by rewrite rev_app_append.
  - destruct (Ascii.eqb a sep); [done|]. rewrite IH by done.
    unfold String.rev. simpl. by rewrite !rev_app_append.
Qed.

Lemma split_go_sep sep cur s rest :
  occurs sep s = false →
  split_go sep cur (s +:+ String sep rest)
  = (String.rev cur +:+ s) :: split_go sep "" rest.
Proof.
  revert cur. induction s as [|a s IH]; intros cur Hs; simpl in *.
  - rewrite Ascii.eqb_refl. unfold String.rev. by rewrite rev_app_append.
  - destruct (Ascii.eqb a sep); [done|]. rewrite IH by done.
    unfold String.rev. simpl. by rewrite !rev_app_append.
Qed.

Lemma append_char (c : ascii) s : String c "" +:+ s = String c s.
Proof. reflexivity. Qed.

Lemma split_nonempty sep s : ∃ x xs, split sep s = x :: xs.
Proof.
  unfold split. generalize EmptyString as cur.
  induction s as [|a s IH]; intros cur; simpl; [by eauto|].
  destruct (Ascii.eqb a sep); by eauto.
Qed.

Section KeyRecord.
Context `{KeyLib}.

(** X14: the key record takes its type and its value from the first two
    fields of the public text, split at single spaces: a text without a
    space gives a record with no value; a comment after the value is
    left out; the type is never missing. *)
Theorem X14_key_record_fields (keyPair : KeyPair) (type value : string) :
  occurs " " type = false → occurs " " value = false →
  (public keyPair = type →
     keyType (sshKeyInput keyPair) = Some type
     ∧ keyValue (sshKeyInput keyPair) = None)
  ∧ (public keyPair = type +:+ " " +:+ value →
     keyType (sshKeyInput keyPair) = Some type
     ∧ keyValue (sshKeyInput keyPair) = Some value)
  ∧ (∀ comment, public keyPair = type +:+ " " +:+ value +:+ " " +:+ comment →
     keyType (sshKeyInput keyPair) = Some type
     ∧ keyValue (sshKeyInput keyPair) = Some value)
  ∧ is_Some (keyType (sshKeyInput keyPair)).
Proof.
  intros Ht Hv. unfold sshKeyInput. cbv zeta. cbn [keyType keyValue].
  split; [|split; [|split]].
  - intros ->. unfold split. by rewrite split_go_no_sep.
  - intros ->. unfold split. rewrite (append_char " ").
    rewrite split_go_sep by done. by rewrite split_go_no_sep.
  - intros comment ->. unfold split. rewrite !(append_char " ").
    rewrite split_go_sep by done. by rewrite split_go_sep.
  - destruct (split_nonempty " " (public keyPair)) as (x & xs & ->). by eexists.
Qed.

End KeyRecord.

Section FrameProps.
Context {W : Type} `{Services W}.

Lemma processProject_names project w :
  emits (names_only project) (processProject project w).
Proof.
  unfold processProject, groupAndUsersSteps, upsertGroup, addProjectUsers,
    addProjectUser, prop_name, keyAndIdentitySteps, keyPairStep, resolveKeyPair,
    saveGeneratedKey, identitySteps, findOrCreateUser, createDefaultUser, addGuest.
  rewrite resolvePrivateKey_cases, projectGroupAttributes_empty.
  unfold lift_result.
  repeat emits_step; try constructor; unfold names_only;
    repeat split; intros; simplify_eq; done.
Qed.

(** X15: the loop only looks up and creates groups named [project-<name>],
    only creates users named after a project, and only queries and
    updates rows by the id of a project, for projects among the rows it
    was given. *)
Theorem X15_run_touches_only_its_projects (projects : list Project) (w : W)
    (ev : Event) :
  ev ∈ events (for_of projects processProject w) →
  ∃ project, project ∈ projects ∧ names_only project ev.
Proof.
  revert w. induction projects as [|project projects IH]; intros w Hin.
  - by apply elem_of_nil in Hin.
  - assert (Hhere : ev ∈ events (processProject project w) →
                    ∃ p, p ∈ project :: projects ∧ names_only p ev).
    { intros Hev. exists project. split; [left|].
      pose proof (processProject_names project w) as Hn.
      unfold emits in Hn. rewrite Forall_forall in Hn. by apply Hn. }
    destruct (result (processProject project w)) as [[]|e] eqn:E.
    + rewrite (for_of_cons _ _ _ _ E) in Hin. cbn [events] in Hin.
      apply elem_of_app in Hin as [Hin|Hin]; [by apply Hhere|].
      destruct (IH _ Hin) as (p & Hp & Hn). exists p. split; [by right|done].
    + rewrite (for_of_cons_throw _ _ _ _ _ E) in Hin. by apply Hhere.
Qed.

End FrameProps.

(** * Properties of the entrypoint *)

Module EntrypointFacts.
Import Entrypoint.

Lemma append_nil_r s : s +:+ "" = s.
Proof.
  induction s as [|a s IH]; [done|].
  change (String a (s +:+ "") = String a s). by rewrite IH.
Qed.

Lemma cut_second_label pod svc :
  occurs "." pod = false → occurs "." svc = false →
  cut_d_dot_f2 (pod +:+ "." +:+ svc) = svc
  ∧ ∀ rest, cut_d_dot_f2 (pod +:+ "." +:+ svc +:+ "." +:+ rest) = svc.
Proof.
  intros Hp Hs. unfold cut_d_dot_f2, split. split.
  - rewrite (append_char "."). rewrite split_go_sep by done.
    by rewrite split_go_no_sep.
  - intros rest. rewrite !(append_char "."). rewrite split_go_sep by done.
    by rewrite split_go_sep.
Qed.

Lemma cut_no_dot host : occurs "." host = false → cut_d_dot_f2 host = host.
Proof. intros Hh. unfold cut_d_dot_f2, split. by rewrite split_go_no_sep. Qed.

Section Facts.
Variable echo_e : string → string.

(** X16: in a cluster the discovery host is the second label of the fully
    qualified host name, and the host name itself when it has no dot;
    the line is appended after what [EXTRA_OPTS] added. *)
Theorem X16_service_name_is_second_label (env : Env) (s : State)
    (pod svc : string) :
  test_z (expand (POD_NAMESPACE env)) = false →
  writable s = true →
  occurs "." pod = false → occurs "." svc = false →
  let extra :=
    if test_z (expand (EXTRA_OPTS env)) then ""
    else echo_e (expand (EXTRA_OPTS env)) in
  let line name :=
    "discovery.zen.ping.unicast.hosts: " +:+ name +:+ String LF "" in
  let done_with name fqdn :=
    let r := entrypoint echo_e env (Some fqdn) s in
    r.1 = Success ∧ config r.2 = (config s +:+ extra) +:+ line name in
  done_with svc (pod +:+ "." +:+ svc)
  ∧ (∀ rest, done_with svc (pod +:+ "." +:+ svc +:+ "." +:+ rest))
  ∧ done_with pod pod.
Proof.
  intros Hns Hw Hp Hs extra line done_with.
  assert (Hgen : ∀ fqdn name, cut_d_dot_f2 fqdn = name → done_with name fqdn).
  { intros fqdn name Hcut. unfold done_with, entrypoint, append_config, echo.
    cbv zeta. rewrite Hns, Hcut. subst extra.
    destruct (test_z (expand (EXTRA_OPTS env))); cbn [negb]; rewrite ?Hw;
      cbn [config writable stdout]; rewrite ?Hw; cbn [fst snd config];
      (split; [done|]); [|done].
    by rewrite append_nil_r. }
  destruct (cut_second_label pod svc Hp Hs) as [H1 H2].
  split; [by apply Hgen|]. split; [intros rest; by apply Hgen|].
  apply Hgen. by apply cut_no_dot.
Qed.

(** X17: without a pod namespace (unset or empty) the host name is not
    consulted and no discovery line is written: the file only gains what
    [EXTRA_OPTS] adds, and is left as it was when [EXTRA_OPTS] is unset or
    empty too. *)
Theorem X17_single_node_writes_no_discovery (env : Env) (s : State)
    (hostname_f : option string) :
  test_z (expand (POD_NAMESPACE env)) = true →
  entrypoint echo_e env hostname_f s = entrypoint echo_e env None s
  ∧ (test_z (expand (EXTRA_OPTS env)) = true →
     entrypoint echo_e env hostname_f s
     = (Success, echo "POD_NAMESPACE not set, spin up single node" s))
  ∧ (test_z (expand (EXTRA_OPTS env)) = false → writable s = true →
     (entrypoint echo_e env hostname_f s).1 = Success
     ∧ config (entrypoint echo_e env hostname_f s).2
       = config s +:+ echo_e (expand (EXTRA_OPTS env))).
Proof.
  intros Hns. unfold entrypoint. cbv zeta. rewrite Hns.
  split; [by destruct (if negb _ then _ else _)|].
  split.
  - by intros ->.
  - intros -> Hw. unfold append_config. by rewrite Hw.
Qed.

Lemma is_prefix_append p t : is_prefix p (p +:+ t) = true.
Proof.
  induction p as [|a p IH]; [done|].
  change (Ascii.eqb a a && is_prefix p (p +:+ t) = true).
  by rewrite Ascii.eqb_refl.
Qed.

(** X18: the script only ever appends to the file: whatever the environment,
    the host name and the outcome, the text it found is a prefix of the
    text it leaves; and a file that cannot be written is left as it
    was. *)
Theorem X18_config_is_only_appended_to (env : Env) (hostname_f : option string)
    (s : State) :
  is_prefix (config s) (config (entrypoint echo_e env hostname_f s).2) = true
  ∧ (writable s = false →
     config (entrypoint echo_e env hostname_f s).2 = config s).
Proof.
  assert (Hrefl : ∀ c, is_prefix c c = true).
  { intros c. induction c as [|a c IH]; simpl; [done|].
    by rewrite Ascii.eqb_refl. }
  assert (Htrans : ∀ c t u, is_prefix c ((c +:+ t) +:+ u) = true).
  { intros c t u. induction c as [|a c IH]; [done|].
    change (Ascii.eqb a a && is_prefix c ((c +:+ t) +:+ u) = true).
    by rewrite Ascii.eqb_refl. }
  unfold entrypoint, append_config, echo. cbv zeta.
  destruct (test_z (expand (EXTRA_OPTS env))),
           (test_z (expand (POD_NAMESPACE env))),
           hostname_f as [fqdn|], (writable s) eqn:Hw;
    cbn [negb config writable stdout fst snd]; rewrite ?Hw;
    cbn [negb config writable stdout fst snd];
    (split; [|try done]); rewrite ?Hrefl, ?is_prefix_append, ?Htrans; done.
Qed.

End Facts.
End EntrypointFacts.

(** ** Further concrete runs *)

Module MoreRuns.
Import SpecWorld Examples.

#[local] Existing Instance ToyKeys.toy_keys.
#[local] Existing Instance services.
#[local] Existing Instance faulty.

(** The write-back of the key of the first project fails: the iteration
    ends with that error right after the update, and the loop ends with
    it, the second project not being processed. *)
Lemma C2_witness :
  let s := (two_projects, write_back_fails) in
  let G := groupAndUsersSteps acme s in
  let K := keyPairStep acme (world G) in
  processProject acme s
  = mkRun (events G ++ events K ++ [SqlUpdateProjectKey "KEY:generated" 7])
          (world K) (Throw deadlock)
  ∧ for_of [acme; beta] processProject s
    = mkRun (events G ++ events K ++ [SqlUpdateProjectKey "KEY:generated" 7])
            (world K) (Throw deadlock).
Proof.
  cbv zeta.
  destruct (C2_only_unguarded_failures_leave_the_loop acme
              (two_projects, write_back_fails))
    as (_ & Hwb & _ & _ & Hleave & _).
  assert (HG : result (groupAndUsersSteps acme (two_projects, write_back_fails))
               = Ok (Next (Some acme_group))) by reflexivity.
  assert (HK : result (keyPairStep acme
                         (world (groupAndUsersSteps acme
                                   (two_projects, write_back_fails))))
               = Ok (Next acme_keyPair)) by reflexivity.
  assert (Hup : sql_updateProjectKey (private acme_keyPair) (project_id acme)
                  (world (keyPairStep acme
                            (world (groupAndUsersSteps acme
                                      (two_projects, write_back_fails)))))
                = (Throw deadlock,
                   world (keyPairStep acme
                            (world (groupAndUsersSteps acme
                                      (two_projects, write_back_fails))))))
    by reflexivity.
  pose proof (Hwb _ _ _ _ HG HK eq_refl Hup) as Hrun.
  split; [exact Hrun|].
  rewrite (Hleave deadlock [beta]); rewrite Hrun; reflexivity.
Defined.

(** Two projects, no failure: the run ends with the completion line and
    the release of the connection. *)
Lemma X2_witness :
  result (migration two_projects) = Ok tt
  ∧ events (migration two_projects)
    = startupCalls ++ events (for_of [acme; beta] processProject two_projects)
      ++ [Log Info "Migration completed"; SqlDestroy].
Proof.
  assert (E1 : kc_setConfig "master" two_projects = (Ok tt, two_projects))
    by reflexivity.
  assert (E2 : kc_auth keycloakAuth two_projects = (Ok tt, two_projects))
    by reflexivity.
  assert (E3 : kc_setConfig "lagoon" two_projects = (Ok tt, two_projects))
    by reflexivity.
  assert (E4 : sql_backfillKeys two_projects = (Ok tt, two_projects))
    by reflexivity.
  assert (E5 : sql_selectProjects two_projects = (Ok [acme; beta], two_projects))
    by reflexivity.
  destruct (proj2 (X2_migration_closes_iff_finished two_projects)
              _ _ _ _ _ _ E1 E2 E3 E4 E5) as [_ Htie].
  cbv zeta in Htie.
  assert (Hok : result (for_of [acme; beta] processProject two_projects)
                = Ok tt) by (vm_compute; reflexivity).
  rewrite Hok in Htie.
  change (sql_destroy
            (world (for_of [acme; beta] processProject two_projects)))
    with (Ok tt, world (for_of [acme; beta] processProject two_projects))
    in Htie.
  rewrite Htie. split; reflexivity.
Defined.

(** No group exists yet: the group of the project is created with the two
    attributes. *)
Lemma X3_witness :
  upsertGroup acme "project-acme" empty_world
  = mkRun [LoadGroupByName "project-acme";
           AddGroup "project-acme" acme_attributes]
          (set_groups (λ gs, gs ++ [acme_group]) empty_world)
          (Ok (Next (Some acme_group))).
Proof.
  apply (X3_missing_group_is_created acme empty_world empty_world _
           (mkError GroupNotFoundError "Group not found: project-acme")
           acme_group); reflexivity.
Defined.

(** The identity provider refuses the creation of the group. *)
Lemma X4_witness :
  processProject acme (empty_world, add_group_fails)
  = mkRun [ Log Debug "Processing acme"; LoadGroupByName "project-acme";
            AddGroup "project-acme" acme_attributes;
            Log Error "Could not add group project-acme: ECONNRESET" ]
          (empty_world, add_group_fails) (Ok tt).
Proof.
  apply (X4_failed_group_creation_skips_project acme
           (empty_world, add_group_fails) (empty_world, add_group_fails) _
           (mkError GroupNotFoundError "Group not found: project-acme") reset);
    reflexivity.
Defined.

(** The update reports the group as missing while a group of that name
    exists: the creation is attempted and refused. *)
Lemma X5_witness :
  upsertGroup acme "project-acme" (foo_world, update_not_found)
  = mkRun [ LoadGroupByName "project-acme";
            UpdateGroup
              (mkGroup "g-1" "project-acme"
                 (projectGroupAttributes acme (group_attributes foo_group)));
            AddGroup "project-acme" acme_attributes;
            Log Error
              "Could not add group project-acme: Group name already exists" ]
          (foo_world, update_not_found) (Ok Continue).
Proof.
  assert (Hload : loadGroupByName "project-acme" (foo_world, update_not_found)
                  = (Ok foo_group, (foo_world, update_not_found)))
    by reflexivity.
  assert (Hup : updateGroup
                  (mkGroup "g-1" "project-acme"
                     (projectGroupAttributes acme (group_attributes foo_group)))
                  (foo_world, update_not_found)
                = (Throw group_vanished, (foo_world, update_not_found)))
    by reflexivity.
  etransitivity;
    [apply (X5_update_not_found_creates_group acme _ _ _ foo_group group_vanished
              Hload Hup eq_refl)|reflexivity].
Defined.

(** One legacy project user, known to the identity provider: the user
    that the lookup returned becomes an owner. *)
Lemma X7_witness :
  let r := addProjectUsers acme (Some acme_group) acme_world in
  result r = Ok tt
  ∧ List.filter is_user_lookup (events r)
    = [LoadUserByUsername (Some "alice@example.com")]
  ∧ events r
    = [ SqlProjectUsers 7; LoadUserByUsername (Some "alice@example.com");
        AddUserToGroup (Some alice) (Some acme_group) "owner" ].
Proof.
  assert (Hq : sql_projectUsers (W := World) 7 acme_world
               = (Ok [mkProjectUser (Some "alice@example.com")], acme_world))
    by reflexivity.
  destruct (X7_project_users_each_looked_up acme acme_group _ _ _ Hq)
    as (Hres & Hlook & _ & Hpass).
  split; [exact Hres|]. split; [exact Hlook|].
  destruct (Hpass [] (mkProjectUser (Some "alice@example.com")) [] eq_refl)
    as (Hev & _ & Hp).
  cbv zeta. rewrite Hev, Hp. reflexivity.
Defined.

(** The owner membership of the end-to-end scenario goes to the group the
    iteration created. *)
Lemma X8_witness :
  result (upsertGroup acme "project-acme" acme_world)
  = Ok (Next (Some acme_group)).
Proof.
  refine (proj1 (X8_memberships_only_in_own_group acme acme_world
                   (Some alice) (Some acme_group) "owner" _)).
  assert (Hev : ∃ pre post, events (processProject acme acme_world)
                = pre ++ AddUserToGroup (Some alice) (Some acme_group) "owner"
                         :: post).
  { eexists [_; _; _; _; _], _. vm_compute. reflexivity. }
  destruct Hev as (pre & post & ->).
  apply elem_of_app. right. left.
Defined.

(** Two projects that are processed to the end are announced in the order
    of the rows. *)
Lemma X9_witness :
  List.filter is_debug (events (for_of [acme; beta] processProject two_projects))
  = [Log Debug "Processing acme"; Log Debug "Processing beta"].
Proof.
  apply (proj2 (X9_projects_processed_in_order [acme; beta] two_projects)).
  vm_compute. reflexivity.
Defined.

(** The key generator fails. *)
Lemma X10_witness :
  keyAndIdentitySteps acme (Some acme_group) (empty_world, keygen_fails)
  = mkRun [ GeneratePrivateKey "ed25519" None;
            Log Error
              "There was an error with the project (acme) privateKey: ECONNRESET";
            Log Error ("Skipping adding default user with associated project "
                       +:+ "public key for project acme") ]
          (empty_world, keygen_fails) (Ok tt).
Proof.
  apply (X10_failed_key_generation_skips_project acme (Some acme_group)
           (empty_world, keygen_fails) (empty_world, keygen_fails) reset);
    reflexivity.
Defined.

(** The write-back of the generated key fails. *)
Lemma X11_witness :
  keyAndIdentitySteps acme (Some acme_group) (acme_world, write_back_fails)
  = mkRun [ GeneratePrivateKey "ed25519" None;
            SqlUpdateProjectKey "KEY:generated" 7 ]
          (set_keygen S acme_world, write_back_fails) (Throw deadlock).
Proof.
  assert (Hgen : generatePrivateKey "ed25519" (project_privateKey acme)
                   (acme_world, write_back_fails)
                 = (Ok (ToyKeys.key_of_seed 0),
                    (set_keygen S acme_world, write_back_fails)))
    by reflexivity.
  assert (Hup : sql_updateProjectKey
                  (private (keyPairOf (ToyKeys.key_of_seed 0)))
                  (project_id acme)
                  (set_keygen S acme_world, write_back_fails)
                = (Throw deadlock, (set_keygen S acme_world, write_back_fails)))
    by reflexivity.
  apply (X11_unsaved_key_is_not_bound acme (Some acme_group) _ _ _ _ deadlock
           eq_refl Hgen Hup).
Defined.

(** A project whose key is linked to an identity, processed with no
    group. *)
Lemma X12_witness :
  events (keyAndIdentitySteps bound None bound_world)
  = [ SqlSelectUserIdsBySshKeyFingerprint "SHA256:ssh-ed25519 shared";
      LoadUserById "u-1";
      AddUserToGroup (Some bound_user) None "guest";
      Log Error ("Could not link user to default projet group for bound: "
                 +:+ "Cannot read property 'id' of undefined") ].
Proof.
  assert (Hne : "KEY:shared" ≠ "") by discriminate.
  assert (Hid : "u-1" ≠ "") by discriminate.
  assert (Hparse : parsePrivateKey (Some "KEY:shared") = Ok "shared")
    by reflexivity.
  assert (Hsel : sql_selectUserIdsBySshKeyFingerprint (W := World)
                   (getSshKeyFingerprint (public (keyPairOf "shared")))
                   bound_world
                 = (Ok [mkUserIdRow "u-1"], bound_world)) by reflexivity.
  rewrite (X12_bound_key_creates_nothing bound None bound_world bound_world
             "KEY:shared" _ [mkUserIdRow "u-1"] "u-1"
             eq_refl Hne Hparse Hsel eq_refl Hid).
  reflexivity.
Defined.

(** The lookup of the group fails and the project has a legacy user. *)
Lemma X13_witness :
  result (processProject acme (acme_world, group_lookup_fails))
  = Throw unassignedGroupError.
Proof.
  assert (Hload : loadGroupByName "project-acme"
                    (acme_world, group_lookup_fails)
                  = (Throw reset, (acme_world, group_lookup_fails)))
    by reflexivity.
  assert (Hq : sql_projectUsers 7 (acme_world, group_lookup_fails)
               = (Ok ([] ++ [mkProjectUser (Some "alice@example.com")]),
                  (acme_world, group_lookup_fails))) by reflexivity.
  destruct (X13_unassigned_group_ends_run acme _ _ _ reset [] _ []
              Hload eq_refl Hq eq_refl) as (_ & _ & Hadd).
  assert (Hl : loadUserByUsername (Some "alice@example.com")
                 (acme_world, group_lookup_fails)
               = (Ok alice, (acme_world, group_lookup_fails))) by reflexivity.
  assert (Ha : addUserToGroup (Some alice) None "owner"
                 (acme_world, group_lookup_fails)
               = (Throw (mkError TypeError
                           "Cannot read property 'id' of undefined"),
                  (acme_world, group_lookup_fails))) by reflexivity.
  rewrite (Hadd alice _ _ _ Hl Ha). reflexivity.
Defined.

(** The public text of a generated key. *)
Lemma X14_witness :
  keyType (sshKeyInput acme_keyPair) = Some "ssh-ed25519"
  ∧ keyValue (sshKeyInput acme_keyPair) = Some "generated".
Proof.
  apply (X14_key_record_fields acme_keyPair "ssh-ed25519" "generated"
           eq_refl eq_refl).
  reflexivity.
Defined.

(** The user created for the second project is named after the second
    project. *)
Lemma X15_witness :
  ∃ project, project ∈ [acme; beta]
             ∧ names_only project (AddUser (defaultUserInput beta)).
Proof.
  apply (X15_run_touches_only_its_projects [acme; beta] two_projects).
  assert (Hev : ∃ pre post,
            events (for_of [acme; beta] processProject two_projects)
            = pre ++ AddUser (defaultUserInput beta) :: post).
  { exists (take 18 (events (for_of [acme; beta] processProject two_projects))),
           (drop 19 (events (for_of [acme; beta] processProject two_projects))).
    vm_compute. reflexivity. }
  destruct Hev as (pre & post & ->).
  apply elem_of_app. right. left.
Defined.

(** A pod of a stateful set. *)
Lemma X16_witness :
  let env := Entrypoint.mkEnv None (Some "lagoon") in
  let s := Entrypoint.mkState "cluster.name: es" true [] in
  let r := Entrypoint.entrypoint echo_plain env
             (Some "es-0.es-svc.lagoon.svc.cluster.local") s in
  Entrypoint.config r.2
  = "cluster.name: es"
    +:+ "discovery.zen.ping.unicast.hosts: es-svc" +:+ String LF "".
Proof.
  destruct (EntrypointFacts.X16_service_name_is_second_label echo_plain
              (Entrypoint.mkEnv None (Some "lagoon"))
              (Entrypoint.mkState "cluster.name: es" true [])
              "es-0" "es-svc" eq_refl eq_refl eq_refl eq_refl)
    as (_ & Hrest & _).
  destruct (Hrest "lagoon.svc.cluster.local") as [_ Hc].
  cbv zeta. etransitivity; [exact Hc|]. reflexivity.
Defined.

(** An empty pod namespace and no extra options. *)
Lemma X17_witness :
  Entrypoint.entrypoint echo_plain (Entrypoint.mkEnv None (Some ""))
    (Some "es.local") (Entrypoint.mkState "cluster.name: es" true [])
  = (Entrypoint.Success,
     Entrypoint.mkState "cluster.name: es" true
       ["POD_NAMESPACE not set, spin up single node"]).
Proof.
  destruct (EntrypointFacts.X17_single_node_writes_no_discovery echo_plain
              (Entrypoint.mkEnv None (Some "")) 
              (Entrypoint.mkState "cluster.name: es" true [])
              (Some "es.local") eq_refl) as (_ & Hplain & _).
  exact (Hplain eq_refl).
Defined.

(** A configuration file that cannot be written is left as it was. *)
Lemma X18_witness :
  Entrypoint.config
    (Entrypoint.entrypoint echo_plain
       (Entrypoint.mkEnv (Some "node.master: true") (Some "lagoon"))
       (Some "es-0.es-svc") (Entrypoint.mkState "cluster.name: es" false [])).2
  = "cluster.name: es".
Proof.
  exact (proj2 (EntrypointFacts.X18_config_is_only_appended_to echo_plain
                  (Entrypoint.mkEnv (Some "node.master: true") (Some "lagoon"))
                  (Some "es-0.es-svc")
                  (Entrypoint.mkState "cluster.name: es" false []))
               eq_refl).
Defined.

End MoreRuns.
